(** * Real-time scheduler (RealTime.ts): a shallow embedding of the analysis engine

    The TypeScript model classes [AppTools], [RTTask] and [RTSystem] are
    embedded as Rocq functions.  Conventions used throughout:

    - a JavaScript [number] that only ever holds an integer is a [Z]; the
      values that can also become [Infinity], [-Infinity] or [NaN] (a
      quotient by a period that is 0) are a [jsnum]; the values that can be
      proper fractions (utilizations, unrounded proportions) are a [Q], and
      the Liu bound, which is irrational, is an [R].  Arithmetic is exact:
      the 53-bit precision of doubles is not modelled, an integer standing
      for the double that holds it; the properties that give the value of a
      long sum (least solutions, the round trip through the parser) are
      stated for integers up to [Number.MAX_SAFE_INTEGER], where the two
      agree;
    - [throw] and the [TypeError] of a property read on [null] are the
      [inl] of a sum; a [while] loop without a bound takes fuel and returns
      [None] when the fuel runs out;
    - the objects used as dictionaries keyed by task id are [gmap Z _];
    - the memoising fields ([fu], [liu], [_rmScheduling], ...) cache a value
      that is a function of the immutable task list, so every accessor is
      modelled by the function that computes the value. *)

From Stdlib Require Import ZArith QArith Qround Qabs Reals Qreals Lia Lra Lqa String Ascii List Bool.
From Stdlib Require DecimalString DecimalN.
From stdpp Require Import gmap list.
Import ListNotations.

Close Scope R_scope.
Close Scope Q_scope.
Local Open Scope Z_scope.

(** ** JavaScript numbers that may leave the integers *)

Inductive jsnum : Type :=
| Fin (z : Z)
| PInf
| NInf
| NaN.

(** [a + b]; the sum of two integers is the exact one, which is what a
    double holds as long as it stays within [Number.MAX_SAFE_INTEGER]. *)
Definition jadd (a b : jsnum) : jsnum :=
  match a, b with
  | NaN, _ | _, NaN => NaN
  | Fin x, Fin y => Fin (x + y)
  | PInf, NInf | NInf, PInf => NaN
  | PInf, _ | _, PInf => PInf
  | NInf, _ | _, NInf => NInf
  end.

(** [a * c] for a finite integer [c] (an execution time); the product of
    two integers is the exact one, as for [jadd]. *)
Definition jmul (a : jsnum) (c : Z) : jsnum :=
  match a with
  | Fin x => Fin (x * c)
  | PInf => if c =? 0 then NaN else if 0 <? c then PInf else NInf
  | NInf => if c =? 0 then NaN else if 0 <? c then NInf else PInf
  | NaN => NaN
  end.

(** The mathematical ceiling of the quotient of two integers. *)
Definition Zceil_div (a b : Z) : Z := - ((- a) / b).

(** [math.ceil(a / T)] for a finite integer [T] (a period, hence [+0] when
    it is zero): a finite quotient is rounded up; [x / 0] is [Infinity],
    [-Infinity] or [NaN] by the sign of [x], and [math.ceil] leaves those
    three values alone. *)
Definition jceil_div (a : jsnum) (T : Z) : jsnum :=
  match a with
  | Fin x =>
      if T =? 0 then (if 0 <? x then PInf else if x <? 0 then NInf else NaN)
      else Fin (Zceil_div x T)
  | PInf => if T <? 0 then NInf else PInf
  | NInf => if T <? 0 then PInf else NInf
  | NaN => NaN
  end.

(** [a == b]: [NaN] is equal to nothing, itself included. *)
Definition jeqb (a b : jsnum) : bool :=
  match a, b with
  | Fin x, Fin y => x =? y
  | PInf, PInf | NInf, NInf => true
  | _, _ => false
  end.

(** ** Tasks *)

(** [class RTTask]: the fields set by the constructor. *)
Record RTTask : Type := mkRTTask {
  id : Z;
  executionTime : Z;
  period : Z;
  expire : Z;
  fu : Q
}.

(** ** Response-time solver *)

(** The inner [for (let j = 0; j < taskIndex; j++)] loop of
    [getTaskResponse], over the tasks [this.tasks[0 .. taskIndex-1]]:
    [iteration += math.ceil(seed / T_j) * C_j]. *)
Fixpoint interference (seed : jsnum) (higher : list RTTask) (iteration : jsnum) : jsnum :=
  match higher with
  | [] => iteration
  | loopTask :: rest =>
      interference seed rest
        (jadd iteration (jmul (jceil_div seed (period loopTask)) (executionTime loopTask)))
  end.

(** One evaluation of the recurrence
    [t' = C_i + sum_{j < taskIndex} ceil(t / T_j) * C_j]. *)
Definition response_step (tasks : list RTTask) (task : RTTask) (taskIndex : nat)
    (seed : jsnum) : jsnum :=
  interference seed (take taskIndex tasks) (Fin (executionTime task)).

(** The iteration cap of [getTaskResponse]. *)
Definition maxIterations : nat := 50.

(** The [do { ... } while (!finish && iterationCount < 50)] loop.  [passes]
    is the number of further passes the loop condition can still allow; the
    result is the pair of [iteration] and [iterationCount] on exit. *)
Fixpoint response_loop (passes : nat) (tasks : list RTTask) (task : RTTask)
    (taskIndex : nat) (seed : jsnum) (iterationCount : nat) : jsnum * nat :=
  let iterationCount := S iterationCount in
  let iteration := response_step tasks task taskIndex seed in
  let finish := jeqb seed iteration in
  let seed := if finish then seed else iteration in
  match passes with
  | S passes' =>
      if negb finish && (iterationCount <? maxIterations)%nat
      then response_loop passes' tasks task taskIndex seed iterationCount
      else (iteration, iterationCount)
  | O => (iteration, iterationCount)
  end.

(** The loop of [getTaskResponse] started from a given seed, with the
    [return iterationCount < 50 ? iteration : -1] that follows it. *)
Definition response_from_seed (tasks : list RTTask) (task : RTTask)
    (taskIndex : nat) (seed : jsnum) : jsnum :=
  let '(iteration, iterationCount) :=
    response_loop (maxIterations - 1) tasks task taskIndex seed 0 in
  if (iterationCount <? maxIterations)%nat then iteration else Fin (-1).

(** [RTSystem.getTaskResponse(task, previousTaskTime, iterationIndex)]. *)
Definition getTaskResponse (tasks : list RTTask) (task : RTTask)
    (previousTaskTime : jsnum) (iterationIndex : nat) : jsnum :=
  let seed := jadd previousTaskTime (Fin (executionTime task)) in
  let taskIndex := (iterationIndex mod length tasks)%nat in
  response_from_seed tasks task taskIndex seed.

(** The [for (let t = 1; t < this.tasks.length; t++)] loop of
    [getTaskTiming]; [rest] is [this.tasks[t ..]]. *)
Fixpoint timing_loop (tasks rest : list RTTask) (t : nat)
    (previousResult : jsnum) (result : list jsnum) : list jsnum :=
  match rest with
  | [] => result
  | task :: rest' =>
      let previousResult := getTaskResponse tasks task previousResult t in
      timing_loop tasks rest' (S t) previousResult (result ++ [previousResult])
  end.

(** [RTSystem.getTaskTiming()]. *)
Definition getTaskTiming (tasks : list RTTask) : list jsnum :=
  match tasks with
  | [] => []
  | first :: rest =>
      let result := [Fin (executionTime first)] in
      timing_loop tasks rest 1 (Fin (executionTime first)) result
  end.

(** ** First-free-slot solver *)

(** One evaluation of [m' = 1 + sum_j ceil(m / T_j) * C_j]: the inner
    [for] loop of [getFirstFreeSlot] runs over every task, starting from
    [currentResult = 1]. *)
Definition slot_step (tasks : list RTTask) (previousResult : jsnum) : jsnum :=
  interference previousResult tasks (Fin 1).

(** The [do { ... } while (previousResult != currentResult)] loop; it has
    no cap in the source, so it takes fuel. *)
Fixpoint slot_loop (fuel : nat) (tasks : list RTTask) (currentResult : jsnum)
    : option jsnum :=
  match fuel with
  | O => None
  | S fuel' =>
      let previousResult := currentResult in
      let currentResult := slot_step tasks previousResult in
      if negb (jeqb previousResult currentResult)
      then slot_loop fuel' tasks currentResult
      else Some previousResult
  end.

(** [let seed = 1 + _.last(this.getTaskTiming())]; [_.last] of an empty
    array is [undefined], and [1 + undefined] is [NaN]. *)
Definition slot_seed (tasks : list RTTask) : jsnum :=
  match last (getTaskTiming tasks) with
  | Some latestResponseTime => jadd (Fin 1) latestResponseTime
  | None => NaN
  end.

(** [RTSystem.getFirstFreeSlot()]; the field [_firstFreeSlot] is [null]
    from the constructor on and never assigned, so the guard at the top
    never returns. *)
Definition getFirstFreeSlot (fuel : nat) (tasks : list RTTask) : option jsnum :=
  slot_loop fuel tasks (slot_seed tasks).

(** ** Rate-monotonic simulation *)

(** The variables of [getRMScheduling] that the loops update. *)
Record rm_state : Type := mkRM {
  unattendendTasks : list Z;
  executionCount : gmap Z Z;
  nextStart : gmap Z Z;
  scheduling : gmap Z (list bool);
  executionOrder : list Z;
  selectedTask : option RTTask
}.

(** Reading a counter of a task id; every id read has been initialised. *)
Definition counter (m : gmap Z Z) (taskId : Z) : Z := default 0 (m !! taskId).

(** Reading the occupancy row of a task id. *)
Definition row (m : gmap Z (list bool)) (taskId : Z) : list bool :=
  default [] (m !! taskId).

(** [_.contains(unattendendTasks, taskId)] *)
Definition contains (l : list Z) (taskId : Z) : bool := bool_decide (taskId ∈ l).

(** [_.difference(unattendendTasks, [taskId])] *)
Definition difference (l : list Z) (taskId : Z) : list Z :=
  filter (fun x => x ≠ taskId) l.

(** The [_.each] that initialises the three dictionaries. *)
Definition rm_init_task (st : rm_state) (item : RTTask) : rm_state :=
  mkRM (unattendendTasks st)
       (<[id item := 0]> (executionCount st))
       (<[id item := period item]> (nextStart st))
       (<[id item := []]> (scheduling st))
       (executionOrder st)
       (selectedTask st).

(** The state before the first cell: every task pending, the counters at
    0, the next starts at the periods, the rows and the order empty. *)
Definition rm_init (tasks : list RTTask) : rm_state :=
  foldl rm_init_task (mkRM (map id tasks) ∅ ∅ ∅ [] None) tasks.

(** The release check at the top of the [for] body:
    [if (currentCell == nextStart[taskId]) { ... }]. *)
Definition rm_release (currentCell : Z) (st : rm_state) (currentTask : RTTask)
    : rm_state :=
  let taskId := id currentTask in
  if currentCell =? counter (nextStart st) taskId then
    mkRM (unattendendTasks st ++ [taskId])
         (<[taskId := 0]> (executionCount st))
         (<[taskId := counter (nextStart st) taskId + period currentTask]> (nextStart st))
         (scheduling st)
         (executionOrder st)
         (selectedTask st)
  else st.

(** The selection at the bottom of the [for] body. *)
Definition rm_select (st : rm_state) (currentTask : RTTask) : rm_state :=
  let taskId := id currentTask in
  if bool_decide (selectedTask st = None) && contains (unattendendTasks st) taskId then
    let count := counter (executionCount st) taskId + 1 in
    mkRM (if executionTime currentTask <=? count
          then difference (unattendendTasks st) taskId
          else unattendendTasks st)
         (<[taskId := count]> (executionCount st))
         (nextStart st)
         (<[taskId := row (scheduling st) taskId ++ [true]]> (scheduling st))
         (executionOrder st ++ [taskId])
         (Some currentTask)
  else
    mkRM (unattendendTasks st)
         (executionCount st)
         (nextStart st)
         (<[taskId := row (scheduling st) taskId ++ [false]]> (scheduling st))
         (executionOrder st)
         (selectedTask st).

(** The body of [for (i = 0; i < this.tasks.length; i++)]. *)
Definition rm_task (currentCell : Z) (st : rm_state) (currentTask : RTTask)
    : rm_state :=
  rm_select (rm_release currentCell st currentTask) currentTask.

(** One pass of the [while] body: [selectedTask = null], then the [for]. *)
Definition rm_cell (tasks : list RTTask) (currentCell : Z) (st : rm_state)
    : rm_state :=
  foldl (rm_task currentCell)
        (mkRM (unattendendTasks st) (executionCount st) (nextStart st)
              (scheduling st) (executionOrder st) None)
        tasks.

(** [while (unattendendTasks.length > 0) { ...; currentCell += 1 }]; the
    result is the state on exit with the final [currentCell], the number of
    cells simulated. *)
Fixpoint rm_loop (fuel : nat) (tasks : list RTTask) (st : rm_state)
    (currentCell : Z) : option (rm_state * Z) :=
  match fuel with
  | O => None
  | S fuel' =>
      if (0 <? length (unattendendTasks st))%nat
      then rm_loop fuel' tasks (rm_cell tasks currentCell st) (currentCell + 1)
      else Some (st, currentCell)
  end.

(** The simulation from its initial state, with [currentCell = 0]. *)
Definition rm_run (fuel : nat) (tasks : list RTTask) : option (rm_state * Z) :=
  rm_loop fuel tasks (rm_init tasks) 0.

(** [RTSystem.getRMScheduling()]: the [mapping] and the [order] of the
    [RTSchedulingResult] it builds. *)
Definition getRMScheduling (fuel : nat) (tasks : list RTTask)
    : option (gmap Z (list bool) * list Z) :=
  match rm_run fuel tasks with
  | Some (st, _) => Some (scheduling st, executionOrder st)
  | None => None
  end.

(** The number of [true] bits of an occupancy row. *)
Definition true_bits (r : list bool) : Z :=
  Z.of_nat (length (filter (fun b => b = true) r)).

(** ** Exceptions *)

(** What can be thrown: the [TypeError] of reading a property of [null] or
    [undefined], a string thrown by the program, and the [Error] that
    [math.min] raises on an empty array. *)
Inductive exn : Type :=
| TypeError
| Thrown (message : string)
| MathError.

(** ** Slack calculator *)

Module FloorRoofFunctionType.
Inductive t : Type := undefined | floor | ceiling.

Definition eqb (a b : t) : bool :=
  match a, b with
  | undefined, undefined | floor, floor | ceiling, ceiling => true
  | _, _ => false
  end.
End FloorRoofFunctionType.

(** The three functions that [mathFunction] can be bound to. *)
Inductive mathFunction : Type :=
| math_ceil
| math_floor
| identity.

Definition apply_mathFunction (f : mathFunction) (value : Q) : Q :=
  match f with
  | math_ceil => inject_Z (Qceiling value)
  | math_floor => inject_Z (Qfloor value)
  | identity => value
  end.

(** The [switch (functionType)] of [getTaskProportion]: the case labels are
    tried in the order they are written, and both labels are [ceiling]. *)
Definition select_mathFunction (functionType : FloorRoofFunctionType.t) : mathFunction :=
  if FloorRoofFunctionType.eqb functionType FloorRoofFunctionType.ceiling then math_ceil
  else if FloorRoofFunctionType.eqb functionType FloorRoofFunctionType.ceiling then math_floor
  else identity.

(** [RTSystem.getTaskProportion(task, nextExpiration, functionType)]. *)
Definition getTaskProportion (task : RTTask) (nextExpiration : Z)
    (functionType : FloorRoofFunctionType.t) : Q :=
  let mathFunction := select_mathFunction functionType in
  if 0 <? period task
  then (apply_mathFunction mathFunction (inject_Z nextExpiration / inject_Z (period task))
        * inject_Z (executionTime task))%Q
  else 0%Q.

(** [a < b] and [a <= b] on numbers that may be infinite or [NaN]. *)
Definition jltb (a b : jsnum) : bool :=
  match a, b with
  | NaN, _ | _, NaN => false
  | Fin x, Fin y => x <? y
  | _, NInf | PInf, _ => false
  | _, PInf | NInf, _ => true
  end.

Definition jleb (a b : jsnum) : bool :=
  match a, b with
  | NaN, _ | _, NaN => false
  | Fin x, Fin y => x <=? y
  | NInf, _ | _, PInf => true
  | _, NInf | PInf, _ => false
  end.

(** The [while (result < referenceCell) result += period] loop. *)
Fixpoint expiration_loop (fuel : nat) (referenceCell : jsnum) (period : Z)
    (result : Z) : option Z :=
  match fuel with
  | O => None
  | S fuel' =>
      if jltb (Fin result) referenceCell
      then expiration_loop fuel' referenceCell period (result + period)
      else Some result
  end.

(** [RTSystem.getNextExpiration(referenceCell, period)]. *)
Definition getNextExpiration (fuel : nat) (referenceCell : jsnum) (period : Z)
    : option Z :=
  expiration_loop fuel referenceCell period period.

(** The [for] loop of [getSlackExpirations] over [this.tasks]. *)
Fixpoint expirations_loop (fuel : nat) (tasks : list RTTask) (lowerLimit : jsnum)
    (nextExpiration : Z) (results : list Z) : option (list Z) :=
  match tasks with
  | [] => Some results
  | task :: rest =>
      match getNextExpiration fuel lowerLimit (period task) with
      | None => None
      | Some taskNextExpiration =>
          expirations_loop fuel rest lowerLimit nextExpiration
            (if jleb lowerLimit (Fin taskNextExpiration)
                && (taskNextExpiration <=? nextExpiration)
             then results ++ [taskNextExpiration] else results)
      end
  end.

(** [RTSystem.getSlackExpirations(nextExpiration, responseCell,
    taskExecutionTime)]; [nextExpiration - responseCell] is
    [nextExpiration + (-1) * responseCell]. *)
Definition getSlackExpirations (fuel : nat) (tasks : list RTTask)
    (nextExpiration : Z) (responseCell : jsnum) (taskExecutionTime : Z)
    : option (list Z) :=
  let lowerLimit :=
    jadd (jadd (Fin nextExpiration) (jmul responseCell (-1))) (Fin taskExecutionTime) in
  expirations_loop fuel tasks lowerLimit nextExpiration [].

(** [RTSystem.calculateF(task)] *)
Definition calculateF (task : RTTask) : Z := 0.

(** The inner [for (let k = 0; k <= taskIndex; k++)] loop of
    [calculateTaskSlack]: [n] passes over [this.tasks[k ..]]; reading the
    period of a task past the end of the array is a [TypeError]. *)
Fixpoint demand_loop (tasks : list RTTask) (n : nat) (intervalExpiration : Z)
    (partialSum : Q) : exn + Q :=
  match n with
  | O => inr partialSum
  | S n' =>
      match tasks with
      | [] => inl TypeError
      | task :: rest =>
          demand_loop rest n' intervalExpiration
            (partialSum
             + getTaskProportion task intervalExpiration FloorRoofFunctionType.ceiling)%Q
      end
  end.

(** The outer [for] loop of [calculateTaskSlack] over the interval
    expirations, which pushes [nextExpiration - F - partialSum]. *)
Fixpoint slacks_loop (tasks : list RTTask) (taskIndex : nat) (nextExpiration F : Z)
    (intervalExpirations : list Z) (partialSlacks : list Q) : exn + list Q :=
  match intervalExpirations with
  | [] => inr partialSlacks
  | intervalExpiration :: rest =>
      match demand_loop tasks (S taskIndex) intervalExpiration 0%Q with
      | inl e => inl e
      | inr partialSum =>
          slacks_loop tasks taskIndex nextExpiration F rest
            (partialSlacks ++ [(inject_Z nextExpiration - inject_Z F - partialSum)%Q])
      end
  end.

(** [math.min(array)]: the least element, an [Error] on an empty array. *)
Definition math_min (l : list Q) : exn + Q :=
  match l with
  | [] => inl MathError
  | x :: rest => inr (fold_left (fun m y => if Qle_bool y m then y else m) rest x)
  end.

(** [RTSystem.calculateTaskSlack(task, responseTime, taskIndex)]: [None]
    when the fuel of a [getNextExpiration] loop runs out, otherwise the
    exception thrown or the slack returned. *)
Definition calculateTaskSlack (fuel : nat) (tasks : list RTTask) (task : RTTask)
    (responseTime : jsnum) (taskIndex : nat) : option (exn + Q) :=
  let F := if jleb responseTime (Fin (period task)) then 0 else calculateF task in
  match getSlackExpirations fuel tasks (period task) responseTime (executionTime task) with
  | None => None
  | Some intervalExpirations =>
      let nextExpiration := period task in
      Some
        match slacks_loop tasks taskIndex nextExpiration F intervalExpirations [] with
        | inl e => inl e
        | inr partialSlacks =>
            match math_min partialSlacks with
            | inl e => inl e
            | inr slack => inr (if Qeq_bool slack (-1) then 0%Q else slack)
            end
        end
  end.

(** ** Rounding and utilization *)

(** [math.round(q, decimals)] on the non-negative values the program
    rounds: the nearest multiple of [10^-decimals], halves rounded up. *)
Definition math_round (q : Q) (decimals : nat) : Q :=
  (inject_Z (Qfloor (q * inject_Z (10 ^ Z.of_nat decimals) + (1 # 2)))
   / inject_Z (10 ^ Z.of_nat decimals))%Q.

(** [math.sum(array)] *)
Definition math_sum (l : list Q) : Q := fold_left Qplus l 0%Q.

(** The utilization the [RTTask] constructor stores in [fu]:
    [math.round(period > 0 ? executionTime / period : 0, defaultDecimals)]. *)
Definition task_fu (defaultDecimals : nat) (c t : Z) : Q :=
  math_round (if 0 <? t then (inject_Z c / inject_Z t)%Q else 0%Q) defaultDecimals.

(** [RTSystem.getFU()] *)
Definition getFU (defaultDecimals : nat) (tasks : list RTTask) : Q :=
  math_round (math_sum (map fu tasks)) defaultDecimals.

(** [RTSystem.getHyperperiod()]: [math.lcm] of the periods, for a system of
    two tasks or more ([math.lcm] takes at least two arguments). *)
Definition getHyperperiod (tasks : list RTTask) : Z :=
  fold_right (fun t acc => Z.lcm (period t) acc) 1 tasks.

(** [RTSystem.getN()] *)
Definition getN (tasks : list RTTask) : nat := length tasks.

(** [math.round(x, decimals)] on a non-negative real. *)
Definition math_round_R (x : R) (decimals : nat) : R :=
  (IZR (Int_part (x * 10 ^ decimals + / 2)) / 10 ^ decimals)%R.

(** The Liu and Layland bound [n * (2^(1/n) - 1)]. *)
Definition liuBound (n : nat) : R :=
  (INR n * (Rpower 2 (1 / INR n) - 1))%R.

(** [RTSystem.getLiu()]: the bound rounded to 2 decimals.  For a system
    without tasks the source computes [0 * (2^Infinity - 1)], which is
    [NaN]; the real number below stands for the value only when there is a
    task. *)
Definition getLiu (tasks : list RTTask) : R :=
  let n := getN tasks in
  math_round_R (liuBound n) 2.

(** [RTSystem.isValidForLiu()]: [this.getFU() <= this.getLiu()]. *)
Definition isValidForLiu (defaultDecimals : nat) (tasks : list RTTask) : Prop :=
  (Q2R (getFU defaultDecimals tasks) <= getLiu tasks)%R.

(** ** Parser *)

Local Open Scope string_scope.

(** [\d]: an ASCII digit. *)
Definition is_digit (c : ascii) : bool :=
  (48 <=? nat_of_ascii c)%nat && (nat_of_ascii c <=? 57)%nat.

(** The longest prefix of digits of a string, and what follows it. *)
Fixpoint span_digits (s : string) : string * string :=
  match s with
  | String c rest =>
      if is_digit c
      then let '(ds, after) := span_digits rest in (String c ds, after)
      else (EmptyString, s)
  | EmptyString => (EmptyString, EmptyString)
  end.

(** [(\d+)]: a non-empty run of digits.  The run is followed in the pattern
    by [,] or [)], so only the longest run can lead to a match. *)
Definition group_digits (s : string) : option (string * string) :=
  match span_digits s with
  | (EmptyString, _) => None
  | (ds, after) => Some (ds, after)
  end.

(** A literal character of the pattern. *)
Definition literal (c : ascii) (s : string) : option string :=
  match s with
  | String c' rest => if Ascii.eqb c c' then Some rest else None
  | EmptyString => None
  end.

(** The pattern [\((\d+),(\d+),(\d+)\)] matched at the start of [s]: the
    three captured groups. *)
Definition match_here (s : string) : option (string * string * string) :=
  match literal "(" s with
  | None => None
  | Some s1 =>
  match group_digits s1 with
  | None => None
  | Some (c, s2) =>
  match literal "," s2 with
  | None => None
  | Some s3 =>
  match group_digits s3 with
  | None => None
  | Some (t, s4) =>
  match literal "," s4 with
  | None => None
  | Some s5 =>
  match group_digits s5 with
  | None => None
  | Some (d, s6) =>
  match literal ")" s6 with
  | None => None
  | Some _ => Some (c, t, d)
  end end end end end end end.

(** [/\((\d+),(\d+),(\d+)\)/.exec(task)]: the pattern is not anchored, so
    the match is searched from every position, leftmost first; the result
    is [null] ([None]) or the array of the whole match and the three
    groups. *)
Fixpoint regex_exec (task : string) : option (list string) :=
  match match_here task with
  | Some (c, t, d) => Some ["(" ++ c ++ "," ++ t ++ "," ++ d ++ ")"; c; t; d]
  | None =>
      match task with
      | String _ rest => regex_exec rest
      | EmptyString => None
      end
  end.

(** [parseFloat] on a run of digits: its decimal value, which is what the
    double read holds up to [Number.MAX_SAFE_INTEGER]. *)
Definition parseFloat (s : string) : Z :=
  fold_left (fun acc c => 10 * acc + (Z.of_nat (nat_of_ascii c) - 48))
            (list_ascii_of_string s) 0.

(** [new RTTask(id, c, t, d)]; rounding an integer to [defaultDecimals]
    decimals leaves it unchanged. *)
Definition new_RTTask (defaultDecimals : nat) (id : Z) (c t d : string) : RTTask :=
  let executionTime := parseFloat c in
  let period := parseFloat t in
  mkRTTask id executionTime period (parseFloat d)
           (task_fu defaultDecimals executionTime period).

(** [AppTools.parseTask(id, task)]: reading [length] of a [null] match is a
    [TypeError]. *)
Definition parseTask (defaultDecimals : nat) (id : Z) (task : string) : exn + RTTask :=
  match regex_exec task with
  | None => inl TypeError
  | Some parsedTask =>
      if negb (length parsedTask =? 4)%nat
      then inl (Thrown "Invalid system, can't parse")
      else inr (new_RTTask defaultDecimals id
                  (nth 1 parsedTask "") (nth 2 parsedTask "") (nth 3 parsedTask ""))
  end.

(** The variables of [parseSystemTasks] that its loop updates. *)
Record parse_state : Type := mkParse {
  charStack : list ascii;
  currentTask : string;
  tasks : list RTTask;
  taskId : Z
}.

(** The [for] loop of [parseSystemTasks] with its [switch]. *)
Fixpoint parse_loop (defaultDecimals : nat) (system : string) (st : parse_state)
    : exn + parse_state :=
  match system with
  | EmptyString => inr st
  | String currentChar rest =>
      if Ascii.eqb currentChar " " then
        parse_loop defaultDecimals rest st
      else if Ascii.eqb currentChar "(" then
        parse_loop defaultDecimals rest
          (mkParse (charStack st ++ [currentChar])%list
                   (currentTask st ++ String currentChar EmptyString)
                   (tasks st) (taskId st))
      else if Ascii.eqb currentChar ")" then
        parse_loop defaultDecimals rest
          (mkParse (removelast (charStack st))
                   (currentTask st ++ String currentChar EmptyString)
                   (tasks st) (taskId st))
      else if Ascii.eqb currentChar "," then
        if (0 <? length (charStack st))%nat then
          parse_loop defaultDecimals rest
            (mkParse (charStack st)
                     (currentTask st ++ String currentChar EmptyString)
                     (tasks st) (taskId st))
        else
          match parseTask defaultDecimals (taskId st) (currentTask st) with
          | inl e => inl e
          | inr task =>
              parse_loop defaultDecimals rest
                (mkParse (charStack st) EmptyString (tasks st ++ [task])%list (taskId st + 1))
          end
      else
        parse_loop defaultDecimals rest
          (mkParse (charStack st)
                   (currentTask st ++ String currentChar EmptyString)
                   (tasks st) (taskId st))
  end.

(** [AppTools.parseSystemTasks(system)], which is all that the [RTSystem]
    constructor does with its text. *)
Definition parseSystemTasks (defaultDecimals : nat) (system : string)
    : exn + list RTTask :=
  match parse_loop defaultDecimals system (mkParse [] EmptyString [] 1) with
  | inl e => inl e
  | inr st =>
      if (0 <? length (charStack st))%nat then inl (Thrown "Parsing failed")
      else if (0 <? String.length (currentTask st))%nat then
        match parseTask defaultDecimals (taskId st) (currentTask st) with
        | inl e => inl e
        | inr task => inr (tasks st ++ [task])%list
        end
      else inr (tasks st)
  end.

Local Close Scope string_scope.

(** ** Notions used to state the properties *)

(** The sequence [t(0) = seed], [t(k+1) = C_i + sum_{j<i} ceil(t(k)/T_j) C_j]
    of the response-time recurrence of the task at index [taskIndex]. *)
Definition response_iterate (tasks : list RTTask) (task : RTTask) (taskIndex : nat)
    (seed : jsnum) (k : nat) : jsnum :=
  Nat.iter k (response_step tasks task taskIndex) seed.

(** The sequence [m(0) = seed], [m(k+1) = 1 + sum_j ceil(m(k)/T_j) C_j]. *)
Definition slot_iterate (tasks : list RTTask) (seed : jsnum) (k : nat) : jsnum :=
  Nat.iter k (slot_step tasks) seed.




(** Tasks as the parser builds them: non-negative integers. *)
Definition wf_task (t : RTTask) : Prop :=
  0 <= executionTime t /\ 0 <= period t.

(** [sum_j ceil(x / T_j) * C_j] over a list of tasks, for an integer [x]. *)
Definition demand_sum (x : Z) (l : list RTTask) : Z :=
  fold_right (fun t acc => Zceil_div x (period t) * executionTime t + acc) 0 l.


(** What [getTaskProportion] would return with [math.floor] applied. *)
Definition floor_proportion (task : RTTask) (nextExpiration : Z) : Q :=
  (inject_Z (Qfloor (inject_Z nextExpiration / inject_Z (period task)))
   * inject_Z (executionTime task))%Q.

Local Open Scope string_scope.

(** The scan of the system text as the specification words it: a
    parenthesis-depth counter, commas at depth 0 as separators, spaces
    dropped.  The result is the list of chunks closed by a separator, the
    depth at the end of the text and the chunk left open there. *)
Fixpoint scan (system : string) (depth : nat) (current : string)
    : list string * nat * string :=
  match system with
  | EmptyString => ([], depth, current)
  | String c rest =>
      if Ascii.eqb c " " then scan rest depth current
      else if Ascii.eqb c "(" then scan rest (S depth) (current ++ String c EmptyString)
      else if Ascii.eqb c ")" then scan rest (pred depth) (current ++ String c EmptyString)
      else if Ascii.eqb c "," then
        if (0 <? depth)%nat then scan rest depth (current ++ String c EmptyString)
        else let '(chunks, depth', last) := scan rest depth EmptyString in
             (current :: chunks, depth', last)
      else scan rest depth (current ++ String c EmptyString)
  end.

(** The chunks of a system text that stand for a task each. *)
Definition chunks (system : string) : list string :=
  let '(closed, _, last) := scan system 0 EmptyString in
  (closed ++ if (0 <? String.length last)%nat then [last] else [])%list.

(** The number of opening parentheses left unclosed at the end. *)
Definition unclosed (system : string) : nat :=
  let '(_, depth, _) := scan system 0 EmptyString in depth.

(** A chunk that is exactly a triple [(<int>,<int>,<int>)]. *)
Definition is_triple (chunk : string) : bool :=
  match match_here chunk with
  | Some (c, t, d) => String.eqb chunk ("(" ++ c ++ "," ++ t ++ "," ++ d ++ ")")
  | None => false
  end.

Local Close Scope string_scope.

(** The number of occurrences of a character in a text. *)
Fixpoint count_char (c : ascii) (s : string) : nat :=
  match s with
  | EmptyString => 0
  | String c' rest => ((if Ascii.eqb c c' then 1 else 0) + count_char c rest)%nat
  end.

(** The arithmetic sum of the utilizations [C / T] (0 for a period 0). *)
Definition exact_utilization (tasks : list RTTask) : Q :=
  fold_right
    (fun t acc =>
       ((if 0 <? period t then inject_Z (executionTime t) / inject_Z (period t) else 0)
        + acc)%Q)
    0%Q tasks.

(** A task whose [fu] is the one its constructor computes. *)
Definition constructed (defaultDecimals : nat) (t : RTTask) : Prop :=
  fu t = task_fu defaultDecimals (executionTime t) (period t).

(** The unit of the fixed precision, [10^decimals], as a rational. *)
Definition scale (decimals : nat) : Q := inject_Z (10 ^ Z.of_nat decimals).

(** A task still to be attended in a state of the simulation. *)
Definition pending (st : rm_state) (t : RTTask) : bool :=
  contains (unattendendTasks st) (id t).

(** What the simulation keeps for one task: the number of [true] bits of
    its row [b], its execution count [k] and its next start [n] are tied to
    its execution time [C] and period [T] as follows, with [C' = max C 1]
    the number of cells a released instance takes. *)
Definition task_inv (st : rm_state) (t : RTTask) : Prop :=
  let b := true_bits (row (scheduling st) (id t)) in
  let k := counter (executionCount st) (id t) in
  let n := counter (nextStart st) (id t) in
  let C' := Z.max (executionTime t) 1 in
  if pending st t
  then 0 <= k < C' /\ k <= b /\ b * period t <= C' * (n - period t) + k * period t
  else C' <= b /\ b * period t <= C' * n.

(** The next start of a task at the boundary before cell [cell]: a multiple
    of the period, not before the cell and less than a period after it
    (the period itself before cell 0). *)
Definition release_inv (cell : Z) (st : rm_state) (t : RTTask) : Prop :=
  exists r, counter (nextStart st) (id t) = r * period t
            /\ cell <= r * period t <= Z.max cell 1 + period t - 1.

(** Where the [for] loop of a cell stands after the tasks [pre], from the
    state [st0] the cell started in: the rows of the tasks met have one bit
    more, the bit of the selected task being the [true] one, and while no
    task is selected none of the tasks met is pending. *)
Definition cell_shape (ids : list Z) (st0 : rm_state) (pre : list RTTask)
    (st : rm_state) : Prop :=
  (forall u, u ∈ unattendendTasks st -> u ∈ ids)
  /\ (forall i, i ∉ map id pre -> row (scheduling st) i = row (scheduling st0) i)
  /\ match selectedTask st with
     | None =>
         executionOrder st = executionOrder st0
         /\ unattendendTasks st <> []
         /\ forall t, t ∈ pre ->
              row (scheduling st) (id t) = row (scheduling st0) (id t) ++ [false]
              /\ (id t ∉ unattendendTasks st)
     | Some s =>
         s ∈ pre
         /\ executionOrder st = executionOrder st0 ++ [id s]
         /\ forall t, t ∈ pre ->
              row (scheduling st) (id t)
              = row (scheduling st0) (id t) ++ [bool_decide (id t = id s)]
     end.

(** What holds of the result at every cell boundary: as many cells as
    entries of the execution order, every row as long as the order, and a
    bit of a row [true] exactly where the order has the id of its task. *)
Definition shape_inv (tasks : list RTTask) (st : rm_state) (cell : Z) : Prop :=
  cell = Z.of_nat (length (executionOrder st))
  /\ (forall u, u ∈ unattendendTasks st -> u ∈ map id tasks)
  /\ (forall c u, executionOrder st !! c = Some u -> u ∈ map id tasks)
  /\ forall t, t ∈ tasks ->
       length (row (scheduling st) (id t)) = length (executionOrder st)
       /\ forall c : nat, row (scheduling st) (id t) !! c = Some true
                    <-> executionOrder st !! c = Some (id t).

(** A string of ASCII digits. *)
Definition all_digits (s : string) : Prop :=
  Forall (fun c => is_digit c = true) (list_ascii_of_string s).

(** A task with a non-negative execution time and a positive period. *)
Definition positive_task (t : RTTask) : Prop :=
  0 <= executionTime t /\ 0 < period t.
Local Open Scope string_scope.

(** A system text without its spaces. *)
Fixpoint remove_spaces (system : string) : string :=
  match system with
  | EmptyString => EmptyString
  | String c rest =>
      if Ascii.eqb c " " then remove_spaces rest else String c (remove_spaces rest)
  end.

(** The text [(c,t,d)] of a triple of strings. *)
Definition triple_text (x : string * string * string) : string :=
  let '(c, t, d) := x in "(" ++ c ++ "," ++ t ++ "," ++ d ++ ")".

(** The texts of the triples, separated by commas. *)
Fixpoint system_text (l : list (string * string * string)) : string :=
  match l with
  | [] => EmptyString
  | x :: rest =>
      match rest with
      | [] => triple_text x
      | _ :: _ => triple_text x ++ "," ++ system_text rest
      end
  end.

(** The tasks that the constructor builds from the triples, numbered from
    [id] on. *)
Fixpoint tasks_of_triples (defaultDecimals : nat) (id : Z)
    (l : list (string * string * string)) : list RTTask :=
  match l with
  | [] => []
  | (c, t, d) :: rest =>
      new_RTTask defaultDecimals id c t d :: tasks_of_triples defaultDecimals (id + 1) rest
  end.

(** A non-empty run of digits, what [\d+] matches in full. *)
Definition digits (s : string) : Prop := all_digits s /\ s <> EmptyString.




Local Close Scope string_scope.
(** [math.prod(array)]: the product of the elements, an [Error] on an empty
    array. *)
Definition math_prod (l : list Q) : exn + Q :=
  match l with
  | [] => inl MathError
  | x :: rest => inr (fold_left Qmult rest x)
  end.

(** [RTSystem.getBini()]: the hyperbolic product
    [math.round(math.prod(_.map(this.tasks, o => o.fu + 1)), 2)]. *)
Definition getBini (tasks : list RTTask) : exn + Q :=
  match math_prod (map (fun o => (fu o + 1)%Q) tasks) with
  | inl e => inl e
  | inr product => inr (math_round product 2)
  end.

(** [RTSystem.isValidForBini()]: [this.getBini() <= 2]. *)
Definition isValidForBini (tasks : list RTTask) : exn + bool :=
  match getBini tasks with
  | inl e => inl e
  | inr bini => inr (Qle_bool bini 2)
  end.

(** The product of the factors [fu + 1] of the tasks. *)
Definition hyperbolic_product (tasks : list RTTask) : Q :=
  fold_right (fun t acc => ((fu t + 1) * acc)%Q) 1%Q tasks.
(** A task that executes: an execution time of 1 at least and a positive
    period. *)
Definition executing_task (t : RTTask) : Prop :=
  1 <= executionTime t /\ 0 < period t.
(** A task that the [for] loop of a cell finds to attend: pending when the
    cell starts, or released at the cell. *)
Definition ready (currentCell : Z) (st : rm_state) (t : RTTask) : bool :=
  pending st t || (currentCell =? counter (nextStart st) (id t)).

(** What the simulation keeps for a task whose execution time exceeds its
    period, at the boundary before cell [cell]: the task is pending, and
    its execution count cannot reach the period before the next start. *)
Definition overrun_inv (cell : Z) (st : rm_state) (t : RTTask) : Prop :=
  pending st t = true
  /\ 0 <= counter (executionCount st) (id t)
  /\ cell <= counter (nextStart st) (id t)
  /\ counter (executionCount st) (id t) + (counter (nextStart st) (id t) - cell)
     <= period t.
(** ** The legacy response-time solver *)

(** The [do { ... } while (previousResult != currentResult)] loop of the
    legacy [getTaskTiming]: it has no cap, so it takes fuel. *)
Fixpoint legacy_response_loop (fuel : nat) (tasks : list RTTask)
    (currentTask : RTTask) (i : nat) (currentResult : jsnum) : option jsnum :=
  match fuel with
  | O => None
  | S fuel' =>
      let previousResult := currentResult in
      let currentResult := response_step tasks currentTask i previousResult in
      if negb (jeqb previousResult currentResult)
      then legacy_response_loop fuel' tasks currentTask i currentResult
      else Some currentResult
  end.

(** The [for (var i = 1; i < this.tasks.length; i++)] loop of the legacy
    [getTaskTiming]; [rest] is [this.tasks[i ..]] and [seed] is
    [this.responseTimes[i - 1]], the value pushed last. *)
Fixpoint legacy_timing_loop (fuel : nat) (tasks rest : list RTTask) (i : nat)
    (seed : jsnum) (responseTimes : list jsnum) : option (list jsnum) :=
  match rest with
  | [] => Some responseTimes
  | currentTask :: rest' =>
      match legacy_response_loop fuel tasks currentTask i seed with
      | None => None
      | Some currentResult =>
          legacy_timing_loop fuel tasks rest' (S i) currentResult
            (responseTimes ++ [currentResult])
      end
  end.

(** The legacy [RTSystem.getTaskTiming()], on its first call: reading
    [this.tasks[0].getExecutionTime()] on a system without tasks is a
    [TypeError]. *)
Definition legacy_getTaskTiming (fuel : nat) (tasks : list RTTask)
    : option (exn + list jsnum) :=
  match tasks with
  | [] => Some (inl TypeError)
  | first :: rest =>
      match legacy_timing_loop fuel tasks rest 1 (Fin (executionTime first))
              [Fin (executionTime first)] with
      | None => None
      | Some responseTimes => Some (inr responseTimes)
      end
  end.

(** [Number.MAX_SAFE_INTEGER], [2^53 - 1]: up to it every integer is a
    double, and the sums, products and quotients of such integers that stay
    below it are computed exactly. *)
Definition max_safe_integer : Z := 2 ^ 53 - 1.

(** A number that is an integer from 0 to [Number.MAX_SAFE_INTEGER]. *)
Definition safe_integer (v : jsnum) : Prop :=
  exists x, v = Fin x /\ 0 <= x <= max_safe_integer.

(** A task whose execution time and period do not exceed
    [Number.MAX_SAFE_INTEGER]. *)
Definition safe_task (t : RTTask) : Prop :=
  executionTime t <= max_safe_integer /\ period t <= max_safe_integer.

(** A task released at a cell while it is still pending: the instance at
    hand is cut by the next one, and its execution count starts again. *)
Definition cut (cell : Z) (st : rm_state) (t : RTTask) : bool :=
  pending st t && (cell =? counter (nextStart st) (id t)).

(** No instance of a task is cut in the cells that the [while] loop
    simulates from a state on. *)
Fixpoint never_cut (fuel : nat) (tasks : list RTTask) (t : RTTask) (st : rm_state)
    (currentCell : Z) : bool :=
  match fuel with
  | O => true
  | S fuel' =>
      if (0 <? length (unattendendTasks st))%nat
      then negb (cut currentCell st t)
           && never_cut fuel' tasks t (rm_cell tasks currentCell st) (currentCell + 1)
      else true
  end.

(** What the simulation keeps for a task none of whose instances is cut:
    the inequalities of [task_inv] are equalities. *)
Definition exact_inv (st : rm_state) (t : RTTask) : Prop :=
  let b := true_bits (row (scheduling st) (id t)) in
  let k := counter (executionCount st) (id t) in
  let n := counter (nextStart st) (id t) in
  let C' := Z.max (executionTime t) 1 in
  if pending st t
  then 0 <= k < C' /\ b * period t = C' * (n - period t) + k * period t
  else b * period t = C' * n.

(** * Properties *)

(** ** Response-time solver *)

Lemma jeqb_eq (a b : jsnum) : jeqb a b = true -> a = b.
Proof.
  destruct a, b; simpl; try discriminate; auto.
  intros H. apply Z.eqb_eq in H. now subst.
Qed.

Lemma response_iterate_shift tasks task taskIndex seed k :
  response_iterate tasks task taskIndex (response_step tasks task taskIndex seed) k
  = response_iterate tasks task taskIndex seed (S k).
Proof. unfold response_iterate. now rewrite <- Nat.iter_succ_r. Qed.


(** Without such a pass the loop leaves after [maxIterations] passes. *)
Lemma response_loop_exhaust tasks task taskIndex :
  forall passes seed count,
    (count + passes = maxIterations - 1)%nat ->
    (forall j, (j < passes)%nat ->
       jeqb (response_iterate tasks task taskIndex seed j)
            (response_iterate tasks task taskIndex seed (S j)) = false) ->
    snd (response_loop passes tasks task taskIndex seed count) = maxIterations.
Proof.
  induction passes as [|passes IH]; intros seed count Hc Hno.
  - simpl. unfold maxIterations in *. lia.
  - pose proof (Hno 0%nat ltac:(lia)) as H0.
    unfold response_iterate in H0. simpl in H0.
    cbn [response_loop]. rewrite H0. cbn [negb andb].
    replace (S count <? maxIterations)%nat with true
      by (symmetry; apply Nat.ltb_lt; unfold maxIterations in *; lia).
    apply IH; [lia|].
    intros j Hj. rewrite !response_iterate_shift. apply Hno. lia.
Qed.


(** A fixed point first seen on pass 50, or not seen at all, gives [-1]. *)
Lemma response_from_seed_sentinel tasks task taskIndex seed :
  (forall j, (j < maxIterations - 1)%nat ->
     jeqb (response_iterate tasks task taskIndex seed j)
          (response_iterate tasks task taskIndex seed (S j)) = false) ->
  response_from_seed tasks task taskIndex seed = Fin (-1).
Proof.
  intros Hno. unfold response_from_seed.
  pose proof (response_loop_exhaust tasks task taskIndex _ seed 0%nat eq_refl Hno) as H.
  destruct (response_loop _ _ _ _ _ _) as [iteration iterationCount].
  simpl in H. subst. reflexivity.
Qed.

(** A bounded universal statement checked by running through the indices. *)
Lemma forall_below (P : nat -> bool) (n : nat) :
  forallb P (seq 0 n) = true -> forall j, (j < n)%nat -> P j = true.
Proof.
  intros H j Hj. rewrite forallb_forall in H. apply H.
  apply in_seq. lia.
Qed.

(** C1 (the defect at the cap).  On the system
    [(99,100,100),(50,10000,10000)] the recurrence of the second task,
    seeded at [99 + 50], first repeats a value on pass 50: pass 49 computes
    5000, pass 50 computes 5000 again and sets [finish].  The loop leaves
    with [iterationCount = 50], and [iterationCount < 50 ? iteration : -1]
    reports the sentinel [-1] although the fixed point 5000 was reached
    within the 50 passes allowed. *)
Theorem C1_fixed_point_on_pass_50_reported_as_sentinel :
  forall defaultDecimals : nat,
  exists first task : RTTask,
    parseSystemTasks defaultDecimals "(99,100,100),(50,10000,10000)"
    = inr [first; task] /\
    let tasks := [first; task] in
    let t := response_iterate tasks task 1
               (jadd (Fin (executionTime first)) (Fin (executionTime task))) in
    (forall j, (j < 49)%nat -> jeqb (t j) (t (S j)) = false) /\
    t 49%nat = Fin 5000 /\
    jeqb (t 49%nat) (t 50%nat) = true /\
    response_step tasks task 1 (Fin 5000) = Fin 5000 /\
    getTaskTiming tasks = [Fin 99; Fin (-1)].
Proof.
  intros d.
  exists (new_RTTask d 1 "99" "100" "100"), (new_RTTask d 2 "50" "10000" "10000").
  split; [reflexivity|].
  cbv zeta.
  split.
  { intros j Hj.
    apply (forall_below
             (fun j => negb (jeqb
                (response_iterate
                   [new_RTTask d 1 "99" "100" "100"; new_RTTask d 2 "50" "10000" "10000"]
                   (new_RTTask d 2 "50" "10000" "10000") 1 (Fin 149) j)
                (response_iterate
                   [new_RTTask d 1 "99" "100" "100"; new_RTTask d 2 "50" "10000" "10000"]
                   (new_RTTask d 2 "50" "10000" "10000") 1 (Fin 149) (S j)))) 49%nat)
      in Hj; [now apply negb_true_iff in Hj | vm_compute; reflexivity]. }
  repeat split; vm_compute; reflexivity.
Qed.

(** The [for] loop of [getTaskTiming] extends [result] by one response time
    per remaining task, each computed from the one pushed just before. *)
Lemma timing_loop_spec tasks :
  forall rest t previous result,
    length result = t ->
    (1 <= t)%nat ->
    result !! (t - 1)%nat = Some previous ->
    let out := timing_loop tasks rest t previous result in
    length out = (t + length rest)%nat
    /\ (forall j, (j < t)%nat -> out !! j = result !! j)
    /\ (forall j task p,
          rest !! j = Some task ->
          out !! (t + j - 1)%nat = Some p ->
          out !! (t + j)%nat = Some (getTaskResponse tasks task p (t + j))).
Proof.
  induction rest as [|task rest IH]; intros t previous result Hlen Ht Hprev; cbn zeta.
  - simpl. split; [lia|]. split; [auto|]. intros j task p H. destruct j; discriminate.
  - cbn [timing_loop].
    set (r := getTaskResponse tasks task previous t).
    destruct (IH (S t) r (result ++ [r])) as (IHlen & IHold & IHnew).
    { rewrite length_app. simpl. lia. }
    { lia. }
    { replace (S t - 1)%nat with (length result + 0)%nat by lia.
      now rewrite lookup_app_r, Nat.add_comm, Nat.add_sub by lia. }
    split; [simpl; lia|].
    split.
    + intros j Hj. rewrite IHold by lia. apply lookup_app_l. lia.
    + intros j task' p Hj Hp. destruct j as [|j].
      * simpl in Hj. injection Hj as <-.
        rewrite Nat.add_0_r in *.
        rewrite IHold in Hp by lia. rewrite lookup_app_l in Hp by lia.
        assert (p = previous) by congruence. subst p.
        rewrite IHold by lia.
        replace t with (length result + 0)%nat at 1 by lia.
        now rewrite lookup_app_r, Nat.add_comm, Nat.add_sub by lia.
      * simpl in Hj.
        replace (t + S j)%nat with (S t + j)%nat by lia.
        apply IHnew; [assumption|].
        replace (S t + j - 1)%nat with (t + S j - 1)%nat by lia. assumption.
Qed.

(** The response times as a chain: one per task, the first the execution
    time of the first task, each later one computed from the one before. *)
Lemma getTaskTiming_chain (tasks : list RTTask) :
  length (getTaskTiming tasks) = length tasks
  /\ (forall first, tasks !! 0%nat = Some first ->
        getTaskTiming tasks !! 0%nat = Some (Fin (executionTime first)))
  /\ (forall i task previous,
        tasks !! S i = Some task ->
        getTaskTiming tasks !! i = Some previous ->
        getTaskTiming tasks !! S i
        = Some (response_from_seed tasks task (S i)
                  (jadd previous (Fin (executionTime task))))).
Proof.
  destruct tasks as [|first rest].
  - split; [reflexivity|]. split; intros; discriminate.
  - unfold getTaskTiming.
    destruct (timing_loop_spec (first :: rest) rest 1 (Fin (executionTime first))
                [Fin (executionTime first)] eq_refl (le_n 1) eq_refl)
      as (Hlen & Hold & Hnew).
    cbv zeta in *.
    split; [simpl; lia|]. split.
    + intros first' H. injection H as <-. apply (Hold 0%nat). lia.
    + intros i task previous Hi Hp.
      change (S i) with (1 + i)%nat at 1.
      rewrite (Hnew i task previous Hi).
      * unfold getTaskResponse. do 2 f_equal.
        apply Nat.mod_small. apply lookup_lt_Some in Hi. simpl in *. lia.
      * simpl. now rewrite Nat.sub_0_r.
Qed.

(** C2.  [getTaskTiming] gives one response time per task; the first is the
    first task's execution time, and the response time of every later task
    is what the bounded fixed-point loop returns when it is seeded with the
    response time computed for the task before it plus the task's own
    execution time. *)
Theorem C2_getTaskTiming_seed_chain (tasks : list RTTask) :
  length (getTaskTiming tasks) = length tasks
  /\ (forall first, tasks !! 0%nat = Some first ->
        getTaskTiming tasks !! 0%nat = Some (Fin (executionTime first)))
  /\ (forall i task previous,
        tasks !! S i = Some task ->
        getTaskTiming tasks !! i = Some previous ->
        getTaskTiming tasks !! S i
        = Some (response_from_seed tasks task (S i)
                  (jadd previous (Fin (executionTime task))))).
Proof. exact (getTaskTiming_chain tasks). Qed.

(** C2 at the system of the input box: the fifth task is seeded with
    [4 + 2]. *)
Lemma C2_getTaskTiming_seed_chain_witness :
  let tasks := [mkRTTask 1 1 5 5 0; mkRTTask 2 1 7 7 0; mkRTTask 3 1 12 12 0;
                mkRTTask 4 1 14 14 0; mkRTTask 5 2 25 25 0] in
  getTaskTiming tasks !! 4%nat
  = Some (response_from_seed tasks (mkRTTask 5 2 25 25 0) 4 (jadd (Fin 4) (Fin 2))).
Proof.
  intros tasks.
  apply (proj2 (proj2 (C2_getTaskTiming_seed_chain tasks)) 3%nat
           (mkRTTask 5 2 25 25 0) (Fin 4)); reflexivity.
Defined.

(** ** First-free-slot solver *)

(** [Zceil_div] is the ceiling of the quotient by a positive divisor. *)
Lemma Zceil_div_spec (a b : Z) :
  0 < b -> b * (Zceil_div a b - 1) < a <= b * Zceil_div a b.
Proof.
  intros Hb. unfold Zceil_div.
  pose proof (Z.div_mod (- a) b ltac:(lia)).
  pose proof (Z.mod_pos_bound (- a) b Hb).
  nia.
Qed.

(** With positive periods the inner loop stays in the integers and adds
    the term of every task of the list it runs over. *)
Lemma interference_demand_sum (x : Z) :
  forall (l : list RTTask) (a : Z),
    Forall (fun t => 0 < period t) l ->
    interference (Fin x) l (Fin a) = Fin (a + demand_sum x l).
Proof.
  induction l as [|t l IH]; intros a Hpos; simpl.
  - f_equal. lia.
  - inversion Hpos as [|? ? Ht Hl]; subst.
    replace (period t =? 0) with false by (symmetry; apply Z.eqb_neq; lia).
    simpl. rewrite IH by assumption. f_equal. lia.
Qed.

Lemma slot_iterate_shift tasks seed k :
  slot_iterate tasks (slot_step tasks seed) k = slot_iterate tasks seed (S k).
Proof. unfold slot_iterate. now rewrite <- Nat.iter_succ_r. Qed.

(** The unbounded loop returns the first value of the sequence that the
    recurrence maps to itself. *)
Lemma slot_loop_spec tasks :
  forall fuel seed m,
    slot_loop fuel tasks seed = Some m ->
    exists k, (k < fuel)%nat
      /\ m = slot_iterate tasks seed k
      /\ jeqb m (slot_step tasks m) = true
      /\ forall j, (j < k)%nat ->
           jeqb (slot_iterate tasks seed j) (slot_iterate tasks seed (S j)) = false.
Proof.
  induction fuel as [|fuel IH]; intros seed m H; [discriminate|].
  simpl in H.
  destruct (jeqb seed (slot_step tasks seed)) eqn:E; simpl in H.
  - injection H as <-. exists 0%nat. repeat split; [lia|assumption|lia].
  - destruct (IH _ _ H) as (k & Hk & Hm & Hfix & Hno).
    exists (S k). split; [lia|]. split; [now rewrite <- slot_iterate_shift|].
    split; [assumption|].
    intros [|j] Hj; [exact E|].
    rewrite <- (slot_iterate_shift tasks seed (S j)), <- (slot_iterate_shift tasks seed j).
    apply Hno. lia.
Qed.

(** More fuel does not change a result. *)
Lemma slot_loop_fuel tasks :
  forall fuel fuel' seed m,
    slot_loop fuel tasks seed = Some m -> (fuel <= fuel')%nat ->
    slot_loop fuel' tasks seed = Some m.
Proof.
  induction fuel as [|fuel IH]; intros fuel' seed m H Hle; [discriminate|].
  destruct fuel' as [|fuel']; [lia|].
  simpl in *. destruct (negb _); [|assumption].
  apply IH; [assumption|lia].
Qed.


(** *** When the last response time is the greatest *)

Lemma demand_sum_app (x : Z) (l l' : list RTTask) :
  demand_sum x (l ++ l') = demand_sum x l + demand_sum x l'.
Proof. induction l as [|t l IH]; simpl; [reflexivity|]. rewrite IH. ring. Qed.

Lemma Zceil_div_mono (a a' b : Z) :
  0 < b -> a <= a' -> Zceil_div a b <= Zceil_div a' b.
Proof.
  intros Hb Ha. unfold Zceil_div.
  pose proof (Z.div_le_mono (- a') (- a) b Hb ltac:(lia)). lia.
Qed.

Lemma Zceil_div_pos (a b : Z) : 0 < b -> 1 <= a -> 1 <= Zceil_div a b.
Proof. intros Hb Ha. pose proof (Zceil_div_spec a b Hb). nia. Qed.

Lemma Zceil_div_nonneg (a b : Z) : 0 < b -> 0 <= a -> 0 <= Zceil_div a b.
Proof. intros Hb Ha. pose proof (Zceil_div_spec a b Hb). nia. Qed.

Lemma demand_sum_mono (x y : Z) (l : list RTTask) :
  Forall positive_task l -> x <= y -> demand_sum x l <= demand_sum y l.
Proof.
  intros Hl Hxy. induction Hl as [|t l [HC HT] _ IH]; simpl; [lia|].
  pose proof (Zceil_div_mono x y (period t) HT Hxy). nia.
Qed.

Lemma demand_sum_nonneg (x : Z) (l : list RTTask) :
  Forall positive_task l -> 0 <= x -> 0 <= demand_sum x l.
Proof.
  intros Hl Hx. induction Hl as [|t l [HC HT] _ IH]; simpl; [lia|].
  pose proof (Zceil_div_nonneg x (period t) HT Hx). nia.
Qed.

Lemma positive_periods (l : list RTTask) :
  Forall positive_task l -> Forall (fun t => 0 < period t) l.
Proof. intros H. eapply Forall_impl; [exact H|]. now intros t [_ HT]. Qed.

Lemma response_step_Fin (tasks : list RTTask) (task : RTTask) (taskIndex : nat) (x : Z) :
  Forall positive_task tasks ->
  response_step tasks task taskIndex (Fin x)
  = Fin (executionTime task + demand_sum x (take taskIndex tasks)).
Proof.
  intros H. unfold response_step. apply interference_demand_sum.
  apply positive_periods. now apply Forall_take.
Qed.

(** What the loop leaves with: the value of some pass, which repeats the
    value before it whenever fewer than 50 passes were made. *)
Lemma response_loop_result tasks task taskIndex :
  forall passes seed count,
    (count + passes = maxIterations - 1)%nat ->
    exists k,
      fst (response_loop passes tasks task taskIndex seed count)
      = response_iterate tasks task taskIndex seed (S k)
      /\ ((snd (response_loop passes tasks task taskIndex seed count) < maxIterations)%nat ->
          jeqb (response_iterate tasks task taskIndex seed k)
               (response_iterate tasks task taskIndex seed (S k)) = true).
Proof.
  induction passes as [|passes IH]; intros seed count Hc.
  - exists 0%nat. simpl. split; [reflexivity|]. unfold maxIterations in *. lia.
  - cbn [response_loop].
    destruct (jeqb seed (response_step tasks task taskIndex seed)) eqn:E; cbn [negb andb].
    + exists 0%nat. split; [reflexivity|]. intros _. exact E.
    + replace (S count <? maxIterations)%nat with true
        by (symmetry; apply Nat.ltb_lt; unfold maxIterations in *; lia).
      destruct (IH (response_step tasks task taskIndex seed) (S count) ltac:(lia))
        as (k & Hk & Hfix).
      exists (S k).
      rewrite <- (response_iterate_shift tasks task taskIndex seed (S k)),
        <- (response_iterate_shift tasks task taskIndex seed k).
      split; assumption.
Qed.

(** [getTaskResponse] returns the sentinel or a fixed point of the
    recurrence reached from the seed. *)
Lemma response_from_seed_cases tasks task taskIndex seed :
  response_from_seed tasks task taskIndex seed = Fin (-1)
  \/ exists k,
       response_from_seed tasks task taskIndex seed
       = response_iterate tasks task taskIndex seed k
       /\ response_step tasks task taskIndex (response_iterate tasks task taskIndex seed k)
          = response_iterate tasks task taskIndex seed k.
Proof.
  unfold response_from_seed.
  destruct (response_loop_result tasks task taskIndex (maxIterations - 1) seed 0 eq_refl)
    as (k & Hk & Hfix).
  destruct (response_loop _ _ _ _ _ _) as [iteration iterationCount]. simpl in *.
  destruct (iterationCount <? maxIterations)%nat eqn:E; [|now left].
  apply Nat.ltb_lt in E. apply Hfix, jeqb_eq in E. right. exists k.
  rewrite Hk. split; symmetry; exact E.
Qed.

Lemma response_iterate_lower_bound tasks task taskIndex (L s : Z) :
  (forall x, L <= x -> exists y, response_step tasks task taskIndex (Fin x) = Fin y /\ L <= y) ->
  L <= s ->
  forall k, exists y, response_iterate tasks task taskIndex (Fin s) k = Fin y /\ L <= y.
Proof.
  intros Hstep Hs. induction k as [|k (y & Hy & Hle)]; [now exists s|].
  change (response_iterate tasks task taskIndex (Fin s) (S k))
    with (response_step tasks task taskIndex
            (response_iterate tasks task taskIndex (Fin s) k)).
  rewrite Hy. now apply Hstep.
Qed.

(** With positive periods and no sentinel among them, the response times
    are fixed points of their recurrences and never decrease along the task
    list. *)
Lemma getTaskTiming_monotone (tasks : list RTTask) :
  Forall positive_task tasks ->
  (forall r, r ∈ getTaskTiming tasks -> r <> Fin (-1)) ->
  forall i task, tasks !! i = Some task ->
    exists x,
      getTaskTiming tasks !! i = Some (Fin x)
      /\ 0 <= x
      /\ x = executionTime task + demand_sum x (take i tasks)
      /\ forall j y, (j <= i)%nat -> getTaskTiming tasks !! j = Some (Fin y) -> y <= x.
Proof.
  intros Hpos Hsent.
  destruct (getTaskTiming_chain tasks) as (Hlen & Hfirst & Hnext).
  induction i as [|i IH]; intros task Hi.
  - exists (executionTime task).
    rewrite (Hfirst task Hi). rewrite Forall_forall in Hpos.
    destruct (Hpos task) as [HC _]; [apply list_elem_of_lookup; eauto|].
    split; [reflexivity|]. split; [assumption|]. split; [rewrite take_0; simpl; lia|].
    intros j y Hj Hy. assert (j = 0)%nat by lia. subst j.
    rewrite (Hfirst task Hi) in Hy. injection Hy as <-. lia.
  - destruct (lookup_lt_is_Some_2 tasks i) as [prev Hprev];
      [apply lookup_lt_Some in Hi; lia|].
    destruct (IH prev Hprev) as (x & Hx & Hx0 & Hxfix & Hxmax).
    pose proof (Hnext i task (Fin x) Hi Hx) as HR.
    assert (Hin : getTaskTiming tasks !! S i = Some
              (response_from_seed tasks task (S i) (jadd (Fin x) (Fin (executionTime task)))))
      by exact HR.
    pose proof Hpos as Hall. rewrite Forall_forall in Hall.
    destruct (Hall task) as [HC HT]; [apply list_elem_of_lookup; eauto|].
    destruct (Hall prev) as [HCp HTp]; [apply list_elem_of_lookup; eauto|].
    assert (Hdp : 0 <= demand_sum x (take i tasks))
      by (apply demand_sum_nonneg; [now apply Forall_take|assumption]).
    assert (Hstep : forall z, x <= z ->
              exists y, response_step tasks task (S i) (Fin z) = Fin y /\ x <= y).
    { intros z Hz. rewrite response_step_Fin by assumption.
      eexists. split; [reflexivity|].
      rewrite (take_S_r _ _ _ Hprev), demand_sum_app. simpl.
      pose proof (demand_sum_mono x z (take i tasks) (Forall_take _ _ _ Hpos) Hz).
      destruct (decide (executionTime prev = 0)) as [E0|E0]; [rewrite E0 in *; lia|].
      pose proof (Zceil_div_pos z (period prev) HTp ltac:(lia)). nia. }
    simpl jadd in Hin, HR.
    destruct (response_from_seed_cases tasks task (S i) (Fin (x + executionTime task)))
      as [Hs|(k & Hk & Hfix)].
    { exfalso. apply (Hsent (Fin (-1))); [|reflexivity].
      apply list_elem_of_lookup. exists (S i). now rewrite Hin, Hs. }
    destruct (response_iterate_lower_bound tasks task (S i) x (x + executionTime task)
                Hstep ltac:(lia) k) as (y & Hy & Hxy).
    rewrite Hk, Hy in Hin. rewrite Hy in Hfix.
    rewrite response_step_Fin in Hfix by assumption. injection Hfix as Hfix.
    exists y. split; [assumption|]. split; [lia|]. split; [lia|].
    intros j y' Hj Hy'. destruct (decide (j = S i)) as [->|Hne].
    + rewrite Hin in Hy'. injection Hy' as <-. lia.
    + pose proof (Hxmax j y' ltac:(lia) Hy'). lia.
Qed.



(** *** When the loop of [getFirstFreeSlot] ends *)

Lemma slot_step_Fin (tasks : list RTTask) (x : Z) :
  Forall positive_task tasks ->
  slot_step tasks (Fin x) = Fin (1 + demand_sum x tasks).
Proof.
  intros H. unfold slot_step. apply interference_demand_sum. now apply positive_periods.
Qed.

(** From a value that the recurrence does not lower, below a value that it
    does not raise, the loop climbs to a fixed point. *)
Lemma slot_loop_up (tasks : list RTTask) (B : Z) :
  Forall positive_task tasks ->
  1 + demand_sum B tasks <= B ->
  forall (n : nat) (x : Z),
    x <= 1 + demand_sum x tasks -> x <= B -> B - x < Z.of_nat n ->
    exists m, slot_loop n tasks (Fin x) = Some (Fin m) /\ x <= m <= B.
Proof.
  intros Hpos HB. induction n as [|n IH]; intros x Hx HxB Hn; [lia|].
  cbn [slot_loop]. rewrite slot_step_Fin by assumption. cbn [jeqb].
  destruct (x =? 1 + demand_sum x tasks) eqn:E; cbn [negb].
  - exists x. split; [reflexivity|lia].
  - apply Z.eqb_neq in E.
    pose proof (demand_sum_mono x B tasks Hpos HxB).
    pose proof (demand_sum_mono x (1 + demand_sum x tasks) tasks Hpos Hx).
    destruct (IH (1 + demand_sum x tasks)) as (m & Hm & Hle); [lia|lia|lia|].
    exists m. split; [assumption|lia].
Qed.






(** ** Slack calculator *)

Lemma Qfloor_quotient (a b : Z) :
  0 < b -> Qfloor (inject_Z a / inject_Z b) = a / b.
Proof.
  intros Hb. destruct b as [|p|p]; try lia.
  unfold Qdiv, Qinv, Qmult, inject_Z, Qfloor. simpl.
  now rewrite Z.mul_1_r.
Qed.

Lemma Qceiling_quotient (a b : Z) :
  0 < b -> Qceiling (inject_Z a / inject_Z b) = Zceil_div a b.
Proof.
  intros Hb. unfold Qceiling, Zceil_div. f_equal.
  rewrite <- Qfloor_quotient by assumption.
  apply Qfloor_comp. rewrite inject_Z_opp. unfold Qdiv.
  ring.
Qed.

(** With the [ceiling] flag the proportion is [ceil(e / T) * C]. *)
Lemma getTaskProportion_ceiling (task : RTTask) (e : Z) :
  (getTaskProportion task e FloorRoofFunctionType.ceiling
   == inject_Z (if 0 <? period task
                then Zceil_div e (period task) * executionTime task else 0))%Q.
Proof.
  unfold getTaskProportion. simpl.
  destruct (0 <? period task) eqn:E; [|reflexivity].
  apply Z.ltb_lt in E. rewrite Qceiling_quotient by assumption.
  now rewrite inject_Z_mult.
Qed.

(** C9, as stated, fails in its last clause: with the [floor] flag the
    result can be [floor(nextExpiration / period) * executionTime] all the
    same.  For the task [(2,4,4)] and the instant 12 the unrounded quotient
    is the integer 3, and the result 6 is what [math.floor] would give. *)
Lemma C9_floor_flag_result_can_equal_floor :
  (getTaskProportion (mkRTTask 1 2 4 4 (1 # 2)) 12 FloorRoofFunctionType.floor == 6)%Q
  /\ (floor_proportion (mkRTTask 1 2 4 4 (1 # 2)) 12 == 6)%Q
  /\ (getTaskProportion (mkRTTask 1 2 4 4 (1 # 2)) 12 FloorRoofFunctionType.floor
      == floor_proportion (mkRTTask 1 2 4 4 (1 # 2)) 12)%Q.
Proof. split; [|split]; vm_compute; reflexivity. Qed.

(** C9, amended.  Whatever the flag, [getTaskProportion] never binds
    [mathFunction] to [math.floor]: the second [case] repeats the label
    [ceiling] and is never taken, so the [floor] flag falls to the
    [default] branch.  With the [floor] flag the result is the unrounded
    quotient [nextExpiration / period] times the execution time (0 when
    the period is 0).  For a positive period that is not
    [floor(nextExpiration / period) * executionTime] as soon as the period
    does not divide the instant and the execution time is not 0, and it is
    that value in every other case. *)
Theorem C9_floor_branch_unreachable :
  (forall functionType, select_mathFunction functionType <> math_floor)
  /\ (forall task e,
        getTaskProportion task e FloorRoofFunctionType.floor
        = if 0 <? period task
          then (inject_Z e / inject_Z (period task) * inject_Z (executionTime task))%Q
          else 0%Q)
  /\ (forall task e,
        0 < period task -> executionTime task <> 0 -> e mod period task <> 0 ->
        ~ (getTaskProportion task e FloorRoofFunctionType.floor
           == floor_proportion task e)%Q)
  /\ (forall task e,
        0 < period task -> executionTime task = 0 \/ e mod period task = 0 ->
        (getTaskProportion task e FloorRoofFunctionType.floor
         == floor_proportion task e)%Q).
Proof.
  split; [intros []; discriminate|].
  split; [reflexivity|]. split.
  - intros task e HT HC Hmod Heq.
    unfold getTaskProportion, floor_proportion, select_mathFunction in Heq.
    cbn [FloorRoofFunctionType.eqb apply_mathFunction] in Heq.
    replace (0 <? period task) with true in Heq by (symmetry; now apply Z.ltb_lt).
    rewrite Qfloor_quotient in Heq by assumption.
    apply Qmult_inj_r in Heq.
    2:{ intros H0. apply HC. unfold Qeq in H0. simpl in H0. lia. }
    assert (Hq : (inject_Z e == inject_Z (e / period task * period task))%Q).
    { rewrite inject_Z_mult, <- Heq. field.
      intros H0. unfold Qeq in H0. simpl in H0. lia. }
    unfold Qeq in Hq. simpl in Hq. rewrite !Z.mul_1_r in Hq.
    apply Hmod. rewrite Hq. apply Z.mod_mul. lia.
  - intros task e HT Hcase.
    unfold getTaskProportion, floor_proportion, select_mathFunction.
    cbn [FloorRoofFunctionType.eqb apply_mathFunction].
    replace (0 <? period task) with true by (symmetry; now apply Z.ltb_lt).
    rewrite Qfloor_quotient by assumption.
    destruct Hcase as [HC|Hmod].
    + rewrite HC. change (inject_Z 0) with 0%Q. now rewrite !Qmult_0_r.
    + apply Qmult_comp; [|reflexivity].
      apply Z.mod_divide in Hmod; [|lia]. destruct Hmod as [q Hq].
      rewrite Hq, Z.div_mul, inject_Z_mult by lia. field.
      intros H0. unfold Qeq in H0. simpl in H0. lia.
Qed.

(** C9 at the task [(1,5,5)] and the instant 12: the [floor] flag gives
    [12/5], not [floor(12/5) * 1 = 2]; at the instant 10 it gives 2, which
    is [floor(10/5) * 1]. *)
Lemma C9_floor_branch_unreachable_witness :
  ~ (getTaskProportion (mkRTTask 1 1 5 5 0) 12 FloorRoofFunctionType.floor
     == floor_proportion (mkRTTask 1 1 5 5 0) 12)%Q
  /\ (getTaskProportion (mkRTTask 1 1 5 5 0) 10 FloorRoofFunctionType.floor
      == floor_proportion (mkRTTask 1 1 5 5 0) 10)%Q.
Proof.
  split.
  - apply (proj1 (proj2 (proj2 C9_floor_branch_unreachable)) (mkRTTask 1 1 5 5 0) 12);
      simpl; [lia | lia | vm_compute; discriminate].
  - apply (proj2 (proj2 (proj2 C9_floor_branch_unreachable)) (mkRTTask 1 1 5 5 0) 10);
      simpl; [lia | right; reflexivity].
Defined.






(** *** When [calculateTaskSlack] returns a slack *)










(** ** Parser *)

(** A match always has the whole match and three groups. *)
Lemma regex_exec_length (task : string) (parsedTask : list string) :
  regex_exec task = Some parsedTask -> length parsedTask = 4%nat.
Proof.
  induction task as [|c task IH]; cbn [regex_exec].
  - destruct (match_here EmptyString) as [[[? ?] ?]|]; [|discriminate].
    intros H. injection H as <-. reflexivity.
  - destruct (match_here (String c task)) as [[[? ?] ?]|]; [|exact IH].
    intros H. injection H as <-. reflexivity.
Qed.

(** [parseTask] throws exactly when the chunk contains no match, and what
    it throws then is the [TypeError]. *)
Lemma parseTask_spec (defaultDecimals : nat) (id : Z) (task : string) :
  match parseTask defaultDecimals id task with
  | inl e => e = TypeError /\ regex_exec task = None
  | inr _ => regex_exec task <> None
  end.
Proof.
  unfold parseTask. destruct (regex_exec task) as [parsedTask|] eqn:E; [|auto].
  rewrite (regex_exec_length _ _ E). simpl. discriminate.
Qed.

(** The loop of [parseSystemTasks] against the scan: it throws when a chunk
    closed by a separator has no match, and otherwise ends in the state the
    scan describes, with one task per chunk. *)
Lemma parse_loop_spec (defaultDecimals : nat) :
  forall (system : string) (st : parse_state) closed depth last,
    scan system (length (charStack st)) (currentTask st) = (closed, depth, last) ->
    match parse_loop defaultDecimals system st with
    | inl e => e = TypeError /\ Exists (fun c => regex_exec c = None) closed
    | inr st' =>
        Forall (fun c => regex_exec c <> None) closed
        /\ length (charStack st') = depth
        /\ currentTask st' = last
        /\ length (tasks st') = (length (tasks st) + length closed)%nat
    end.
Proof.
  induction system as [|c system IH]; intros st closed depth last Hscan.
  - simpl in *. injection Hscan as <- <- <-.
    split; [constructor|]. split; [reflexivity|]. split; [reflexivity|].
    simpl. lia.
  - cbn [parse_loop scan] in *.
    destruct (Ascii.eqb c " "); [now apply IH|].
    destruct (Ascii.eqb c "(").
    { specialize (IH (mkParse (charStack st ++ [c])
                        (currentTask st ++ String c EmptyString)
                        (tasks st) (taskId st)) closed depth last).
      cbn [charStack currentTask tasks] in IH. apply IH.
      rewrite length_app. simpl. now rewrite Nat.add_1_r. }
    destruct (Ascii.eqb c ")").
    { specialize (IH (mkParse (removelast (charStack st))
                        (currentTask st ++ String c EmptyString)
                        (tasks st) (taskId st)) closed depth last).
      cbn [charStack currentTask tasks] in IH. apply IH.
      rewrite <- Hscan. f_equal.
      destruct (charStack st) as [|a l] using rev_ind; [reflexivity|].
      rewrite removelast_last, length_app. simpl. lia. }
    destruct (Ascii.eqb c ",").
    2:{ specialize (IH (mkParse (charStack st)
                          (currentTask st ++ String c EmptyString)
                          (tasks st) (taskId st)) closed depth last).
        cbn [charStack currentTask tasks] in IH. now apply IH. }
    destruct (0 <? length (charStack st))%nat.
    { specialize (IH (mkParse (charStack st)
                        (currentTask st ++ String c EmptyString)
                        (tasks st) (taskId st)) closed depth last).
      cbn [charStack currentTask tasks] in IH. now apply IH. }
    destruct (scan system (length (charStack st)) EmptyString)
      as [[closed' depth'] last'] eqn:Hscan'.
    injection Hscan as <- <- <-.
    pose proof (parseTask_spec defaultDecimals (taskId st) (currentTask st)) as Hp.
    destruct (parseTask defaultDecimals (taskId st) (currentTask st)) as [e|task].
    + destruct Hp as [-> Hnone]. split; [reflexivity|]. now constructor.
    + specialize (IH (mkParse (charStack st) EmptyString (tasks st ++ [task])
                        (taskId st + 1)) closed' depth' last' Hscan').
      destruct (parse_loop _ _ _) as [e|st'].
      * destruct IH as [-> Hex]. split; [reflexivity|]. now constructor 2.
      * destruct IH as (Hall & Hd & Hl & Hlen). cbn [tasks] in Hlen.
        rewrite length_app in Hlen. simpl in *.
        split; [now constructor|]. split; [assumption|]. split; [assumption|lia].
Qed.

Lemma Forall_Exists_None (l : list string) :
  Forall (fun c => regex_exec c <> None) l ->
  Exists (fun c => regex_exec c = None) l -> False.
Proof.
  intros HF HE. apply Exists_exists in HE. destruct HE as (c & Hin & Hc).
  rewrite Forall_forall in HF. exact (HF c Hin Hc).
Qed.

(** C7, as stated, fails in two ways.  The text [(1,2,3))] has a closing
    parenthesis too many and is accepted: [charStack.pop()] on the empty
    stack does nothing.  The text [x(1,2,3)y] is one chunk that is not a
    triple [(<int>,<int>,<int>)] and is accepted: the pattern is searched
    inside the chunk, not matched against the whole of it. *)
Lemma C7_surplus_parenthesis_and_padding_accepted :
  (count_char "(" "(1,2,3))" = 1%nat /\ count_char ")" "(1,2,3))" = 2%nat
   /\ forall defaultDecimals,
        parseSystemTasks defaultDecimals "(1,2,3))"
        = inr [new_RTTask defaultDecimals 1 "1" "2" "3"])
  /\ (chunks "x(1,2,3)y" = ["x(1,2,3)y"%string] /\ is_triple "x(1,2,3)y" = false
      /\ forall defaultDecimals,
           parseSystemTasks defaultDecimals "x(1,2,3)y"
           = inr [new_RTTask defaultDecimals 1 "1" "2" "3"]).
Proof.
  repeat split; reflexivity.
Qed.

(** C7, amended.  [parseSystemTasks], and with it the construction of the
    system, throws exactly when an opening parenthesis is left unclosed at
    the end of the text or some chunk between separating commas contains no
    substring [(<int>,<int>,<int>)]; what is thrown is the [TypeError] of
    the failed match or the string ["Parsing failed"], and nothing else is
    returned then.  When it returns, it returns one task per chunk. *)
Theorem C7_parseSystemTasks_failure (defaultDecimals : nat) (system : string) :
  ((exists e, parseSystemTasks defaultDecimals system = inl e)
   <-> ((0 < unclosed system)%nat
        \/ Exists (fun c => regex_exec c = None) (chunks system)))
  /\ (forall e, parseSystemTasks defaultDecimals system = inl e ->
        e = TypeError \/ e = Thrown "Parsing failed")
  /\ (forall tasks, parseSystemTasks defaultDecimals system = inr tasks ->
        length tasks = length (chunks system)).
Proof.
  unfold parseSystemTasks, chunks, unclosed.
  destruct (scan system 0 EmptyString) as [[closed depth] last] eqn:Hscan.
  pose proof (parse_loop_spec defaultDecimals system (mkParse [] EmptyString [] 1)
                closed depth last Hscan) as H.
  destruct (parse_loop _ _ _) as [e|st].
  { destruct H as [-> Hex]. split; [|split; [intros e H; injection H as <-; now left|discriminate]].
    split; [intros _; right; apply Exists_app; now left|eauto]. }
  destruct H as (Hall & Hd & Hl & Hlen). rewrite Hd, Hl.
  destruct (0 <? depth)%nat eqn:Edepth.
  { apply Nat.ltb_lt in Edepth.
    split; [|split; [intros e H; injection H as <-; now right|discriminate]].
    split; [intros _; now left|eauto]. }
  apply Nat.ltb_ge in Edepth.
  destruct (0 <? String.length last)%nat.
  - pose proof (parseTask_spec defaultDecimals (taskId st) last) as Hp.
    destruct (parseTask _ _ _) as [e|task].
    + destruct Hp as [-> Hnone].
      split; [|split; [intros e H; injection H as <-; now left|discriminate]].
      split; [intros _; right; apply Exists_app; right; now constructor|eauto].
    + split; [|split; [discriminate|]].
      * split; [intros [e He]; discriminate|].
        intros [Hlt|Hex]; [lia|]. exfalso.
        apply (Forall_Exists_None (closed ++ [last])); [|assumption].
        apply Forall_app. split; [assumption|now repeat constructor].
      * intros ? H. injection H as <-. rewrite !length_app. simpl in *. lia.
  - split; [|split; [discriminate|]].
    + split; [intros [e He]; discriminate|].
      intros [Hlt|Hex]; [lia|]. exfalso.
      rewrite app_nil_r in Hex. exact (Forall_Exists_None _ Hall Hex).
    + intros ? H. injection H as <-. rewrite app_nil_r. simpl in *. lia.
Qed.

(** C7 at the malformed text of the specification: the first chunk [(1,5)]
    has no match, and construction throws. *)
Lemma C7_parseSystemTasks_failure_witness :
  exists e, parseSystemTasks 2 "(1,5),(2,7,7)" = inl e.
Proof.
  apply (proj2 (proj1 (C7_parseSystemTasks_failure 2 "(1,5),(2,7,7)"))).
  right. vm_compute. constructor. reflexivity.
Defined.

(** *** What the parser builds *)

Lemma lookup_map_id (l : list RTTask) (i : nat) (t : RTTask) :
  l !! i = Some t -> map id l !! i = Some (id t).
Proof.
  revert i. induction l as [|x l IH]; intros [|i] H; try discriminate.
  - now injection H as ->.
  - apply IH, H.
Qed.

Lemma span_digits_all_digits (s : string) :
  all_digits (fst (span_digits s)).
Proof.
  induction s as [|c s IH]; simpl; [constructor|].
  destruct (is_digit c) eqn:E; [|constructor].
  destruct (span_digits s) as [ds after]. simpl in *. now constructor.
Qed.

Lemma group_digits_all_digits (s ds after : string) :
  group_digits s = Some (ds, after) -> all_digits ds.
Proof.
  unfold group_digits. pose proof (span_digits_all_digits s) as H.
  destruct (span_digits s) as [[|c ds'] after']; [discriminate|].
  intros E. injection E as <- <-. exact H.
Qed.

Lemma match_here_all_digits (s c t d : string) :
  match_here s = Some (c, t, d) -> all_digits c /\ all_digits t /\ all_digits d.
Proof.
  unfold match_here.
  destruct (literal _ s) as [s1|]; [|discriminate].
  destruct (group_digits s1) as [[c' s2]|] eqn:E1; [|discriminate].
  destruct (literal _ s2) as [s3|]; [|discriminate].
  destruct (group_digits s3) as [[t' s4]|] eqn:E2; [|discriminate].
  destruct (literal _ s4) as [s5|]; [|discriminate].
  destruct (group_digits s5) as [[d' s6]|] eqn:E3; [|discriminate].
  destruct (literal _ s6); [|discriminate].
  intros E. injection E as <- <- <-.
  split; [|split]; eapply group_digits_all_digits; eassumption.
Qed.

Lemma regex_exec_all_digits (task : string) (parsedTask : list string) :
  regex_exec task = Some parsedTask ->
  all_digits (nth 1 parsedTask EmptyString)
  /\ all_digits (nth 2 parsedTask EmptyString)
  /\ all_digits (nth 3 parsedTask EmptyString).
Proof.
  induction task as [|a task IH]; cbn [regex_exec].
  - destruct (match_here EmptyString) as [[[c t] d]|] eqn:E; [|discriminate].
    intros H. injection H as <-. exact (match_here_all_digits _ _ _ _ E).
  - destruct (match_here (String a task)) as [[[c t] d]|] eqn:E; [|exact IH].
    intros H. injection H as <-. exact (match_here_all_digits _ _ _ _ E).
Qed.

Lemma parseFloat_nonneg (s : string) : all_digits s -> 0 <= parseFloat s.
Proof.
  unfold all_digits, parseFloat.
  assert (H : forall l acc, Forall (fun c => is_digit c = true) l -> 0 <= acc ->
            0 <= fold_left (fun acc c => 10 * acc + (Z.of_nat (nat_of_ascii c) - 48)) l acc).
  { induction l as [|c l IH]; intros acc Hl Hacc; [exact Hacc|].
    inversion Hl as [|? ? Hc Hl']; subst. simpl. apply IH; [assumption|].
    unfold is_digit in Hc. apply andb_true_iff in Hc as [Hc _].
    apply Nat.leb_le in Hc. lia. }
  intros Hs. now apply H.
Qed.

(** A task that [parseTask] returns has the id it was given, non-negative
    execution time and period, and the utilization of its constructor. *)
Lemma parseTask_task (defaultDecimals : nat) (i : Z) (task : string) (t : RTTask) :
  parseTask defaultDecimals i task = inr t ->
  id t = i /\ wf_task t /\ constructed defaultDecimals t.
Proof.
  unfold parseTask. destruct (regex_exec task) as [parsedTask|] eqn:E; [|discriminate].
  destruct (negb _); [discriminate|]. intros H. injection H as <-.
  destruct (regex_exec_all_digits _ _ E) as (Hc & Ht & _).
  split; [reflexivity|]. split; [|reflexivity].
  split; apply parseFloat_nonneg; assumption.
Qed.

(** The loop numbers the tasks it pushes from [taskId] on. *)
Lemma parse_loop_tasks (defaultDecimals : nat) :
  forall (system : string) (st st' : parse_state),
    parse_loop defaultDecimals system st = inr st' ->
    exists news,
      tasks st' = tasks st ++ news
      /\ taskId st' = taskId st + Z.of_nat (length news)
      /\ (forall i t, news !! i = Some t ->
            id t = taskId st + Z.of_nat i
            /\ wf_task t /\ constructed defaultDecimals t).
Proof.
  induction system as [|c system IH]; intros st st' H.
  - simpl in H. injection H as <-. exists []. rewrite app_nil_r. simpl.
    split; [reflexivity|]. split; [lia|]. intros i t Hi. discriminate.
  - cbn [parse_loop] in H.
    destruct (Ascii.eqb c " "); [exact (IH _ _ H)|].
    destruct (Ascii.eqb c "("); [exact (IH _ _ H)|].
    destruct (Ascii.eqb c ")"); [exact (IH _ _ H)|].
    destruct (Ascii.eqb c ","); [|exact (IH _ _ H)].
    destruct (0 <? length (charStack st))%nat; [exact (IH _ _ H)|].
    destruct (parseTask defaultDecimals (taskId st) (currentTask st)) as [e|t] eqn:Ep;
      [discriminate|].
    destruct (IH _ _ H) as (news & Ht & Hid & Hnews). cbn [tasks taskId] in *.
    exists (t :: news). rewrite Ht, <- app_assoc. split; [reflexivity|].
    split; [simpl length; lia|].
    intros [|i] t' Hi.
    + injection Hi as <-. rewrite Z.add_0_r. exact (parseTask_task _ _ _ _ Ep).
    + destruct (Hnews i t' Hi) as (-> & Hw). split; [lia|exact Hw].
Qed.

(** The systems that [parseSystemTasks] returns: the task at index [i] has
    id [i + 1], so the ids are distinct; execution times and periods are
    non-negative integers and [fu] is the rounded quotient. *)
Lemma parseSystemTasks_tasks (defaultDecimals : nat) (system : string)
    (l : list RTTask) :
  parseSystemTasks defaultDecimals system = inr l ->
  (forall i t, l !! i = Some t -> id t = Z.of_nat i + 1)
  /\ NoDup (map id l)
  /\ Forall wf_task l
  /\ Forall (constructed defaultDecimals) l.
Proof.
  intros H.
  assert (Hall : forall i t, l !! i = Some t ->
            id t = Z.of_nat i + 1 /\ wf_task t /\ constructed defaultDecimals t).
  { unfold parseSystemTasks in H.
    destruct (parse_loop _ _ _) as [e|st] eqn:E; [discriminate|].
    destruct (parse_loop_tasks _ _ _ _ E) as (news & Ht & Hid & Hnews).
    cbn [tasks taskId] in *. simpl in Ht. subst news.
    destruct (0 <? length (charStack st))%nat; [discriminate|].
    destruct (0 <? String.length (currentTask st))%nat.
    - destruct (parseTask _ _ _) as [e|t] eqn:Ep; [discriminate|].
      injection H as <-. intros i t' Hi.
      apply lookup_app_Some in Hi as [Hi|[Hge Hi]].
      + destruct (Hnews i t' Hi) as (-> & Hw). split; [lia|exact Hw].
      + apply list_lookup_singleton_Some in Hi as [Hi <-].
        destruct (parseTask_task _ _ _ _ Ep) as (-> & Hw). split; [lia|exact Hw].
    - injection H as <-. intros i t Hi.
      destruct (Hnews i t Hi) as (-> & Hw). split; [lia|exact Hw]. }
  split; [intros i t Hi; now apply Hall|]. split; [|split].
  - apply NoDup_alt. intros i j x Hi Hj.
    assert (Hlook : forall k y, map id l !! k = Some y -> y = Z.of_nat k + 1).
    { clear -Hall. intros k y Hk.
      destruct (l !! k) as [t|] eqn:Et.
      - rewrite (lookup_map_id _ _ _ Et) in Hk. injection Hk as <-. now apply Hall.
      - apply lookup_ge_None in Et. apply lookup_lt_Some in Hk.
        rewrite length_map in Hk. lia. }
    apply Hlook in Hi, Hj. lia.
  - apply Forall_forall. intros t Ht. apply list_elem_of_lookup in Ht as [i Hi].
    now apply (Hall i t).
  - apply Forall_forall. intros t Ht. apply list_elem_of_lookup in Ht as [i Hi].
    now apply (Hall i t).
Qed.

(** ** Utilization *)

Lemma scale_pos (d : nat) : (0 < scale d)%Q.
Proof.
  unfold scale. replace 0%Q with (inject_Z 0) by reflexivity.
  rewrite <- Zlt_Qlt. apply Z.pow_pos_nonneg; lia.
Qed.

Lemma Qfloor_unique (x : Q) (z : Z) :
  (inject_Z z <= x)%Q -> (x < inject_Z (z + 1))%Q -> Qfloor x = z.
Proof.
  intros Hle Hlt.
  assert (z <= Qfloor x).
  { rewrite <- (Qfloor_Z z). now apply Qfloor_resp_le. }
  assert (Qfloor x < z + 1).
  { rewrite Zlt_Qlt. eapply Qle_lt_trans; [apply Qfloor_le|assumption]. }
  lia.
Qed.

(** Rounding moves a value by at most half a unit of the precision. *)
Lemma math_round_error (q : Q) (d : nat) :
  (Qabs (math_round q d - q) <= (1 # 2) / scale d)%Q.
Proof.
  unfold math_round. fold (scale d).
  pose proof (scale_pos d) as HP.
  set (f := Qfloor (q * scale d + (1 # 2))).
  pose proof (Qfloor_le (q * scale d + (1 # 2))) as Hlo.
  pose proof (Qlt_floor (q * scale d + (1 # 2))) as Hhi.
  fold f in Hlo, Hhi. rewrite inject_Z_plus in Hhi.
  assert (HP' : ~ (scale d == 0)%Q) by (intros E; rewrite E in HP; discriminate).
  assert (E : (inject_Z f / scale d - q == (inject_Z f - q * scale d) / scale d)%Q)
    by (field; assumption).
  rewrite E. clear E.
  set (y := (q * scale d)%Q) in *.
  set (F := inject_Z f) in *.
  apply Qabs_Qle_condition. split.
  - apply Qle_shift_div_l; [assumption|].
    assert (E : (- ((1 # 2) / scale d) * scale d == - (1 # 2))%Q) by (field; assumption).
    rewrite E. change (inject_Z 1) with 1%Q in Hhi.
    clear E HP HP'. clearbody F. clear f. clearbody y. Lqa.lra.
  - apply Qle_shift_div_r; [assumption|].
    assert (E : ((1 # 2) / scale d * scale d == 1 # 2)%Q) by (field; assumption).
    rewrite E. clear E HP HP'. clearbody F. clear f. clearbody y. Lqa.lra.
Qed.

(** A multiple of the unit of the precision is left alone by rounding. *)
Lemma math_round_on_grid (d : nat) (z : Z) :
  (math_round (inject_Z z / scale d) d == inject_Z z / scale d)%Q.
Proof.
  unfold math_round. fold (scale d).
  pose proof (scale_pos d) as HP.
  assert (HP' : ~ (scale d == 0)%Q) by (intros E; rewrite E in HP; discriminate).
  assert (E : (inject_Z z / scale d * scale d + (1 # 2) == inject_Z z + (1 # 2))%Q)
    by (field; assumption).
  rewrite (Qfloor_comp _ _ E).
  rewrite (Qfloor_unique (inject_Z z + (1 # 2)) z); [reflexivity| |].
  - Lqa.lra.
  - rewrite inject_Z_plus. change (inject_Z 1) with 1%Q. Lqa.lra.
Qed.

Lemma math_round_comp (q q' : Q) (d : nat) :
  (q == q')%Q -> (math_round q d == math_round q' d)%Q.
Proof.
  intros E. unfold math_round.
  assert (E' : (q * inject_Z (10 ^ Z.of_nat d) + (1 # 2)
                == q' * inject_Z (10 ^ Z.of_nat d) + (1 # 2))%Q) by now rewrite E.
  now rewrite (Qfloor_comp _ _ E').
Qed.

Lemma math_sum_fold_right (l : list Q) :
  (math_sum l == fold_right Qplus 0 l)%Q.
Proof.
  unfold math_sum.
  assert (H : forall acc, (fold_left Qplus l acc == acc + fold_right Qplus 0 l)%Q).
  { induction l as [|x l IH]; intros acc; simpl; [ring|]. rewrite IH. ring. }
  rewrite H. ring.
Qed.

(** The sum of the stored utilizations is a multiple of the unit. *)
Lemma sum_fu_on_grid (d : nat) (tasks : list RTTask) :
  Forall (constructed d) tasks ->
  exists z, (fold_right Qplus 0 (map fu tasks) == inject_Z z / scale d)%Q.
Proof.
  pose proof (scale_pos d) as HP.
  assert (HP' : ~ (scale d == 0)%Q) by (intros E; rewrite E in HP; discriminate).
  induction 1 as [|t tasks Ht _ [z IH]]; simpl.
  - exists 0. field. assumption.
  - rewrite Ht. unfold task_fu, math_round. fold (scale d).
    eexists (_ + z). rewrite IH, inject_Z_plus. field. assumption.
Qed.


(** For tasks built by the constructor, [getFU] is the sum of the stored
    utilizations, and it is within half a unit of the precision per task of
    the arithmetic sum of the quotients. *)
Lemma getFU_constructed (defaultDecimals : nat) (tasks : list RTTask) :
  Forall (constructed defaultDecimals) tasks ->
  (getFU defaultDecimals tasks
   == fold_right
        (fun t acc => task_fu defaultDecimals (executionTime t) (period t) + acc)
        0 tasks)%Q
  /\ (Qabs (getFU defaultDecimals tasks - exact_utilization tasks)
      <= inject_Z (Z.of_nat (length tasks)) * ((1 # 2) / scale defaultDecimals))%Q.
Proof.
  intros Hc.
  assert (Hsum : (getFU defaultDecimals tasks == fold_right Qplus 0 (map fu tasks))%Q).
  { unfold getFU. destruct (sum_fu_on_grid _ _ Hc) as [z Hz].
    rewrite (math_round_comp _ _ _ (math_sum_fold_right _)).
    rewrite (math_round_comp _ _ _ Hz), math_round_on_grid. now rewrite Hz. }
  rewrite Hsum. clear Hsum.
  induction Hc as [|t tasks Ht _ [IH1 IH2]].
  - split; [reflexivity|].
    cbn [map fold_right exact_utilization length].
    change (inject_Z (Z.of_nat 0)) with 0%Q. rewrite Qmult_0_l. discriminate.
  - split; [simpl; now rewrite Ht, IH1|].
    cbn [map fold_right exact_utilization length].
    fold (exact_utilization tasks).
    set (u := if 0 <? period t
              then (inject_Z (executionTime t) / inject_Z (period t))%Q else 0%Q).
    set (s := fold_right Qplus 0%Q (map fu tasks)) in *.
    assert (E : (fu t + s - (u + exact_utilization tasks)
                 == (fu t - u) + (s - exact_utilization tasks))%Q) by ring.
    rewrite E. clear E.
    eapply Qle_trans; [apply Qabs_triangle|].
    rewrite Nat2Z.inj_succ. unfold Z.succ. rewrite inject_Z_plus.
    pose proof (math_round_error u defaultDecimals) as Hu.
    rewrite Ht. unfold task_fu. fold u.
    set (a := Qabs (math_round u defaultDecimals - u)) in *.
    set (b := Qabs (s - exact_utilization tasks)) in *.
    set (eps := ((1 # 2) / scale defaultDecimals)%Q) in *.
    set (n := inject_Z (Z.of_nat (length tasks))) in *.
    change (inject_Z 1) with 1%Q.
    clearbody a b eps n. Lqa.nra.
Qed.



(** The same three tasks separate [getFU] from the rounded arithmetic sum
    whatever the number of decimals. *)
Lemma pow10_mod3 (d : nat) : exists k, 10 ^ Z.of_nat d = 3 * k + 1.
Proof.
  induction d as [|d [k IH]]; [now exists 0|].
  exists (10 * k + 3). rewrite Nat2Z.inj_succ, Z.pow_succ_r by lia. lia.
Qed.

Lemma task_fu_third (d : nat) (k : Z) :
  10 ^ Z.of_nat d = 3 * k + 1 -> (task_fu d 1 3 == inject_Z k / scale d)%Q.
Proof.
  intros Hk. unfold task_fu, math_round. fold (scale d). cbn [Z.ltb Z.compare].
  rewrite (Qfloor_unique _ k); [reflexivity| |];
    unfold scale; rewrite Hk, ?inject_Z_plus, ?inject_Z_mult;
    change (inject_Z 1) with 1%Q; change (inject_Z 3) with 3%Q;
    change (1 / 3)%Q with (1 # 3)%Q;
    set (K := inject_Z k); clearbody K; Lqa.lra.
Qed.

Lemma getFU_three_thirds (d : nat) :
  let tasks := [new_RTTask d 1 "1" "3" "3"; new_RTTask d 2 "1" "3" "3";
                new_RTTask d 3 "1" "3" "3"] in
  ~ (getFU d tasks == math_round (exact_utilization tasks) d)%Q.
Proof.
  intros tasks Heq.
  destruct (pow10_mod3 d) as [k Hk].
  pose proof (scale_pos d) as HP.
  assert (HP' : ~ (scale d == 0)%Q) by (intros E; rewrite E in HP; discriminate).
  destruct (getFU_constructed d tasks ltac:(repeat constructor)) as [Hsum _].
  rewrite Hsum in Heq. clear Hsum.
  assert (Hex : (exact_utilization tasks == inject_Z (10 ^ Z.of_nat d) / scale d)%Q).
  { assert (E : (exact_utilization tasks == 1)%Q) by (vm_compute; reflexivity).
    rewrite E. fold (scale d). field. exact HP'. }
  rewrite (math_round_comp _ _ _ Hex), math_round_on_grid in Heq.
  cbn [tasks fold_right] in Heq.
  change (executionTime (new_RTTask d _ "1" "3" "3")) with 1 in Heq.
  change (period (new_RTTask d _ "1" "3" "3")) with 3 in Heq.
  rewrite (task_fu_third d k Hk) in Heq.
  assert (E : (inject_Z (3 * k) / scale d == inject_Z (10 ^ Z.of_nat d) / scale d)%Q).
  { rewrite <- Heq, inject_Z_mult. change (inject_Z 3) with 3%Q. field. exact HP'. }
  assert (Hinv : ~ (/ scale d == 0)%Q).
  { intros H0. apply HP'. rewrite <- (Qinv_involutive (scale d)), H0. reflexivity. }
  unfold Qdiv in E. apply (proj1 (Qmult_inj_r _ _ (/ scale d) Hinv)) in E.
  unfold Qeq in E. simpl in E. lia.
Qed.

(** ** The Liu and Layland test *)

(** Rounding a real to 2 decimals moves it by at most 0.005. *)
Lemma math_round_R_error (x : R) :
  (x - 5 / 1000 < math_round_R x 2 <= x + 5 / 1000)%R.
Proof.
  unfold math_round_R.
  destruct (base_Int_part (x * 10 ^ 2 + / 2)) as [Hlo Hhi].
  set (I := IZR (Int_part (x * 10 ^ 2 + / 2))) in *. clearbody I.
  simpl in *. Lra.lra.
Qed.

(** The square root of 2 to two decimals. *)
Lemma sqrt2_bounds : (14125 / 10000 < sqrt 2 < 1415 / 1000)%R.
Proof.
  split.
  - rewrite <- (sqrt_square (14125 / 10000)) by Lra.lra.
    apply sqrt_lt_1; Lra.lra.
  - rewrite <- (sqrt_square (1415 / 1000)) by Lra.lra.
    apply sqrt_lt_1; Lra.lra.
Qed.

Lemma liuBound_2 : liuBound 2 = (2 * (sqrt 2 - 1))%R.
Proof.
  unfold liuBound. simpl INR.
  replace (1 / (1 + 1))%R with (/ 2)%R by Lra.lra.
  rewrite Rpower_sqrt by Lra.lra. Lra.lra.
Qed.

Lemma liuBound_1 : liuBound 1 = 1%R.
Proof.
  unfold liuBound. simpl INR.
  replace (1 / 1)%R with 1%R by Lra.lra.
  rewrite Rpower_1 by Lra.lra. Lra.lra.
Qed.

(** C5, as stated, fails: the bound that [isValidForLiu] compares with is
    rounded to 2 decimals.  For the two tasks [(83,100,100),(0,1,1)] the
    utilization is 0.83 and the bound [2 * (sqrt 2 - 1) = 0.8284...] is
    rounded to 0.83: the test passes although the utilization is above the
    bound. *)
Lemma C5_bound_rounded_to_two_decimals :
  exists tasks,
    parseSystemTasks 2 "(83,100,100),(0,1,1)" = inr tasks
    /\ length tasks = 2%nat
    /\ Q2R (getFU 2 tasks) = (83 / 100)%R
    /\ getLiu tasks = (83 / 100)%R
    /\ isValidForLiu 2 tasks
    /\ ~ (Q2R (getFU 2 tasks) <= liuBound (length tasks))%R.
Proof.
  eexists. split; [vm_compute; reflexivity|].
  split; [reflexivity|].
  match goal with |- Q2R (getFU 2 ?ts) = _ /\ _ =>
    assert (HFU : Q2R (getFU 2 ts) = (83 / 100)%R) end.
  { erewrite (Qeq_eqR _ (83 # 100)%Q) by (vm_compute; reflexivity).
    unfold Q2R. simpl. Lra.lra. }
  match goal with |- _ /\ getLiu ?ts = _ /\ _ =>
    assert (HLiu : getLiu ts = (83 / 100)%R) end.
  { unfold getLiu, getN. simpl length. rewrite liuBound_2.
    unfold math_round_R.
    rewrite <- (Int_part_spec _ 83); [simpl; Lra.lra|].
    pose proof sqrt2_bounds. simpl. Lra.lra. }
  split; [exact HFU|]. split; [exact HLiu|]. split.
  - unfold isValidForLiu. rewrite HFU, HLiu. Lra.lra.
  - rewrite HFU. simpl length. rewrite liuBound_2.
    pose proof sqrt2_bounds. Lra.lra.
Qed.

(** C5, amended.  For a system with at least one task, [isValidForLiu] is
    true if and only if the utilization
    [getFU] is at most the bound [n * (2^(1/n) - 1)] rounded to 2
    decimals.  It is therefore true whenever the utilization is at most
    the bound minus 0.005, and false whenever the utilization exceeds the
    bound by more than 0.005. *)
Theorem C5_isValidForLiu_rounded_bound (defaultDecimals : nat) (tasks : list RTTask) :
  tasks <> [] ->
  let n := length tasks in
  let U := Q2R (getFU defaultDecimals tasks) in
  (isValidForLiu defaultDecimals tasks
   <-> (U <= IZR (Int_part (liuBound n * 100 + / 2)) / 100)%R)
  /\ ((U <= liuBound n - 5 / 1000)%R -> isValidForLiu defaultDecimals tasks)
  /\ ((liuBound n + 5 / 1000 < U)%R -> ~ isValidForLiu defaultDecimals tasks).
Proof.
  intros _. cbv zeta. unfold isValidForLiu, getLiu, getN.
  pose proof (math_round_R_error (liuBound (length tasks))) as [Hlo Hhi].
  split; [|split].
  - unfold math_round_R. simpl pow.
    replace (10 * (10 * 1))%R with 100%R by Lra.lra. reflexivity.
  - intros H. Lra.lra.
  - intros H H'. Lra.lra.
Qed.

(** C5 at the one-task system [(1,2,2)]: the utilization 0.5 is below the
    bound 1 by more than 0.005, and the test passes. *)
Lemma C5_isValidForLiu_rounded_bound_witness :
  isValidForLiu 2 [new_RTTask 2 1 "1" "2" "2"].
Proof.
  apply (proj1 (proj2 (C5_isValidForLiu_rounded_bound 2 [new_RTTask 2 1 "1" "2" "2"]
                         ltac:(discriminate)))).
  simpl length. rewrite liuBound_1.
  erewrite (Qeq_eqR _ (1 # 2)%Q) by (vm_compute; reflexivity).
  unfold Q2R. simpl. Lra.lra.
Defined.

(** The same two tasks pass the test above the bound whatever the number
    of decimals, from 2 on. *)
Lemma getFU_83_hundredths (d : nat) :
  (2 <= d)%nat ->
  (getFU d [new_RTTask d 1 "83" "100" "100"; new_RTTask d 2 "0" "1" "1"] == 83 # 100)%Q.
Proof.
  intros Hd.
  pose proof (scale_pos d) as HP.
  assert (HP' : ~ (scale d == 0)%Q) by (intros E; rewrite E in HP; discriminate).
  destruct (getFU_constructed d
              [new_RTTask d 1 "83" "100" "100"; new_RTTask d 2 "0" "1" "1"]
              ltac:(repeat constructor)) as [-> _].
  cbn [fold_right].
  change (executionTime (new_RTTask d 1 "83" "100" "100")) with 83.
  change (period (new_RTTask d 1 "83" "100" "100")) with 100.
  change (executionTime (new_RTTask d 2 "0" "1" "1")) with 0.
  change (period (new_RTTask d 2 "0" "1" "1")) with 1.
  unfold task_fu. cbn [Z.ltb Z.compare].
  assert (Hpow : 10 ^ Z.of_nat d = 100 * 10 ^ Z.of_nat (d - 2)).
  { replace (Z.of_nat d) with (2 + Z.of_nat (d - 2)) at 1 by lia.
    rewrite Z.pow_add_r by lia. reflexivity. }
  assert (E1 : (inject_Z 83 / inject_Z 100
                == inject_Z (83 * 10 ^ Z.of_nat (d - 2)) / scale d)%Q).
  { unfold scale. rewrite Hpow, !inject_Z_mult. field.
    intros H0. apply HP'. unfold scale. rewrite Hpow, inject_Z_mult, H0. ring. }
  assert (E0 : (inject_Z 0 / inject_Z 1 == inject_Z 0 / scale d)%Q)
    by (field; exact HP').
  rewrite (math_round_comp _ _ _ E1), (math_round_comp _ _ _ E0), !math_round_on_grid.
  rewrite <- E1, <- E0. reflexivity.
Qed.

Lemma isValidForLiu_above_the_bound (d : nat) :
  (2 <= d)%nat ->
  let tasks := [new_RTTask d 1 "83" "100" "100"; new_RTTask d 2 "0" "1" "1"] in
  isValidForLiu d tasks /\ ~ (Q2R (getFU d tasks) <= liuBound (length tasks))%R.
Proof.
  intros Hd tasks.
  assert (HFU : Q2R (getFU d tasks) = (83 / 100)%R).
  { unfold tasks. rewrite (Qeq_eqR _ _ (getFU_83_hundredths d Hd)). unfold Q2R. simpl. Lra.lra. }
  assert (HLiu : getLiu tasks = (83 / 100)%R).
  { unfold getLiu, getN. simpl length. rewrite liuBound_2.
    unfold math_round_R.
    rewrite <- (Int_part_spec _ 83); [simpl; Lra.lra|].
    pose proof sqrt2_bounds. simpl. Lra.lra. }
  split.
  - unfold isValidForLiu. rewrite HFU, HLiu. Lra.lra.
  - rewrite HFU. simpl length. rewrite liuBound_2.
    pose proof sqrt2_bounds. Lra.lra.
Qed.

(** ** Rate-monotonic simulation *)

Lemma counter_insert (m : gmap Z Z) (i j v : Z) :
  counter (<[i := v]> m) j = if decide (i = j) then v else counter m j.
Proof.
  unfold counter. rewrite lookup_insert. destruct (decide (i = j)); reflexivity.
Qed.

Lemma row_insert (m : gmap Z (list bool)) (i j : Z) (r : list bool) :
  row (<[i := r]> m) j = if decide (i = j) then r else row m j.
Proof.
  unfold row. rewrite lookup_insert. destruct (decide (i = j)); reflexivity.
Qed.

Lemma true_bits_app (r : list bool) (b : bool) :
  true_bits (r ++ [b]) = true_bits r + (if b then 1 else 0).
Proof.
  unfold true_bits. rewrite filter_app, length_app.
  destruct b; [rewrite filter_cons_True by reflexivity
              |rewrite filter_cons_False by discriminate];
    rewrite filter_nil; simpl length; lia.
Qed.

Lemma true_bits_nonneg (r : list bool) : 0 <= true_bits r.
Proof. unfold true_bits. lia. Qed.

Lemma contains_app (l : list Z) (i j : Z) :
  contains (l ++ [i]) j = contains l j || bool_decide (i = j).
Proof.
  unfold contains. apply eq_true_iff_eq.
  rewrite orb_true_iff, !bool_decide_eq_true, elem_of_app, list_elem_of_singleton.
  split; (intros [H|H]; [now left|now right]).
Qed.

Lemma contains_difference (l : list Z) (i j : Z) :
  contains (difference l i) j = contains l j && negb (bool_decide (i = j)).
Proof.
  unfold contains, difference. apply eq_true_iff_eq.
  rewrite andb_true_iff, negb_true_iff, bool_decide_eq_false,
    !bool_decide_eq_true, list_elem_of_filter.
  split; intros [H1 H2]; (split; [assumption || congruence|assumption || congruence]).
Qed.

(** The body of the [for] loop, run for a task [t'], leaves what is kept
    for a task with another id alone. *)
Lemma rm_task_other (cell : Z) (st : rm_state) (t t' : RTTask) :
  id t' <> id t ->
  let st' := rm_task cell st t' in
  pending st' t = pending st t
  /\ row (scheduling st') (id t) = row (scheduling st) (id t)
  /\ counter (executionCount st') (id t) = counter (executionCount st) (id t)
  /\ counter (nextStart st') (id t) = counter (nextStart st) (id t).
Proof.
  intros Hne. unfold rm_task, rm_release, rm_select, pending.
  destruct (cell =? counter (nextStart st) (id t')); cbn [unattendendTasks executionCount
    nextStart scheduling executionOrder selectedTask];
  destruct (bool_decide (selectedTask st = None) && contains _ (id t'));
  [destruct (executionTime t' <=? _)| |destruct (executionTime t' <=? _)|];
  cbn [unattendendTasks executionCount nextStart scheduling executionOrder selectedTask];
  rewrite ?contains_difference, ?contains_app, ?row_insert, ?counter_insert;
  repeat case_decide; try congruence;
  rewrite ?bool_decide_eq_false_2 by assumption;
  rewrite ?andb_true_r, ?orb_false_r; auto.
Qed.

(** The body of the [for] loop, run for a task, keeps the invariant of that
    task. *)
Lemma rm_task_self (cell : Z) (st : rm_state) (t : RTTask) :
  0 <= period t -> task_inv st t -> task_inv (rm_task cell st t) t.
Proof.
  intros HT. unfold task_inv, rm_task, rm_release, rm_select, pending.
  pose proof (true_bits_nonneg (row (scheduling st) (id t))) as Hb.
  destruct (cell =? counter (nextStart st) (id t)); cbn [unattendendTasks executionCount
    nextStart scheduling executionOrder selectedTask];
  destruct (bool_decide (selectedTask st = None)); cbn [andb];
  rewrite ?contains_app, ?bool_decide_eq_true_2, ?orb_true_r by reflexivity;
  destruct (contains (unattendendTasks st) (id t)) eqn:Epend;
  cbn [unattendendTasks executionCount nextStart scheduling executionOrder selectedTask];
  rewrite ?counter_insert, ?decide_True by reflexivity;
  try (destruct (executionTime t <=? _) eqn:EC;
       [apply Z.leb_le in EC|apply Z.leb_gt in EC]);
  cbn [unattendendTasks executionCount nextStart scheduling executionOrder selectedTask];
  rewrite ?contains_difference, ?contains_app, ?Epend, ?bool_decide_eq_true_2,
    ?orb_true_r, ?row_insert, ?counter_insert, ?decide_True, ?true_bits_app by reflexivity;
  cbn [andb orb negb]; cbv zeta; intros H; nia.
Qed.

Lemma id_inj_of_NoDup (l : list RTTask) (t t' : RTTask) :
  NoDup (map id l) -> t ∈ l -> t' ∈ l -> id t = id t' -> t = t'.
Proof.
  induction l as [|x l IH]; intros Hnd Ht Ht' Hid; [inversion Ht|].
  simpl in Hnd. apply NoDup_cons in Hnd as [Hx Hnd].
  apply elem_of_cons in Ht as [->|Ht]; apply elem_of_cons in Ht' as [->|Ht'].
  - reflexivity.
  - exfalso. apply Hx. rewrite Hid. apply list_elem_of_In, in_map, list_elem_of_In, Ht'.
  - exfalso. apply Hx. rewrite <- Hid. apply list_elem_of_In, in_map, list_elem_of_In, Ht.
  - now apply IH.
Qed.

(** The state before the first cell. *)
Lemma rm_init_fold (l : list RTTask) :
  forall st,
    let st' := foldl rm_init_task st l in
    unattendendTasks st' = unattendendTasks st
    /\ executionOrder st' = executionOrder st
    /\ (forall i, row (scheduling st) i = [] -> row (scheduling st') i = [])
    /\ (forall i, counter (executionCount st) i = 0 -> counter (executionCount st') i = 0)
    /\ (forall i, i ∉ map id l -> counter (nextStart st') i = counter (nextStart st) i)
    /\ (NoDup (map id l) ->
        forall t, t ∈ l -> counter (nextStart st') (id t) = period t).
Proof.
  induction l as [|x l IH]; intros st; cbn zeta.
  - repeat split; auto. intros _ t Ht. inversion Ht.
  - cbn [foldl]. destruct (IH (rm_init_task st x)) as (Hu & Ho & Hr & Hc & Hn & Hp).
    cbn zeta in *. unfold rm_init_task in Hu, Ho, Hr, Hc, Hn; cbn in Hu, Ho, Hr, Hc, Hn.
    split; [assumption|]. split; [assumption|]. split.
    { intros i Hi. apply Hr. rewrite row_insert. now case_decide. }
    split.
    { intros i Hi. apply Hc. rewrite counter_insert. now case_decide. }
    split.
    { intros i Hi. apply not_elem_of_cons in Hi as [Hix Hil].
      rewrite Hn by assumption. rewrite counter_insert. case_decide; congruence. }
    intros Hnd t Ht. simpl in Hnd. apply NoDup_cons in Hnd as [Hx Hnd].
    apply elem_of_cons in Ht as [->|Ht]; [|now apply Hp].
    rewrite Hn by assumption. rewrite counter_insert. now rewrite decide_True.
Qed.

Section RM.

Variable tasks : list RTTask.
Hypothesis ids_distinct : NoDup (map id tasks).

(** One cell keeps the invariant of every task. *)
Lemma rm_fold_task_inv (cell : Z) :
  (forall t, t ∈ tasks -> 0 <= period t) ->
  forall (l : list RTTask) (st : rm_state),
    (forall t, t ∈ l -> t ∈ tasks) ->
    (forall t, t ∈ tasks -> task_inv st t) ->
    forall t, t ∈ tasks -> task_inv (foldl (rm_task cell) st l) t.
Proof.
  intros Hwf. induction l as [|t' l IH]; intros st Hl Hinv; [exact Hinv|].
  cbn [foldl]. apply IH; [intros t Ht; apply Hl; now right|].
  intros t Ht.
  assert (Ht' : t' ∈ tasks) by (apply Hl; now left).
  destruct (decide (id t' = id t)) as [E|E].
  - apply (id_inj_of_NoDup tasks) in E; try assumption. subst t'.
    apply rm_task_self; auto.
  - destruct (rm_task_other cell st t t' E) as (Hp & Hr & Hc & Hn).
    specialize (Hinv t Ht). unfold task_inv in *. cbv zeta in *.
    now rewrite Hp, Hr, Hc, Hn.
Qed.

(** The invariant holds before the first cell and at every cell boundary,
    hence when the [while] loop leaves. *)
Lemma rm_loop_task_inv :
  (forall t, t ∈ tasks -> 0 <= period t) ->
  forall (fuel : nat) (st : rm_state) (cell : Z) (st' : rm_state) (cells : Z),
    (forall t, t ∈ tasks -> task_inv st t) ->
    rm_loop fuel tasks st cell = Some (st', cells) ->
    unattendendTasks st' = [] /\ forall t, t ∈ tasks -> task_inv st' t.
Proof.
  intros Hwf. induction fuel as [|fuel IH]; intros st cell st' cells Hinv H; [discriminate|].
  cbn [rm_loop] in H.
  destruct (0 <? length (unattendendTasks st))%nat eqn:E.
  - apply (IH _ _ _ _) in H; [assumption|].
    unfold rm_cell. apply rm_fold_task_inv; auto.
  - injection H as <- <-. split; [|assumption].
    apply Nat.ltb_ge in E. destruct (unattendendTasks st); [reflexivity|simpl in E; lia].
Qed.

Lemma rm_init_task_inv (t : RTTask) :
  t ∈ tasks -> task_inv (rm_init tasks) t.
Proof.
  intros Ht. unfold task_inv, pending, rm_init.
  destruct (rm_init_fold tasks (mkRM (map id tasks) ∅ ∅ ∅ [] None))
    as (Hu & _ & Hr & Hc & _ & Hp).
  cbv zeta in *. rewrite Hu, Hr, Hc, Hp by auto. cbn [unattendendTasks].
  unfold contains. rewrite bool_decide_eq_true_2
    by (apply list_elem_of_In, in_map, list_elem_of_In, Ht).
  unfold true_bits. simpl. lia.
Qed.

End RM.

Lemma rm_task_nextStart_self (cell : Z) (st : rm_state) (t : RTTask) :
  counter (nextStart (rm_task cell st t)) (id t)
  = if cell =? counter (nextStart st) (id t)
    then counter (nextStart st) (id t) + period t
    else counter (nextStart st) (id t).
Proof.
  unfold rm_task, rm_release, rm_select.
  destruct (cell =? counter (nextStart st) (id t));
    cbn [unattendendTasks executionCount nextStart scheduling executionOrder selectedTask];
    destruct (_ && _); cbn [nextStart];
    rewrite ?counter_insert, ?decide_True by reflexivity; reflexivity.
Qed.

Lemma rm_task_release_self (cell : Z) (st : rm_state) (t : RTTask) :
  0 <= cell -> 0 < period t ->
  release_inv cell st t -> release_inv (cell + 1) (rm_task cell st t) t.
Proof.
  intros Hc HT (r & Hn & Hr). unfold release_inv.
  rewrite rm_task_nextStart_self, Hn.
  destruct (cell =? r * period t) eqn:E.
  - apply Z.eqb_eq in E. exists (r + 1). split; [ring|]. lia.
  - apply Z.eqb_neq in E. exists r. split; [reflexivity|]. lia.
Qed.

Lemma rm_task_release_other (cell c : Z) (st : rm_state) (t t' : RTTask) :
  id t' <> id t -> release_inv c st t -> release_inv c (rm_task cell st t') t.
Proof.
  intros Hne (r & Hn & Hr). exists r.
  destruct (rm_task_other cell st t t' Hne) as (_ & _ & _ & ->). auto.
Qed.

(** Tasks whose ids are not met in a fold keep their next start. *)
Lemma rm_fold_release_others (cell c : Z) :
  forall (l : list RTTask) (st : rm_state) (t : RTTask),
    id t ∉ map id l -> release_inv c st t ->
    release_inv c (foldl (rm_task cell) st l) t.
Proof.
  induction l as [|x l IH]; intros st t Hid H; [exact H|].
  apply not_elem_of_cons in Hid as [Hx Hl]. cbn [foldl].
  apply IH; [assumption|]. apply rm_task_release_other; congruence.
Qed.

(** One cell moves the next start of every task one cell on. *)
Lemma rm_fold_release (cell : Z) :
  0 <= cell ->
  forall (l : list RTTask) (st : rm_state),
    NoDup (map id l) ->
    (forall t, t ∈ l -> 0 < period t) ->
    (forall t, t ∈ l -> release_inv cell st t) ->
    forall t, t ∈ l -> release_inv (cell + 1) (foldl (rm_task cell) st l) t.
Proof.
  intros Hc. induction l as [|x l IH]; intros st Hnd Hpos H t Ht; [inversion Ht|].
  simpl in Hnd. apply NoDup_cons in Hnd as [Hx Hnd]. cbn [foldl].
  apply elem_of_cons in Ht as [->|Ht].
  - apply rm_fold_release_others; [assumption|].
    apply rm_task_release_self; [assumption|apply Hpos; now left|apply H; now left].
  - apply IH; try assumption.
    + intros t' Ht'. apply Hpos. now right.
    + intros t' Ht'. apply rm_task_release_other; [|apply H; now right].
      intros E. apply Hx. rewrite E.
      apply list_elem_of_In, in_map, list_elem_of_In, Ht'.
Qed.

Section RM_horizon.

Variable tasks : list RTTask.
Hypothesis ids_distinct : NoDup (map id tasks).
Hypothesis periods_positive : forall t, t ∈ tasks -> 0 < period t.

(** At every cell boundary the next start of a task is the first multiple
    of its period not before the cell; the run does not stop before a cell
    has been simulated unless there is no task. *)
Lemma rm_loop_release :
  forall (fuel : nat) (st : rm_state) (cell : Z) (st' : rm_state) (cells : Z),
    0 <= cell ->
    (cell = 0 -> unattendendTasks st = map id tasks) ->
    (forall t, t ∈ tasks -> release_inv cell st t) ->
    rm_loop fuel tasks st cell = Some (st', cells) ->
    forall t, t ∈ tasks -> 0 < cells /\ release_inv cells st' t.
Proof.
  induction fuel as [|fuel IH]; intros st cell st' cells Hc H0 Hinv H; [discriminate|].
  cbn [rm_loop] in H.
  destruct (0 <? length (unattendendTasks st))%nat eqn:E.
  - assert (Hc' : 0 <= cell + 1) by lia.
    assert (H0' : cell + 1 = 0 -> unattendendTasks (rm_cell tasks cell st) = map id tasks)
      by lia.
    apply (IH _ _ _ _ Hc' H0'); [|assumption].
    unfold rm_cell. apply rm_fold_release; auto.
  - injection H as <- <-. intros t Ht. split; [|auto].
    destruct (decide (cell = 0)) as [Hz|Hz]; [|lia].
    apply Nat.ltb_ge in E. rewrite (H0 Hz), length_map in E.
    destruct tasks; [inversion Ht|simpl in E; lia].
Qed.

Lemma rm_init_release (t : RTTask) :
  t ∈ tasks -> release_inv 0 (rm_init tasks) t.
Proof.
  intros Ht. exists 1. unfold rm_init.
  destruct (rm_init_fold tasks (mkRM (map id tasks) ∅ ∅ ∅ [] None))
    as (_ & _ & _ & _ & _ & Hp).
  cbv zeta in Hp. rewrite Hp by assumption.
  specialize (periods_positive t Ht). lia.
Qed.

End RM_horizon.

(** The body of the [for] loop on the rows, the order and the selection. *)
Lemma rm_task_shape (cell : Z) (st : rm_state) (t : RTTask) :
  let st' := rm_task cell st t in
  (forall i, i <> id t -> row (scheduling st') i = row (scheduling st) i)
  /\ (forall u, u ∈ unattendendTasks st' -> u ∈ unattendendTasks st \/ u = id t)
  /\ match selectedTask st with
     | Some s =>
         selectedTask st' = Some s
         /\ executionOrder st' = executionOrder st
         /\ row (scheduling st') (id t) = row (scheduling st) (id t) ++ [false]
     | None =>
         (selectedTask st' = Some t
          /\ executionOrder st' = executionOrder st ++ [id t]
          /\ row (scheduling st') (id t) = row (scheduling st) (id t) ++ [true])
         \/ (selectedTask st' = None
             /\ executionOrder st' = executionOrder st
             /\ row (scheduling st') (id t) = row (scheduling st) (id t) ++ [false]
             /\ (id t ∉ unattendendTasks st')
             /\ forall u, u ∈ unattendendTasks st -> u ∈ unattendendTasks st')
     end.
Proof.
  cbv zeta. unfold rm_task.
  set (st1 := rm_release cell st t).
  assert (H1 : scheduling st1 = scheduling st /\ executionOrder st1 = executionOrder st
               /\ selectedTask st1 = selectedTask st
               /\ (forall u, u ∈ unattendendTasks st1 -> u ∈ unattendendTasks st \/ u = id t)
               /\ (forall u, u ∈ unattendendTasks st -> u ∈ unattendendTasks st1)).
  { unfold st1, rm_release. destruct (cell =? _); cbn; repeat split; auto.
    - intros u Hu. apply elem_of_app in Hu as [Hu|Hu]; [now left|].
      apply list_elem_of_singleton in Hu. now right.
    - intros u Hu. apply elem_of_app. now left. }
  destruct H1 as (Hs & Ho & Hsel & Hin & Hout). clearbody st1.
  unfold rm_select. rewrite Hsel, Hs, Ho.
  destruct (selectedTask st) as [s|] eqn:Esel.
  - rewrite bool_decide_eq_false_2 by discriminate. cbn.
    split; [intros i Hi; rewrite row_insert; case_decide; congruence|].
    split; [assumption|]. rewrite row_insert, decide_True by reflexivity. auto.
  - rewrite bool_decide_eq_true_2 by reflexivity. cbn [andb].
    destruct (contains (unattendendTasks st1) (id t)) eqn:Ec.
    + cbn. split; [intros i Hi; rewrite row_insert; case_decide; congruence|].
      split.
      * intros u Hu. apply Hin.
        destruct (executionTime t <=? _); [|assumption].
        unfold difference in Hu. apply list_elem_of_filter in Hu. tauto.
      * left. rewrite row_insert, decide_True by reflexivity. auto.
    + cbn. split; [intros i Hi; rewrite row_insert; case_decide; congruence|].
      split; [assumption|]. right.
      rewrite row_insert, decide_True by reflexivity.
      repeat split; auto.
      unfold contains in Ec. now apply bool_decide_eq_false in Ec.
Qed.

Lemma id_elem_of_map (l : list RTTask) (t : RTTask) : t ∈ l -> id t ∈ map id l.
Proof. intros H. apply list_elem_of_In, in_map, list_elem_of_In, H. Qed.

Lemma elem_of_map_id (l : list RTTask) (i : Z) :
  i ∈ map id l -> exists t, t ∈ l /\ id t = i.
Proof.
  intros H. apply list_elem_of_In, in_map_iff in H. destruct H as (t & Ht & Hin).
  exists t. split; [now apply list_elem_of_In|assumption].
Qed.

(** One more task met in the cell. *)
Lemma cell_shape_step (ids : list Z) (cell : Z) (st0 st : rm_state)
    (pre : list RTTask) (t : RTTask) :
  id t ∈ ids -> id t ∉ map id pre ->
  cell_shape ids st0 pre st ->
  cell_shape ids st0 (pre ++ [t]) (rm_task cell st t).
Proof.
  intros Hid Hfresh (Hsub & Hrest & Hsel).
  destruct (rm_task_shape cell st t) as (Hother & Hun & Hcase). cbv zeta in *.
  assert (Hpre : forall t', t' ∈ pre -> id t' <> id t).
  { intros t' Ht' E. apply Hfresh. rewrite <- E. now apply id_elem_of_map. }
  split; [|split].
  - intros u Hu. destruct (Hun u Hu) as [H| ->]; auto.
  - intros i Hi. rewrite map_app in Hi. apply not_elem_of_app in Hi as [Hi Hit].
    rewrite Hother by (intros ->; apply Hit; now left). now apply Hrest.
  - destruct (selectedTask st) as [s|] eqn:Es.
    + destruct Hcase as (-> & -> & Hrow). destruct Hsel as (Hs & Ho & Hrows).
      split; [apply elem_of_app; now left|]. split; [assumption|].
      intros t' Ht'. apply elem_of_app in Ht' as [Ht'|Ht'].
      * rewrite Hother by auto. now apply Hrows.
      * apply list_elem_of_singleton in Ht'. subst t'.
        rewrite Hrow, Hrest by assumption.
        rewrite bool_decide_eq_false_2; [reflexivity|].
        intros E. apply (Hpre s Hs). congruence.
    + destruct Hsel as (Ho & Hne & Hrows).
      destruct Hcase as [(-> & -> & Hrow)|(-> & -> & Hrow & Hnot & Hkeep)].
      * split; [apply elem_of_app; right; now left|]. split; [now rewrite Ho|].
        intros t' Ht'. apply elem_of_app in Ht' as [Ht'|Ht'].
        -- rewrite Hother by auto. destruct (Hrows t' Ht') as [-> _].
           rewrite bool_decide_eq_false_2 by auto. reflexivity.
        -- apply list_elem_of_singleton in Ht'. subst t'.
           rewrite Hrow, Hrest by assumption.
           now rewrite bool_decide_eq_true_2.
      * split; [assumption|]. split.
        { destruct (unattendendTasks st) as [|u l] eqn:Eu; [congruence|].
          intros E. specialize (Hkeep u ltac:(left)). rewrite E in Hkeep.
          inversion Hkeep. }
        intros t' Ht'. apply elem_of_app in Ht' as [Ht'|Ht'].
        -- rewrite Hother by auto. destruct (Hrows t' Ht') as [-> Hn].
           split; [reflexivity|]. intros Hin.
           destruct (Hun _ Hin) as [H|H]; [contradiction|]. now apply (Hpre t' Ht').
        -- apply list_elem_of_singleton in Ht'. subst t'.
           rewrite Hrow, Hrest by assumption. auto.
Qed.

(** The whole [for] loop of a cell. *)
Lemma cell_shape_fold (ids : list Z) (cell : Z) (st0 : rm_state) :
  forall (suf pre : list RTTask) (st : rm_state),
    NoDup (map id (pre ++ suf)) ->
    (forall t, t ∈ suf -> id t ∈ ids) ->
    cell_shape ids st0 pre st ->
    cell_shape ids st0 (pre ++ suf) (foldl (rm_task cell) st suf).
Proof.
  induction suf as [|t suf IH]; intros pre st Hnd Hids H.
  - now rewrite app_nil_r.
  - cbn [foldl]. replace (pre ++ t :: suf) with ((pre ++ [t]) ++ suf) in *
      by now rewrite <- app_assoc.
    apply IH; [assumption|intros t' Ht'; apply Hids; now right|].
    apply cell_shape_step; [apply Hids; now left| |assumption].
    rewrite !map_app in Hnd. apply NoDup_app in Hnd as (Hnd & _ & _).
    apply NoDup_app in Hnd as (_ & Hdis & _).
    intros Hin. apply (Hdis _ Hin). now left.
Qed.

Section RM_shape.

Variable tasks : list RTTask.
Hypothesis ids_distinct : NoDup (map id tasks).

(** A cell that starts with a pending task selects exactly one task,
    appends its id to the order and one bit to every row. *)
Lemma rm_cell_shape (cell : Z) (st : rm_state) :
  unattendendTasks st <> [] ->
  (forall u, u ∈ unattendendTasks st -> u ∈ map id tasks) ->
  let st' := rm_cell tasks cell st in
  exists s, s ∈ tasks
    /\ executionOrder st' = executionOrder st ++ [id s]
    /\ (forall t, t ∈ tasks ->
          row (scheduling st') (id t)
          = row (scheduling st) (id t) ++ [bool_decide (id t = id s)])
    /\ (forall u, u ∈ unattendendTasks st' -> u ∈ map id tasks).
Proof.
  intros Hne Hsub. cbv zeta. unfold rm_cell.
  set (st0 := mkRM (unattendendTasks st) (executionCount st) (nextStart st)
                   (scheduling st) (executionOrder st) None).
  assert (H0 : cell_shape (map id tasks) st0 [] st0).
  { split; [exact Hsub|]. split; [reflexivity|]. cbn.
    split; [reflexivity|]. split; [assumption|]. intros t Ht. inversion Ht. }
  pose proof (cell_shape_fold (map id tasks) cell st0 tasks [] st0 ids_distinct
                (id_elem_of_map tasks) H0) as (Hsub' & _ & Hsel).
  cbn [app] in Hsel.
  destruct (selectedTask (foldl (rm_task cell) st0 tasks)) as [s|].
  - destruct Hsel as (Hs & Ho & Hrows). exists s. auto.
  - exfalso. destruct Hsel as (_ & Hne' & Hrows).
    destruct (unattendendTasks (foldl (rm_task cell) st0 tasks)) as [|u l] eqn:E;
      [congruence|].
    destruct (elem_of_map_id tasks u (Hsub' u ltac:(left))) as (t & Ht & Hid).
    destruct (Hrows t Ht) as [_ Hnot]. apply Hnot. rewrite Hid. now left.
Qed.

Lemma shape_inv_cell (cell : Z) (st : rm_state) :
  unattendendTasks st <> [] ->
  shape_inv tasks st cell -> shape_inv tasks (rm_cell tasks cell st) (cell + 1).
Proof.
  intros Hne (Hcell & Hsub & Hord & Hrows).
  destruct (rm_cell_shape cell st Hne Hsub) as (s & Hs & Ho & Hr & Hsub').
  cbv zeta in *. unfold shape_inv. rewrite Ho, length_app. cbn [length].
  split; [lia|]. split; [assumption|]. split.
  - intros c u Hc. apply lookup_app_Some in Hc as [Hc|[_ Hc]]; [eauto|].
    apply list_lookup_singleton_Some in Hc as [_ <-]. now apply id_elem_of_map.
  - intros t Ht. destruct (Hrows t Ht) as [Hlen Hbits].
    rewrite (Hr t Ht), length_app. cbn [length]. split; [lia|].
    intros c. destruct (decide (c < length (executionOrder st))%nat) as [Hc|Hc].
    + rewrite !lookup_app_l by lia. apply Hbits.
    + rewrite !lookup_app_r by lia. rewrite Hlen.
      destruct (c - length (executionOrder st))%nat; cbn; [|split; discriminate].
      case_bool_decide as E; [rewrite E; tauto|].
      split; [discriminate|]. intros H. injection H as H. congruence.
Qed.

Lemma rm_loop_shape :
  forall (fuel : nat) (st : rm_state) (cell : Z) (st' : rm_state) (cells : Z),
    shape_inv tasks st cell ->
    rm_loop fuel tasks st cell = Some (st', cells) ->
    shape_inv tasks st' cells.
Proof.
  induction fuel as [|fuel IH]; intros st cell st' cells Hinv H; [discriminate|].
  cbn [rm_loop] in H.
  destruct (0 <? length (unattendendTasks st))%nat eqn:E.
  - apply (IH _ _ _ _) in H; [assumption|].
    apply shape_inv_cell; [|assumption].
    apply Nat.ltb_lt in E. intros E'. rewrite E' in E. simpl in E. lia.
  - now injection H as <- <-.
Qed.

Lemma rm_init_shape : shape_inv tasks (rm_init tasks) 0.
Proof.
  unfold rm_init.
  destruct (rm_init_fold tasks (mkRM (map id tasks) ∅ ∅ ∅ [] None))
    as (Hu & Ho & Hr & _).
  cbv zeta in *. unfold shape_inv. rewrite Hu, Ho. cbn.
  split; [reflexivity|]. split; [auto|]. split; [intros c u H; discriminate|].
  intros t Ht. rewrite Hr by reflexivity. split; [reflexivity|].
  intros c. split; discriminate.
Qed.

End RM_shape.

(** A terminating run on tasks with distinct ids: as many cells as entries
    of the order and bits of every row, and at every cell exactly one task
    with a [true] bit, the one the order names. *)
Lemma rm_run_one_task_per_cell (fuel : nat) (tasks : list RTTask)
    (st : rm_state) (cells : Z) :
  NoDup (map id tasks) ->
  rm_run fuel tasks = Some (st, cells) ->
  getRMScheduling fuel tasks = Some (scheduling st, executionOrder st)
  /\ Z.of_nat (length (executionOrder st)) = cells
  /\ (forall t, t ∈ tasks -> Z.of_nat (length (row (scheduling st) (id t))) = cells)
  /\ (forall c, (c < length (executionOrder st))%nat ->
        exists i t,
          tasks !! i = Some t
          /\ row (scheduling st) (id t) !! c = Some true
          /\ executionOrder st !! c = Some (id t)
          /\ forall j t', tasks !! j = Some t' ->
               row (scheduling st) (id t') !! c = Some true -> j = i).
Proof.
  intros Hnd Hrun.
  split; [unfold getRMScheduling; now rewrite Hrun|].
  unfold rm_run in Hrun.
  destruct (rm_loop_shape tasks Hnd _ _ _ _ _ (rm_init_shape tasks) Hrun)
    as (Hcells & _ & Hord & Hrows).
  split; [auto|]. split.
  - intros t Ht. destruct (Hrows t Ht) as [-> _]. auto.
  - intros c Hc. destruct (lookup_lt_is_Some_2 _ _ Hc) as [u Hu].
    destruct (elem_of_map_id _ _ (Hord c u Hu)) as (t & Ht & <-).
    apply list_elem_of_lookup in Ht as [i Hi].
    exists i, t. split; [assumption|].
    assert (Ht : t ∈ tasks) by (apply list_elem_of_lookup; eauto).
    split; [now apply (Hrows t Ht)|]. split; [assumption|].
    intros j t' Hj Hbit.
    assert (Ht' : t' ∈ tasks) by (apply list_elem_of_lookup; eauto).
    apply (Hrows t' Ht') in Hbit. rewrite Hu in Hbit. injection Hbit as Hid.
    eapply NoDup_lookup; [exact Hnd| |].
    + apply lookup_map_id, Hj.
    + rewrite <- Hid. apply lookup_map_id, Hi.
Qed.

(** C10.  For every system that the parser returns, when the simulation
    terminates the number of simulated cells is the length of the execution
    order and the length of the row of every task; at every cell index
    exactly one task (one index of the task list) has a [true] bit, and the
    entry of the execution order at that index is the id of that task. *)
Theorem C10_getRMScheduling_one_task_per_cell (defaultDecimals : nat)
    (system : string) (tasks : list RTTask) (fuel : nat) (st : rm_state) (cells : Z) :
  parseSystemTasks defaultDecimals system = inr tasks ->
  rm_run fuel tasks = Some (st, cells) ->
  getRMScheduling fuel tasks = Some (scheduling st, executionOrder st)
  /\ Z.of_nat (length (executionOrder st)) = cells
  /\ (forall t, t ∈ tasks -> Z.of_nat (length (row (scheduling st) (id t))) = cells)
  /\ (forall c, (c < length (executionOrder st))%nat ->
        exists i t,
          tasks !! i = Some t
          /\ row (scheduling st) (id t) !! c = Some true
          /\ executionOrder st !! c = Some (id t)
          /\ forall j t', tasks !! j = Some t' ->
               row (scheduling st) (id t') !! c = Some true -> j = i).
Proof.
  intros Hparse. apply rm_run_one_task_per_cell.
  now destruct (parseSystemTasks_tasks _ _ _ Hparse) as (_ & Hnd & _).
Qed.

(** C10 on [(1,5,5),(1,7,7)]: two cells, one task in each. *)
Lemma C10_getRMScheduling_one_task_per_cell_witness :
  exists tasks st,
    parseSystemTasks 2 "(1,5,5),(1,7,7)" = inr tasks
    /\ rm_run 3 tasks = Some (st, 2)
    /\ executionOrder st = [1; 2]
    /\ Z.of_nat (length (executionOrder st)) = 2
    /\ (forall t, t ∈ tasks -> Z.of_nat (length (row (scheduling st) (id t))) = 2).
Proof.
  assert (E : exists tasks st,
            parseSystemTasks 2 "(1,5,5),(1,7,7)" = inr tasks
            /\ rm_run 3 tasks = Some (st, 2) /\ executionOrder st = [1; 2]).
  { do 2 eexists. split; [vm_compute; reflexivity|].
    split; [vm_compute; reflexivity|]. vm_compute; reflexivity. }
  destruct E as (tasks & st & Hparse & E & Ho). exists tasks, st.
  split; [exact Hparse|]. split; [exact E|]. split; [exact Ho|].
  destruct (C10_getRMScheduling_one_task_per_cell 2 "(1,5,5),(1,7,7)" tasks 3 st 2
              Hparse E) as (_ & Hlen & Hrows & _).
  split; assumption.
Defined.

(** A property of one task that the body of the [for] loop turns into
    another when it is run for that task, and that it keeps when it is run
    for the others, is turned into the other by the whole [for] loop. *)
Lemma rm_fold_one_task (P Q : rm_state -> Prop) (cell : Z) (t : RTTask) :
  (forall st t', id t' <> id t -> P st -> P (rm_task cell st t')) ->
  (forall st t', id t' <> id t -> Q st -> Q (rm_task cell st t')) ->
  (forall st, P st -> Q (rm_task cell st t)) ->
  forall (l : list RTTask) (st : rm_state),
    NoDup (map id l) -> t ∈ l -> P st -> Q (foldl (rm_task cell) st l).
Proof.
  intros HP HQ HPQ.
  assert (Hrest : forall l st, id t ∉ map id l -> Q st -> Q (foldl (rm_task cell) st l)).
  { induction l as [|x l IH]; intros st Hid H; [exact H|].
    apply not_elem_of_cons in Hid as [Hx Hl]. cbn [foldl].
    apply IH; [assumption|]. apply HQ; congruence. }
  induction l as [|x l IH]; intros st Hnd Ht H; [inversion Ht|].
  simpl in Hnd. apply NoDup_cons in Hnd as [Hx Hnd]. cbn [foldl].
  apply elem_of_cons in Ht as [->|Ht].
  - apply Hrest; [assumption|]. now apply HPQ.
  - apply IH; try assumption. apply HP; [|assumption].
    intros E. apply Hx. rewrite E. now apply id_elem_of_map.
Qed.

Lemma rm_init_unattended (tasks : list RTTask) :
  unattendendTasks (rm_init tasks) = map id tasks.
Proof.
  unfold rm_init.
  now destruct (rm_init_fold tasks (mkRM (map id tasks) ∅ ∅ ∅ [] None)) as (-> & _).
Qed.

(** A terminating run on tasks with distinct ids and positive periods:
    every task has between [max C 1] and [max C 1 * ceil(cells / T)]
    [true] bits. *)
Lemma rm_run_true_bits (fuel : nat) (tasks : list RTTask)
    (st : rm_state) (cells : Z) :
  NoDup (map id tasks) ->
  (forall t, t ∈ tasks -> 0 < period t) ->
  rm_run fuel tasks = Some (st, cells) ->
  getRMScheduling fuel tasks = Some (scheduling st, executionOrder st)
  /\ cells = Z.of_nat (length (executionOrder st))
  /\ unattendendTasks st = []
  /\ forall t, t ∈ tasks ->
       let b := true_bits (row (scheduling st) (id t)) in
       let C' := Z.max (executionTime t) 1 in
       C' <= b <= C' * Zceil_div cells (period t)
       /\ (cells <= period t -> b = C').
Proof.
  intros Hnd Hpos Hrun.
  split; [unfold getRMScheduling; now rewrite Hrun|].
  unfold rm_run in Hrun.
  destruct (rm_loop_shape tasks Hnd _ _ _ _ _ (rm_init_shape tasks) Hrun) as (Hcells & _).
  split; [assumption|].
  assert (Hnn : forall t, t ∈ tasks -> 0 <= period t)
    by (intros t Ht; specialize (Hpos t Ht); lia).
  destruct (rm_loop_task_inv tasks Hnd Hnn _ _ _ _ _ (rm_init_task_inv tasks Hnd) Hrun)
    as (Hempty & Hinv).
  split; [assumption|].
  intros t Ht. cbv zeta.
  destruct (rm_loop_release tasks Hnd Hpos _ _ _ _ _ (Z.le_refl 0)
              (fun _ => rm_init_unattended tasks)
              (rm_init_release tasks Hnd Hpos) Hrun t Ht) as (Hc & r & Hn & Hr).
  specialize (Hinv t Ht). unfold task_inv, pending in Hinv. cbv zeta in Hinv.
  rewrite Hempty in Hinv. unfold contains in Hinv.
  rewrite bool_decide_eq_false_2 in Hinv by apply not_elem_of_nil.
  rewrite Hn in Hinv. rewrite Z.max_l in Hr by lia.
  specialize (Hpos t Ht).
  pose proof (Zceil_div_spec cells (period t) Hpos) as Hq.
  set (q := Zceil_div cells (period t)) in *. clearbody q.
  set (b := true_bits _) in *. clearbody b.
  set (C' := Z.max _ 1) in *. clearbody C'.
  set (T := period t) in *. clearbody T. destruct Hinv as [Hlo Hhi].
  assert (q - 1 < r) by nia. assert (r < q + 1) by nia.
  assert (q = r) by lia. subst q.
  split; [split; [assumption|nia]|].
  intros Hle. assert (r = 1) by nia. subst r. nia.
Qed.

Lemma rm_task_exact_self (cell : Z) (st : rm_state) (t : RTTask) :
  cut cell st t = false -> exact_inv st t -> exact_inv (rm_task cell st t) t.
Proof.
  unfold cut, exact_inv, rm_task, rm_release, rm_select, pending.
  destruct (cell =? counter (nextStart st) (id t)); cbn [unattendendTasks executionCount
    nextStart scheduling executionOrder selectedTask];
  destruct (bool_decide (selectedTask st = None)); cbn [andb];
  rewrite ?contains_app, ?(bool_decide_eq_true_2 (id t = id t)), ?orb_true_r by reflexivity;
  destruct (contains (unattendendTasks st) (id t)) eqn:Epend; cbn [andb];
  intros Hc; try discriminate Hc; clear Hc;
  cbn [unattendendTasks executionCount nextStart scheduling executionOrder selectedTask];
  rewrite ?counter_insert, ?decide_True by reflexivity;
  try (destruct (executionTime t <=? _) eqn:EC;
       [apply Z.leb_le in EC|apply Z.leb_gt in EC]);
  cbn [unattendendTasks executionCount nextStart scheduling executionOrder selectedTask];
  rewrite ?contains_difference, ?contains_app, ?Epend, ?(bool_decide_eq_true_2 (id t = id t)),
    ?orb_true_r, ?row_insert, ?counter_insert, ?decide_True, ?true_bits_app by reflexivity;
  cbn [andb orb negb]; cbv zeta; intros H; try nia;
  match goal with
  | |- context [Z.max ?c 1] =>
      let E := fresh in
      first [assert (E : Z.max c 1 = 1) by lia
            |assert (E : Z.max c 1 = counter (executionCount st) (id t) + 1) by lia];
      rewrite E in *; nia
  end.
Qed.

Lemma rm_task_exact_other (cell : Z) (st : rm_state) (t t' : RTTask) :
  id t' <> id t ->
  (exact_inv st t -> exact_inv (rm_task cell st t') t)
  /\ cut cell (rm_task cell st t') t = cut cell st t.
Proof.
  intros Hne. unfold exact_inv, cut.
  destruct (rm_task_other cell st t t' Hne) as (-> & -> & -> & ->). auto.
Qed.

Lemma rm_loop_exact (l : list RTTask) (t : RTTask) :
  NoDup (map id l) -> t ∈ l ->
  forall (fuel : nat) (st : rm_state) (cell : Z) (st' : rm_state) (cells : Z),
    exact_inv st t ->
    never_cut fuel l t st cell = true ->
    rm_loop fuel l st cell = Some (st', cells) ->
    exact_inv st' t.
Proof.
  intros Hnd Ht. induction fuel as [|fuel IH]; intros st cell st' cells Hinv Hcut H;
    [discriminate|].
  cbn [rm_loop never_cut] in H, Hcut.
  destruct (0 <? length (unattendendTasks st))%nat.
  - apply andb_true_iff in Hcut as [Hnow Hlater]. apply negb_true_iff in Hnow.
    apply (IH _ _ _ _) in H; [assumption| |assumption].
    unfold rm_cell.
    apply (rm_fold_one_task (fun s => exact_inv s t /\ cut cell s t = false)
             (fun s => exact_inv s t) cell t); try assumption.
    + intros s t' Hne [Hs Hc].
      destruct (rm_task_exact_other cell s t t' Hne) as [Hi Hcut']. split; [auto|congruence].
    + intros s t' Hne. apply (rm_task_exact_other cell s t t' Hne).
    + intros s [Hs Hc]. now apply rm_task_exact_self.
    + split; [exact Hinv|exact Hnow].
  - injection H as <- <-. exact Hinv.
Qed.

Lemma rm_init_exact (l : list RTTask) (t : RTTask) :
  NoDup (map id l) -> t ∈ l -> exact_inv (rm_init l) t.
Proof.
  intros Hnd Ht. unfold exact_inv, pending, rm_init.
  destruct (rm_init_fold l (mkRM (map id l) ∅ ∅ ∅ [] None))
    as (Hu & _ & Hr & Hc & _ & Hp).
  cbv zeta in *. rewrite Hu, Hr, Hc, Hp by auto. cbn [unattendendTasks].
  unfold contains. rewrite bool_decide_eq_true_2 by now apply id_elem_of_map.
  unfold true_bits. simpl. lia.
Qed.

(** A terminating run on tasks with distinct ids and positive periods: a
    task none of whose instances is cut by its next release has exactly
    [max C 1 * ceil(cells / T)] [true] bits. *)
Lemma rm_run_true_bits_exact (fuel : nat) (tasks : list RTTask)
    (st : rm_state) (cells : Z) (t : RTTask) :
  NoDup (map id tasks) ->
  (forall t, t ∈ tasks -> 0 < period t) ->
  rm_run fuel tasks = Some (st, cells) ->
  t ∈ tasks ->
  never_cut fuel tasks t (rm_init tasks) 0 = true ->
  true_bits (row (scheduling st) (id t))
  = Z.max (executionTime t) 1 * Zceil_div cells (period t).
Proof.
  intros Hnd Hpos Hrun Ht Hcut. unfold rm_run in Hrun.
  pose proof (rm_loop_exact tasks t Hnd Ht _ _ _ _ _ (rm_init_exact tasks t Hnd Ht)
                Hcut Hrun) as Hinv.
  assert (Hnn : forall t, t ∈ tasks -> 0 <= period t)
    by (intros t' Ht'; specialize (Hpos t' Ht'); lia).
  destruct (rm_loop_task_inv tasks Hnd Hnn _ _ _ _ _ (rm_init_task_inv tasks Hnd) Hrun)
    as (Hempty & _).
  destruct (rm_loop_release tasks Hnd Hpos _ _ _ _ _ (Z.le_refl 0)
              (fun _ => rm_init_unattended tasks)
              (rm_init_release tasks Hnd Hpos) Hrun t Ht) as (Hc & r & Hn & Hr).
  unfold exact_inv, pending in Hinv. cbv zeta in Hinv.
  rewrite Hempty in Hinv. unfold contains in Hinv.
  rewrite bool_decide_eq_false_2 in Hinv by apply not_elem_of_nil.
  rewrite Hn in Hinv. rewrite Z.max_l in Hr by lia.
  specialize (Hpos t Ht).
  pose proof (Zceil_div_spec cells (period t) Hpos) as Hq.
  set (q := Zceil_div cells (period t)) in *. clearbody q.
  set (b := true_bits _) in *. clearbody b.
  set (C' := Z.max _ 1) in *. clearbody C'.
  set (T := period t) in *. clearbody T.
  assert (q - 1 < r) by nia. assert (r < q + 1) by nia.
  assert (q = r) by lia. subst q. nia.
Qed.

(** C3, as stated, fails, in two ways.  The simulation does not run for a
    hyperperiod but stops at the first cell boundary at which no task is
    pending: for [(1,5,5),(1,7,7)] it stops after 2 cells with one [true]
    bit per task, while [executionTime * (hyperperiod / period)] is 7 and
    5.  And the count is not the product of the execution time and the
    number of periods begun either, when an instance is cut by the next
    release of its task: for [(3,10,10),(1,2,2)] the run takes 4 cells, the
    second task is released again at cell 2 before it has run, and it has
    1 [true] bit where [1 * ceil(4 / 2)] is 2. *)
Lemma C3_no_hyperperiod_and_cut_instances :
  (exists t1 t2 st,
     parseSystemTasks 2 "(1,5,5),(1,7,7)" = inr [t1; t2]
     /\ rm_run 3 [t1; t2] = Some (st, 2)
     /\ getHyperperiod [t1; t2] = 35
     /\ row (scheduling st) (id t1) = [true; false]
     /\ row (scheduling st) (id t2) = [false; true]
     /\ true_bits (row (scheduling st) (id t1)) = 1
     /\ executionTime t1 * (getHyperperiod [t1; t2] / period t1) = 7
     /\ true_bits (row (scheduling st) (id t2)) = 1
     /\ executionTime t2 * (getHyperperiod [t1; t2] / period t2) = 5)
  /\ (exists t1 t2 st,
        parseSystemTasks 2 "(3,10,10),(1,2,2)" = inr [t1; t2]
        /\ rm_run 5 [t1; t2] = Some (st, 4)
        /\ row (scheduling st) (id t1) = [true; true; true; false]
        /\ row (scheduling st) (id t2) = [false; false; false; true]
        /\ cut 2 (rm_cell [t1; t2] 1 (rm_cell [t1; t2] 0 (rm_init [t1; t2]))) t2 = true
        /\ never_cut 5 [t1; t2] t2 (rm_init [t1; t2]) 0 = false
        /\ true_bits (row (scheduling st) (id t2)) = 1
        /\ Z.max (executionTime t2) 1 * Zceil_div 4 (period t2) = 2).
Proof.
  split.
  - do 3 eexists. split; [vm_compute; reflexivity|].
    split; [vm_compute; reflexivity|].
    repeat (split; [vm_compute; reflexivity|]). vm_compute; reflexivity.
  - do 3 eexists. split; [vm_compute; reflexivity|].
    split; [vm_compute; reflexivity|].
    repeat (split; [vm_compute; reflexivity|]). vm_compute; reflexivity.
Qed.

(** C3, amended.  For every system that the parser returns with positive
    periods, when the simulation terminates after [cells] cells, the number
    [b] of [true] bits of a task with execution time [C] and period [T]
    satisfies [max C 1 <= b <= max C 1 * ceil(cells / T)]: every instance
    released takes at most [max C 1] cells and the last one takes exactly
    that many.  The upper bound is reached, [b = max C 1 * ceil(cells / T)],
    by every task none of whose instances is cut by its next release; in
    particular [b = max C 1] for a task whose period is not shorter than
    the run.  The run ends when no task is pending. *)
Theorem C3_true_bits_per_period (defaultDecimals : nat) (system : string)
    (tasks : list RTTask) (fuel : nat) (st : rm_state) (cells : Z) :
  parseSystemTasks defaultDecimals system = inr tasks ->
  (forall t, t ∈ tasks -> 0 < period t) ->
  rm_run fuel tasks = Some (st, cells) ->
  getRMScheduling fuel tasks = Some (scheduling st, executionOrder st)
  /\ cells = Z.of_nat (length (executionOrder st))
  /\ unattendendTasks st = []
  /\ forall t, t ∈ tasks ->
       let b := true_bits (row (scheduling st) (id t)) in
       let C' := Z.max (executionTime t) 1 in
       C' <= b <= C' * Zceil_div cells (period t)
       /\ (cells <= period t -> b = C')
       /\ (never_cut fuel tasks t (rm_init tasks) 0 = true ->
           b = C' * Zceil_div cells (period t)).
Proof.
  intros Hparse Hpos Hrun.
  destruct (parseSystemTasks_tasks _ _ _ Hparse) as (_ & Hnd & _).
  destruct (rm_run_true_bits fuel tasks st cells Hnd Hpos Hrun) as (H1 & H2 & H3 & H4).
  split; [exact H1|]. split; [exact H2|]. split; [exact H3|].
  intros t Ht. cbv zeta. destruct (H4 t Ht) as [Hrange Hshort].
  split; [exact Hrange|]. split; [exact Hshort|].
  intros Hcut. exact (rm_run_true_bits_exact fuel tasks st cells t Hnd Hpos Hrun Ht Hcut).
Qed.

(** C3 on the system of the input box: 7 cells; no instance is cut, and
    every task has [max C 1 * ceil(7 / T)] [true] bits, 2 for the first
    task, of period 5. *)
Lemma C3_true_bits_per_period_witness :
  exists tasks st,
    parseSystemTasks 2 "(1,5,5),(1,7,7),(1,12,12),(1,14,14),(2,25,25)" = inr tasks
    /\ rm_run 8 tasks = Some (st, 7)
    /\ true_bits (row (scheduling st) 1) = 2
    /\ forall t, t ∈ tasks ->
         Z.max (executionTime t) 1 <= true_bits (row (scheduling st) (id t))
         <= Z.max (executionTime t) 1 * Zceil_div 7 (period t)
         /\ never_cut 8 tasks t (rm_init tasks) 0 = true
         /\ true_bits (row (scheduling st) (id t))
            = Z.max (executionTime t) 1 * Zceil_div 7 (period t).
Proof.
  assert (E : exists tasks st,
            parseSystemTasks 2 "(1,5,5),(1,7,7),(1,12,12),(1,14,14),(2,25,25)" = inr tasks
            /\ rm_run 8 tasks = Some (st, 7)
            /\ true_bits (row (scheduling st) 1) = 2
            /\ forallb (fun t => 0 <? period t) tasks = true
            /\ forallb (fun t => never_cut 8 tasks t (rm_init tasks) 0) tasks = true).
  { do 2 eexists. split; [vm_compute; reflexivity|].
    split; [vm_compute; reflexivity|]. split; [vm_compute; reflexivity|].
    split; vm_compute; reflexivity. }
  destruct E as (tasks & st & Hparse & E & Hb & Hpos & Hcut). exists tasks, st.
  split; [exact Hparse|]. split; [exact E|]. split; [exact Hb|].
  assert (Hpos' : forall t, t ∈ tasks -> 0 < period t).
  { intros t Ht. rewrite forallb_forall in Hpos.
    apply Z.ltb_lt, Hpos, list_elem_of_In, Ht. }
  destruct (C3_true_bits_per_period 2 _ tasks 8 st 7 Hparse Hpos' E) as (_ & _ & _ & H).
  intros t Ht. destruct (H t Ht) as (Hrange & _ & Hexact).
  assert (Hc : never_cut 8 tasks t (rm_init tasks) 0 = true).
  { rewrite forallb_forall in Hcut. apply Hcut, list_elem_of_In, Ht. }
  split; [exact Hrange|]. split; [exact Hc|exact (Hexact Hc)].
Defined.

(** ** Parser: spaces, well-formed texts, decimal notation *)

Local Open Scope string_scope.

Lemma parse_loop_remove_spaces (defaultDecimals : nat) (system : string) :
  forall st, parse_loop defaultDecimals (remove_spaces system) st
             = parse_loop defaultDecimals system st.
Proof.
  induction system as [|c system IH]; intros st; [reflexivity|].
  cbn [remove_spaces]. destruct (Ascii.eqb c " ") eqn:E.
  - cbn [parse_loop]. rewrite E. apply IH.
  - cbn [parse_loop]. rewrite E.
    destruct (Ascii.eqb c "("); [apply IH|].
    destruct (Ascii.eqb c ")"); [apply IH|].
    destruct (Ascii.eqb c ","); [|apply IH].
    destruct (0 <? length (charStack st))%nat; [apply IH|].
    destruct (parseTask _ _ _); [reflexivity|apply IH].
Qed.

(** X1. Spaces carry no meaning anywhere in a system text, inside a number
    included: the parser returns or throws on a text what it returns or
    throws on the text with every space removed. *)
Theorem parseSystemTasks_ignores_spaces (defaultDecimals : nat) (system : string) :
  parseSystemTasks defaultDecimals system
  = parseSystemTasks defaultDecimals (remove_spaces system).
Proof.
  unfold parseSystemTasks. now rewrite parse_loop_remove_spaces.
Qed.

Lemma parse_loop_app (defaultDecimals : nat) (s1 s2 : string) :
  forall st, parse_loop defaultDecimals (s1 ++ s2) st
             = match parse_loop defaultDecimals s1 st with
               | inl e => inl e
               | inr st' => parse_loop defaultDecimals s2 st'
               end.
Proof.
  induction s1 as [|c s1 IH]; intros st; [reflexivity|].
  change (String c s1 ++ s2) with (String c (s1 ++ s2)). cbn [parse_loop].
  destruct (Ascii.eqb c " "); [apply IH|].
  destruct (Ascii.eqb c "("); [apply IH|].
  destruct (Ascii.eqb c ")"); [apply IH|].
  destruct (Ascii.eqb c ","); [|apply IH].
  destruct (0 <? length (charStack st))%nat; [apply IH|].
  destruct (parseTask _ _ _); [reflexivity|apply IH].
Qed.

Lemma append_assoc (a b c : string) : (a ++ b) ++ c = a ++ b ++ c.
Proof.
  induction a as [|x a IH]; [reflexivity|].
  change (String x ((a ++ b) ++ c) = String x (a ++ b ++ c)). now rewrite IH.
Qed.

Lemma append_nil_r (a : string) : a ++ EmptyString = a.
Proof.
  induction a as [|x a IH]; [reflexivity|].
  change (String x (a ++ EmptyString) = String x a). now rewrite IH.
Qed.

(** A run of digits is appended to the chunk being read. *)
Lemma parse_loop_digits (defaultDecimals : nat) (s : string) :
  all_digits s ->
  forall st, parse_loop defaultDecimals s st
             = inr (mkParse (charStack st) (currentTask st ++ s) (tasks st) (taskId st)).
Proof.
  unfold all_digits. induction s as [|c s IH]; intros Hs st.
  - simpl. rewrite append_nil_r. now destruct st.
  - cbn [list_ascii_of_string] in Hs. inversion Hs as [|? ? Hc Hs']; subst.
    cbn [parse_loop].
    assert (E : forall b, is_digit b = false -> Ascii.eqb c b = false).
    { intros b Hb. destruct (Ascii.eqb c b) eqn:Eb; [|reflexivity].
      apply Ascii.eqb_eq in Eb. congruence. }
    rewrite !E by reflexivity. rewrite (IH Hs'). cbn [charStack currentTask tasks taskId].
    now rewrite append_assoc.
Qed.

(** A triple of runs of digits read from an empty stack: the chunk grows
    by the text of the triple and the stack is empty again. *)
Lemma parse_loop_triple (defaultDecimals : nat) (c t d : string) :
  all_digits c -> all_digits t -> all_digits d ->
  forall cur ts i,
    parse_loop defaultDecimals (triple_text (c, t, d)) (mkParse [] cur ts i)
    = inr (mkParse [] (cur ++ triple_text (c, t, d)) ts i).
Proof.
  intros Hc Ht Hd cur ts i. unfold triple_text.
  change ("(" ++ c ++ "," ++ t ++ "," ++ d ++ ")")
    with (String "(" (c ++ String "," (t ++ String "," (d ++ ")")))).
  cbn [parse_loop Ascii.eqb Bool.eqb charStack currentTask tasks taskId app].
  rewrite parse_loop_app, (parse_loop_digits _ _ Hc).
  cbn [parse_loop Ascii.eqb Bool.eqb charStack currentTask tasks taskId length Nat.ltb Nat.leb].
  rewrite parse_loop_app, (parse_loop_digits _ _ Ht).
  cbn [parse_loop Ascii.eqb Bool.eqb charStack currentTask tasks taskId length Nat.ltb Nat.leb].
  rewrite parse_loop_app, (parse_loop_digits _ _ Hd).
  cbn [parse_loop Ascii.eqb Bool.eqb charStack currentTask tasks taskId removelast].
  do 2 f_equal. rewrite !append_assoc. reflexivity.
Qed.

Lemma span_digits_app (ds : string) (a : ascii) (rest : string) :
  all_digits ds -> is_digit a = false ->
  span_digits (ds ++ String a rest) = (ds, String a rest).
Proof.
  unfold all_digits. induction ds as [|c ds IH]; intros Hds Ha.
  - simpl. now rewrite Ha.
  - cbn [list_ascii_of_string] in Hds. inversion Hds as [|? ? Hc Hds']; subst.
    change (String c ds ++ String a rest) with (String c (ds ++ String a rest)); cbn [span_digits]. rewrite Hc, (IH Hds' Ha). reflexivity.
Qed.

Lemma group_digits_app (ds : string) (a : ascii) (rest : string) :
  digits ds -> is_digit a = false ->
  group_digits (ds ++ String a rest) = Some (ds, String a rest).
Proof.
  intros [Hds Hne] Ha. unfold group_digits. rewrite (span_digits_app _ _ _ Hds Ha).
  destruct ds; [congruence|reflexivity].
Qed.

Lemma match_here_triple (c t d : string) :
  digits c -> digits t -> digits d ->
  match_here (triple_text (c, t, d)) = Some (c, t, d).
Proof.
  intros Hc Ht Hd. unfold triple_text, match_here.
  change ("(" ++ c ++ "," ++ t ++ "," ++ d ++ ")")
    with (String "(" (c ++ String "," (t ++ String "," (d ++ String ")" EmptyString)))).
  cbn [literal Ascii.eqb Bool.eqb].
  rewrite (group_digits_app _ _ _ Hc) by reflexivity. cbn [literal Ascii.eqb Bool.eqb].
  rewrite (group_digits_app _ _ _ Ht) by reflexivity. cbn [literal Ascii.eqb Bool.eqb].
  rewrite (group_digits_app _ _ _ Hd) by reflexivity. reflexivity.
Qed.

Lemma parseTask_triple (defaultDecimals : nat) (i : Z) (c t d : string) :
  digits c -> digits t -> digits d ->
  parseTask defaultDecimals i (triple_text (c, t, d))
  = inr (new_RTTask defaultDecimals i c t d).
Proof.
  intros Hc Ht Hd. unfold parseTask.
  assert (E : regex_exec (triple_text (c, t, d))
              = Some [triple_text (c, t, d); c; t; d]).
  { pose proof (match_here_triple c t d Hc Ht Hd) as M.
    unfold triple_text in *.
    change ("(" ++ c ++ "," ++ t ++ "," ++ d ++ ")")
      with (String "(" (c ++ "," ++ t ++ "," ++ d ++ ")")) in *.
    cbn [regex_exec]. rewrite M. reflexivity. }
  rewrite E. reflexivity.
Qed.

Lemma triple_text_length (x : string * string * string) :
  (0 <? String.length (triple_text x))%nat = true.
Proof. destruct x as [[c t] d]. reflexivity. Qed.

Lemma parse_loop_triples (defaultDecimals : nat)
    (l : list (string * string * string)) :
  Forall (fun '(c, t, d) => digits c /\ digits t /\ digits d) l ->
  forall (i : Z) (ts : list RTTask),
    match parse_loop defaultDecimals (system_text l) (mkParse [] EmptyString ts i) with
    | inl e => inl e
    | inr st =>
        if (0 <? length (charStack st))%nat then inl (Thrown "Parsing failed")
        else if (0 <? String.length (currentTask st))%nat then
          match parseTask defaultDecimals (taskId st) (currentTask st) with
          | inl e => inl e
          | inr task => inr (tasks st ++ [task])%list
          end
        else inr (tasks st)
    end = inr (ts ++ tasks_of_triples defaultDecimals i l)%list.
Proof.
  induction 1 as [|[[c t] d] rest (Hc & Ht & Hd) Hrest IH]; intros i ts.
  - simpl. now rewrite app_nil_r.
  - cbn [system_text tasks_of_triples]. destruct rest as [|y rest].
    + rewrite (parse_loop_triple _ _ _ _ (proj1 Hc) (proj1 Ht) (proj1 Hd)).
      cbn [charStack currentTask tasks taskId].
      change (EmptyString ++ triple_text (c, t, d)) with (triple_text (c, t, d)).
      rewrite triple_text_length, (parseTask_triple _ _ _ _ _ Hc Ht Hd). reflexivity.
    + rewrite parse_loop_app.
      rewrite (parse_loop_triple _ _ _ _ (proj1 Hc) (proj1 Ht) (proj1 Hd)).
      change (EmptyString ++ triple_text (c, t, d)) with (triple_text (c, t, d)).
      change ("," ++ system_text (y :: rest)) with (String "," (system_text (y :: rest))).
      cbn [parse_loop Ascii.eqb Bool.eqb charStack currentTask tasks taskId
           length Nat.ltb Nat.leb].
      rewrite (parseTask_triple _ _ _ _ _ Hc Ht Hd).
      specialize (IH (i + 1)%Z (ts ++ [new_RTTask defaultDecimals i c t d])%list).
      rewrite <- app_assoc in IH. exact IH.
Qed.

(** X2. A text made of triples [(c,t,d)] of non-empty runs of digits,
    separated by commas, is accepted: the parser returns one task per
    triple, in the order of the text, numbered from 1, with the fields the
    constructor reads from the three runs. *)
Theorem parseSystemTasks_accepts_triples (defaultDecimals : nat)
    (l : list (string * string * string)) :
  Forall (fun '(c, t, d) => digits c /\ digits t /\ digits d) l ->
  parseSystemTasks defaultDecimals (system_text l)
  = inr (tasks_of_triples defaultDecimals 1 l).
Proof.
  intros Hl. exact (parse_loop_triples defaultDecimals l Hl 1 []).
Qed.

Local Close Scope string_scope.

(** X2 on a text with leading zeros: [(1,5,5),(01,7,007)]. *)
Lemma parseSystemTasks_accepts_triples_witness :
  let l := [("1", "5", "5"); ("01", "7", "007")]%string in
  Forall (fun '(c, t, d) => digits c /\ digits t /\ digits d) l
  /\ parseSystemTasks 2 (system_text l) = inr (tasks_of_triples 2 1 l).
Proof.
  intros l.
  assert (H : Forall (fun '(c, t, d) => digits c /\ digits t /\ digits d) l)
    by (repeat (constructor || discriminate)).
  split; [exact H|exact (parseSystemTasks_accepts_triples 2 l H)].
Defined.











(** ** Slack calculator: candidate instants and failures *)





















Lemma demand_loop_throws (e : Z) :
  forall (n : nat) (l : list RTTask) (acc : Q),
    (length l < n)%nat -> demand_loop l n e acc = inl TypeError.
Proof.
  induction n as [|n IH]; intros l acc Hn; [lia|].
  destruct l as [|t l]; [reflexivity|]. simpl. apply IH. simpl in Hn. lia.
Qed.

(** X11. [calculateTaskSlack] called with a task index past the end of the
    task list throws a [TypeError] as soon as there is a candidate instant:
    the inner loop reads the period of [this.tasks[k]] with [k] out of
    range. *)
Theorem calculateTaskSlack_index_out_of_range (fuel : nat) (l : list RTTask)
    (task : RTTask) (responseTime : jsnum) (taskIndex : nat) (e : Z) (es : list Z) :
  (length l <= taskIndex)%nat ->
  getSlackExpirations fuel l (period task) responseTime (executionTime task)
  = Some (e :: es) ->
  calculateTaskSlack fuel l task responseTime taskIndex = Some (inl TypeError).
Proof.
  intros Hidx Hexp. unfold calculateTaskSlack. rewrite Hexp.
  cbn [slacks_loop]. rewrite demand_loop_throws by lia. reflexivity.
Qed.

(** X11 at the system [(1,5,5),(1,7,7)], second task, with index 2. *)
Lemma calculateTaskSlack_index_out_of_range_witness :
  calculateTaskSlack 7 [mkRTTask 1 1 5 5 0; mkRTTask 2 1 7 7 0]
    (mkRTTask 2 1 7 7 0) (Fin 2) 2 = Some (inl TypeError).
Proof.
  apply (calculateTaskSlack_index_out_of_range 7
           [mkRTTask 1 1 5 5 0; mkRTTask 2 1 7 7 0] (mkRTTask 2 1 7 7 0) (Fin 2) 2 7 []);
    [simpl; lia|vm_compute; reflexivity].
Defined.

(** ** Hyperbolic test and hyperperiod *)

Lemma fold_left_Qmult (l : list Q) (x : Q) :
  (fold_left Qmult l x == x * fold_right Qmult 1 l)%Q.
Proof.
  revert x. induction l as [|y l IH]; intros x; simpl; [ring|].
  rewrite IH. ring.
Qed.

Lemma math_prod_hyperbolic (tasks : list RTTask) :
  tasks <> [] ->
  exists product,
    math_prod (map (fun o => (fu o + 1)%Q) tasks) = inr product
    /\ (product == hyperbolic_product tasks)%Q.
Proof.
  destruct tasks as [|t l]; [congruence|]. intros _. cbn [map math_prod].
  eexists. split; [reflexivity|]. rewrite fold_left_Qmult. unfold hyperbolic_product.
  cbn [fold_right]. apply Qmult_comp; [reflexivity|].
  induction l as [|t' l IH]; simpl; [reflexivity|]. now rewrite IH.
Qed.

Lemma hyperbolic_product_ge_1 (tasks : list RTTask) :
  Forall (fun t => (0 <= fu t)%Q) tasks -> (1 <= hyperbolic_product tasks)%Q.
Proof.
  unfold hyperbolic_product.
  induction 1 as [|t l Ht _ IH]; simpl; [apply Qle_refl|].
  set (p := fold_right _ _ l) in *. clearbody p. Lqa.nra.
Qed.

(** [math.round(x, 2) <= 2] exactly when [x < 2.005]. *)
Lemma math_round_2_le_2 (x : Q) :
  Qle_bool (math_round x 2) 2 = true <-> (x < 2005 # 1000)%Q.
Proof.
  unfold math_round. change (inject_Z (10 ^ Z.of_nat 2)) with (100 # 1)%Q.
  rewrite Qle_bool_iff.
  pose proof (Qfloor_le (x * (100 # 1) + (1 # 2))) as Hle.
  pose proof (Qlt_floor (x * (100 # 1) + (1 # 2))) as Hlt.
  set (f := Qfloor _) in *. clearbody f.
  assert (Heq : (inject_Z f / (100 # 1) == inject_Z f * (1 # 100))%Q) by reflexivity.
  assert (E : (inject_Z f / (100 # 1) <= 2 <-> inject_Z f <= 200 # 1)%Q).
  { rewrite Heq. split; intros H; Lqa.lra. }
  rewrite E. change (200 # 1)%Q with (inject_Z 200). rewrite <- Zle_Qle.
  split; intros H.
  - assert (H' : (inject_Z (f + 1) <= inject_Z 201)%Q) by (rewrite <- Zle_Qle; lia).
    change (inject_Z 201) with (201 # 1)%Q in H'. Lqa.lra.
  - destruct (Z_le_gt_dec f 200) as [Hf|Hf]; [exact Hf|exfalso].
    assert (H' : (inject_Z 201 <= inject_Z f)%Q) by (rewrite <- Zle_Qle; lia).
    change (inject_Z 201) with (201 # 1)%Q in H'. Lqa.lra.
Qed.

(** X12. [isValidForBini] throws on a system without tasks, [math.prod]
    having nothing to multiply.  On any other system, with utilizations
    that are not negative, it compares the product of the factors [fu + 1]
    rounded to 2 decimals with 2: the test passes exactly when the product
    is below 2.005, so products between 2 and 2.005 pass it. *)
Theorem isValidForBini_threshold (tasks : list RTTask) :
  (tasks = [] -> isValidForBini tasks = inl MathError)
  /\ (tasks <> [] -> Forall (fun t => (0 <= fu t)%Q) tasks ->
      exists product,
        math_prod (map (fun o => (fu o + 1)%Q) tasks) = inr product
        /\ (product == hyperbolic_product tasks)%Q
        /\ (1 <= product)%Q
        /\ isValidForBini tasks = inr (Qle_bool (math_round product 2) 2)
        /\ (isValidForBini tasks = inr true <-> (product < 2005 # 1000)%Q)).
Proof.
  split; [now intros ->|].
  intros Hne Hfu. destruct (math_prod_hyperbolic tasks Hne) as (product & E & Hp).
  exists product. split; [exact E|]. split; [exact Hp|].
  split; [rewrite Hp; now apply hyperbolic_product_ge_1|].
  unfold isValidForBini, getBini. rewrite E. split; [reflexivity|].
  rewrite <- math_round_2_le_2. split; [now intros [= ->]|now intros ->].
Qed.

(** X12 on a task of utilization 1.004: the product 2.004 is above the
    bound 2 and passes the test. *)
Lemma isValidForBini_threshold_witness :
  let tasks := [mkRTTask 1 1004 1000 1000 (1004 # 1000)] in
  isValidForBini tasks = inr true
  /\ exists product,
       math_prod (map (fun o => (fu o + 1)%Q) tasks) = inr product
       /\ (product == hyperbolic_product tasks)%Q
       /\ (1 <= product)%Q
       /\ (2 < product)%Q
       /\ isValidForBini tasks = inr (Qle_bool (math_round product 2) 2)
       /\ (isValidForBini tasks = inr true <-> (product < 2005 # 1000)%Q).
Proof.
  intros tasks. split; [vm_compute; reflexivity|].
  destruct (proj2 (isValidForBini_threshold tasks)) as (product & E & H);
    [discriminate|repeat constructor; discriminate|].
  exists product. split; [exact E|].
  destruct H as (Hp & H1 & H2). split; [exact Hp|]. split; [exact H1|].
  split; [|exact H2]. rewrite Hp. reflexivity.
Defined.




(** ** Response times and first free slot as least solutions *)

Lemma executing_positive (l : list RTTask) :
  Forall executing_task l -> Forall positive_task l.
Proof.
  intros H. eapply Forall_impl; [exact H|]. intros t [HC HT]. split; lia.
Qed.

(** A sequence of the response-time recurrence started below a value that
    the recurrence does not raise stays below it. *)
Lemma response_iterate_upper_bound tasks task taskIndex (s y : Z) :
  Forall positive_task tasks ->
  s <= y ->
  executionTime task + demand_sum y (take taskIndex tasks) <= y ->
  forall k, exists z, response_iterate tasks task taskIndex (Fin s) k = Fin z /\ z <= y.
Proof.
  intros Hpos Hs Hy. induction k as [|k (z & Hz & Hle)]; [now exists s|].
  change (response_iterate tasks task taskIndex (Fin s) (S k))
    with (response_step tasks task taskIndex
            (response_iterate tasks task taskIndex (Fin s) k)).
  rewrite Hz, response_step_Fin by assumption.
  eexists. split; [reflexivity|].
  pose proof (demand_sum_mono z y (take taskIndex tasks) (Forall_take _ _ _ Hpos) Hle).
  lia.
Qed.

(** The demand of a prefix that ends with a task, at a positive instant:
    the last task counts once at least. *)
Lemma demand_sum_take_S (l : list RTTask) (i : nat) (t : RTTask) (y : Z) :
  Forall positive_task l -> l !! i = Some t -> 1 <= y ->
  executionTime t + demand_sum y (take i l) <= demand_sum y (take (S i) l).
Proof.
  intros Hpos Hi Hy. rewrite (take_S_r _ _ _ Hi), demand_sum_app. simpl.
  rewrite Forall_forall in Hpos.
  destruct (Hpos t) as [HC HT]; [apply list_elem_of_lookup; eauto|].
  pose proof (Zceil_div_pos y (period t) HT Hy). nia.
Qed.

Lemma getTaskTiming_least (l : list RTTask) :
  Forall executing_task l ->
  (forall r, r ∈ getTaskTiming l -> r <> Fin (-1)) ->
  forall i task x, l !! i = Some task ->
    getTaskTiming l !! i = Some (Fin x) ->
    forall y, 0 <= y -> executionTime task + demand_sum y (take i l) <= y -> x <= y.
Proof.
  intros Hex Hsent. pose proof (executing_positive l Hex) as Hpos.
  destruct (getTaskTiming_chain l) as (Hlen & Hfirst & Hnext).
  pose proof (getTaskTiming_monotone l Hpos Hsent) as Hmono.
  pose proof Hex as Hall. rewrite Forall_forall in Hall.
  induction i as [|i IH]; intros task x Hi Hx y Hy0 Hy.
  - rewrite (Hfirst task Hi) in Hx. injection Hx as <-.
    rewrite take_0 in Hy. simpl in Hy. lia.
  - destruct (lookup_lt_is_Some_2 l i) as [prev Hprev];
      [apply lookup_lt_Some in Hi; lia|].
    destruct (Hmono i prev Hprev) as (xp & Hxp & Hxp0 & _).
    destruct (Hall task) as [HC HT]; [apply list_elem_of_lookup; eauto|].
    pose proof (demand_sum_nonneg y (take (S i) l) (Forall_take _ _ _ Hpos) Hy0) as Hd.
    pose proof (demand_sum_take_S l i prev y Hpos Hprev ltac:(lia)) as Hlast.
    pose proof (demand_sum_mono (y - executionTime task) y (take i l)
                  (Forall_take _ _ _ Hpos) ltac:(lia)) as Hm.
    destruct (Hall prev) as [HCp HTp]; [apply list_elem_of_lookup; eauto|].
    pose proof (demand_sum_nonneg y (take i l) (Forall_take _ _ _ Hpos) Hy0) as Hd'.
    assert (Hseed : xp <= y - executionTime task)
      by (apply (IH prev xp Hprev Hxp); lia).
    rewrite (Hnext i task (Fin xp) Hi Hxp) in Hx. simpl jadd in Hx.
    destruct (response_from_seed_cases l task (S i) (Fin (xp + executionTime task)))
      as [Hs|(k & Hk & _)].
    { exfalso. apply (Hsent (Fin (-1))); [|reflexivity].
      apply list_elem_of_lookup. exists (S i).
      rewrite (Hnext i task (Fin xp) Hi Hxp). simpl jadd. now rewrite Hs. }
    destruct (response_iterate_upper_bound l task (S i) (xp + executionTime task) y
                Hpos ltac:(lia) Hy k) as (z & Hz & Hle).
    rewrite Hk, Hz in Hx. injection Hx as <-. exact Hle.
Qed.

Lemma safe_no_sentinel (l : list jsnum) :
  (forall r, r ∈ l -> safe_integer r) -> forall r, r ∈ l -> r <> Fin (-1).
Proof.
  intros H r Hr. destruct (H r Hr) as (x & -> & Hx & _). intros [= E]. lia.
Qed.

(** X14. With execution times of 1 at least, positive periods, and
    execution times, periods and response times that do not exceed
    [Number.MAX_SAFE_INTEGER] (so that no sentinel is among them and the
    arithmetic of the loop is exact), every response time that
    [getTaskTiming] reports is the least solution of the recurrence of its
    task: it satisfies [x = C_i + sum_{j<i} ceil(x / T_j) * C_j], and no
    instant [y >= 0] with [C_i + sum_{j<i} ceil(y / T_j) * C_j <= y] lies
    before it.  The seed taken from the previous task skips no solution. *)
Theorem getTaskTiming_least_solution (l : list RTTask) :
  Forall executing_task l ->
  Forall safe_task l ->
  (forall r, r ∈ getTaskTiming l -> safe_integer r) ->
  forall i task, l !! i = Some task ->
    exists x,
      getTaskTiming l !! i = Some (Fin x)
      /\ 0 <= x <= max_safe_integer
      /\ x = executionTime task + demand_sum x (take i l)
      /\ forall y, 0 <= y ->
           executionTime task + demand_sum y (take i l) <= y -> x <= y.
Proof.
  intros Hex _ Hsafe i task Hi.
  pose proof (safe_no_sentinel _ Hsafe) as Hsent.
  destruct (getTaskTiming_monotone l (executing_positive l Hex) Hsent i task Hi)
    as (x & Hx & _ & Hfix & _).
  exists x. split; [exact Hx|]. split.
  - destruct (Hsafe (Fin x)) as (x' & [= <-] & Hrange); [|exact Hrange].
    apply list_elem_of_lookup. eauto.
  - split; [exact Hfix|]. exact (getTaskTiming_least l Hex Hsent i task x Hi Hx).
Qed.

Lemma input_box_no_sentinel :
  let l := [mkRTTask 1 1 5 5 0; mkRTTask 2 1 7 7 0; mkRTTask 3 1 12 12 0;
            mkRTTask 4 1 14 14 0; mkRTTask 5 2 25 25 0] in
  Forall executing_task l
  /\ forall r, r ∈ getTaskTiming l -> r <> Fin (-1).
Proof.
  intros l. split; [repeat constructor; simpl; lia|].
  assert (E : getTaskTiming l = [Fin 1; Fin 2; Fin 3; Fin 4; Fin 7])
    by (vm_compute; reflexivity).
  rewrite E. intros r Hr.
  repeat (apply elem_of_cons in Hr as [->|Hr]; [discriminate|]). inversion Hr.
Qed.

Lemma input_box_safe :
  let l := [mkRTTask 1 1 5 5 0; mkRTTask 2 1 7 7 0; mkRTTask 3 1 12 12 0;
            mkRTTask 4 1 14 14 0; mkRTTask 5 2 25 25 0] in
  Forall safe_task l
  /\ forall r, r ∈ getTaskTiming l -> safe_integer r.
Proof.
  intros l. split; [repeat constructor; vm_compute; discriminate|].
  assert (E : getTaskTiming l = [Fin 1; Fin 2; Fin 3; Fin 4; Fin 7])
    by (vm_compute; reflexivity).
  rewrite E. intros r Hr.
  repeat (apply elem_of_cons in Hr as [->|Hr];
          [eexists; split; [reflexivity|split; vm_compute; discriminate]|]).
  inversion Hr.
Qed.

(** X14 at the system of the input box, fifth task: the response time 7 is
    the least solution. *)
Lemma getTaskTiming_least_solution_witness :
  let l := [mkRTTask 1 1 5 5 0; mkRTTask 2 1 7 7 0; mkRTTask 3 1 12 12 0;
            mkRTTask 4 1 14 14 0; mkRTTask 5 2 25 25 0] in
  exists x,
    getTaskTiming l !! 4%nat = Some (Fin x)
    /\ 0 <= x <= max_safe_integer
    /\ x = 2 + demand_sum x (take 4 l)
    /\ forall y, 0 <= y -> 2 + demand_sum y (take 4 l) <= y -> x <= y.
Proof.
  intros l. destruct input_box_no_sentinel as [Hex _].
  destruct input_box_safe as [Hsafe Hout].
  exact (getTaskTiming_least_solution l Hex Hsafe Hout 4 (mkRTTask 5 2 25 25 0) eq_refl).
Defined.

Lemma getTaskResponse_first (l : list RTTask) (task : RTTask)
    (previousTaskTime : jsnum) (iterationIndex : nat) :
  (iterationIndex mod length l = 0)%nat ->
  getTaskResponse l task previousTaskTime iterationIndex = Fin (executionTime task).
Proof.
  intros Hidx. unfold getTaskResponse. rewrite Hidx.
  unfold response_from_seed.
  assert (Hstep : forall s, response_step l task 0 s = Fin (executionTime task))
    by (intros s; unfold response_step; now rewrite take_0).
  change (maxIterations - 1)%nat with (S (S 47)). generalize 47%nat. intros p.
  cbn [response_loop]. rewrite !Hstep.
  destruct (jeqb (jadd previousTaskTime (Fin (executionTime task)))
              (Fin (executionTime task))) eqn:E; cbn [negb andb]; [reflexivity|].
  change (1 <? maxIterations)%nat with true. cbn [jeqb]. rewrite Z.eqb_refl.
  reflexivity.
Qed.

(** X15. A task with no task before it in the recurrence, one asked for
    with an iteration index that is a multiple of the number of tasks, has
    its own execution time as response time, whatever the previous task
    time it is seeded with: at most two passes are made. *)
Theorem getTaskResponse_highest_priority (l : list RTTask) (task : RTTask)
    (previousTaskTime : jsnum) (iterationIndex : nat) :
  (iterationIndex mod length l = 0)%nat ->
  getTaskResponse l task previousTaskTime iterationIndex = Fin (executionTime task).
Proof. apply getTaskResponse_first. Qed.

(** X15 at a system of two tasks, index 2, seeded with [NaN]. *)
Lemma getTaskResponse_highest_priority_witness :
  getTaskResponse [mkRTTask 1 1 5 5 0; mkRTTask 2 1 7 7 0] (mkRTTask 1 1 5 5 0) NaN 2
  = Fin 1.
Proof.
  apply (getTaskResponse_highest_priority
           [mkRTTask 1 1 5 5 0; mkRTTask 2 1 7 7 0] (mkRTTask 1 1 5 5 0) NaN 2).
  reflexivity.
Defined.

(** The seed of [getFirstFreeSlot] of a system of executing tasks without
    sentinel: 1 plus the least solution of the last task. *)
Lemma slot_seed_last (l : list RTTask) :
  l <> [] ->
  Forall executing_task l ->
  (forall r, r ∈ getTaskTiming l -> r <> Fin (-1)) ->
  exists x,
    slot_seed l = Fin (1 + x)
    /\ 0 <= x
    /\ 1 + x <= 1 + demand_sum (1 + x) l
    /\ forall y, 0 <= y -> 1 + demand_sum y l <= y -> 1 + x <= y.
Proof.
  intros Hne Hex Hsent. pose proof (executing_positive l Hex) as Hpos.
  destruct (getTaskTiming_chain l) as (Hlen & _).
  assert (Hn : (0 < length l)%nat) by (destruct l; [congruence|simpl; lia]).
  destruct (lookup_lt_is_Some_2 l (pred (length l))) as [tl Htl]; [lia|].
  destruct (getTaskTiming_monotone l Hpos Hsent _ tl Htl) as (x & Hx & Hx0 & Hfix & _).
  pose proof (getTaskTiming_least l Hex Hsent _ tl x Htl Hx) as Hleast.
  assert (Hl : take (S (pred (length l))) l = l) by (apply take_ge; lia).
  exists x. split; [|split; [exact Hx0|split]].
  - unfold slot_seed. rewrite last_lookup, Hlen, Hx. reflexivity.
  - pose proof (demand_sum_take_S l _ tl (1 + x) Hpos Htl ltac:(lia)) as Hlast.
    rewrite Hl in Hlast.
    pose proof (demand_sum_mono x (1 + x) (take (pred (length l)) l)
                  (Forall_take _ _ _ Hpos) ltac:(lia)).
    lia.
  - intros y Hy0 Hy.
    pose proof (demand_sum_nonneg y l Hpos Hy0) as Hd.
    pose proof (demand_sum_take_S l _ tl y Hpos Htl ltac:(lia)) as Hlast.
    rewrite Hl in Hlast.
    pose proof (demand_sum_mono (y - 1) y (take (pred (length l)) l)
                  (Forall_take _ _ _ Hpos) ltac:(lia)).
    pose proof (demand_sum_nonneg (y - 1) (take (pred (length l)) l)
                  (Forall_take _ _ _ Hpos)).
    rewrite Forall_forall in Hex.
    destruct (Hex tl) as [HC HT]; [apply list_elem_of_lookup; eauto|].
    assert (x <= y - 1) by (apply Hleast; lia). lia.
Qed.

(** From a seed that the recurrence does not lower, the sequence of the
    first-free-slot recurrence never decreases, and stays below every value
    above the seed that the recurrence does not raise. *)
Lemma slot_iterate_climbs (l : list RTTask) (s : Z) :
  Forall positive_task l ->
  s <= 1 + demand_sum s l ->
  forall k, exists z,
    slot_iterate l (Fin s) k = Fin z
    /\ s <= z /\ z <= 1 + demand_sum z l
    /\ forall y, s <= y -> 1 + demand_sum y l <= y -> z <= y.
Proof.
  intros Hpos Hs. induction k as [|k (z & Hz & Hsz & Hup & Hbound)].
  - exists s. split; [reflexivity|]. split; [lia|]. split; [exact Hs|]. auto.
  - change (slot_iterate l (Fin s) (S k)) with (slot_step l (slot_iterate l (Fin s) k)).
    rewrite Hz, slot_step_Fin by assumption.
    eexists. split; [reflexivity|].
    pose proof (demand_sum_mono z (1 + demand_sum z l) l Hpos Hup).
    split; [lia|]. split; [lia|].
    intros y Hy Hpost. specialize (Hbound y Hy Hpost).
    pose proof (demand_sum_mono z y l Hpos Hbound). lia.
Qed.

Lemma getFirstFreeSlot_least (l : list RTTask) :
  l <> [] ->
  Forall executing_task l ->
  (forall r, r ∈ getTaskTiming l -> r <> Fin (-1)) ->
  forall fuel m, getFirstFreeSlot fuel l = Some m ->
    exists x, m = Fin x /\ 1 <= x /\ x = 1 + demand_sum x l
              /\ forall y, 0 <= y -> 1 + demand_sum y l <= y -> x <= y.
Proof.
  intros Hne Hex Hsent fuel m H. pose proof (executing_positive l Hex) as Hpos.
  destruct (slot_seed_last l Hne Hex Hsent) as (x & Hseed & Hx0 & Hup & Hlow).
  unfold getFirstFreeSlot in H. rewrite Hseed in H.
  destruct (slot_loop_spec _ _ _ _ H) as (k & _ & Hm & Hfix & _).
  destruct (slot_iterate_climbs l (1 + x) Hpos Hup k) as (z & Hz & Hsz & _ & Hbound).
  rewrite Hz in Hm. subst m. apply jeqb_eq in Hfix.
  rewrite slot_step_Fin in Hfix by assumption. injection Hfix as Hfix.
  exists z. split; [reflexivity|]. split; [lia|]. split; [exact Hfix|].
  intros y Hy0 Hy. apply Hbound; [now apply Hlow|exact Hy].
Qed.

(** X16. For a system of tasks with execution times of 1 at least,
    positive periods, and execution times, periods and response times that
    do not exceed [Number.MAX_SAFE_INTEGER]: a value that [getFirstFreeSlot]
    returns within that range is the least solution of
    [m = 1 + sum_j ceil(m / T_j) * C_j], no instant [y >= 0] with
    [1 + sum_j ceil(y / T_j) * C_j <= y] lying before it; and the loop does
    return, a value that is not after [y], as soon as such an instant [y]
    exists within that range. *)
Theorem getFirstFreeSlot_least_solution (l : list RTTask) :
  l <> [] ->
  Forall executing_task l ->
  Forall safe_task l ->
  (forall r, r ∈ getTaskTiming l -> safe_integer r) ->
  (forall fuel m, getFirstFreeSlot fuel l = Some m -> safe_integer m ->
     exists x, m = Fin x /\ 1 <= x /\ x = 1 + demand_sum x l
               /\ forall y, 0 <= y -> 1 + demand_sum y l <= y -> x <= y)
  /\ (forall y, 0 <= y <= max_safe_integer -> 1 + demand_sum y l <= y ->
        exists x, getFirstFreeSlot (Z.to_nat y + 1) l = Some (Fin x)
                  /\ 1 <= x <= y /\ x = 1 + demand_sum x l).
Proof.
  intros Hne Hex _ Hsafe. pose proof (executing_positive l Hex) as Hpos.
  pose proof (safe_no_sentinel _ Hsafe) as Hsent.
  split.
  - intros fuel m H _. exact (getFirstFreeSlot_least l Hne Hex Hsent fuel m H).
  - intros y [Hy0 _] Hy.
    destruct (slot_seed_last l Hne Hex Hsent) as (x & Hseed & Hx0 & Hup & Hlow).
    unfold getFirstFreeSlot. rewrite Hseed.
    destruct (slot_loop_up l y Hpos Hy (Z.to_nat y + 1) (1 + x) Hup
                (Hlow y Hy0 Hy) ltac:(lia)) as (m & Hm & Hrange).
    exists m. split; [exact Hm|]. split; [lia|].
    destruct (slot_loop_spec _ _ _ _ Hm) as (_ & _ & _ & Hfix & _).
    apply jeqb_eq in Hfix. rewrite slot_step_Fin in Hfix by assumption. congruence.
Qed.

(** X16 at the system of the input box: 9 is the first free slot, and 9 is
    the least solution. *)
Lemma getFirstFreeSlot_least_solution_witness :
  let l := [mkRTTask 1 1 5 5 0; mkRTTask 2 1 7 7 0; mkRTTask 3 1 12 12 0;
            mkRTTask 4 1 14 14 0; mkRTTask 5 2 25 25 0] in
  getFirstFreeSlot 3 l = Some (Fin 9)
  /\ (exists x, Fin 9 = Fin x /\ 1 <= x /\ x = 1 + demand_sum x l
                /\ forall y, 0 <= y -> 1 + demand_sum y l <= y -> x <= y)
  /\ exists x, getFirstFreeSlot (Z.to_nat 9 + 1) l = Some (Fin x)
               /\ 1 <= x <= 9 /\ x = 1 + demand_sum x l.
Proof.
  intros l. destruct input_box_no_sentinel as [Hex _].
  destruct input_box_safe as [Hsafe Hout].
  assert (H : getFirstFreeSlot 3 l = Some (Fin 9)) by (vm_compute; reflexivity).
  destruct (getFirstFreeSlot_least_solution l ltac:(discriminate) Hex Hsafe Hout)
    as (Hleast & Hterm).
  split; [exact H|]. split.
  - apply (Hleast 3%nat (Fin 9) H).
    eexists. split; [reflexivity|split; vm_compute; discriminate].
  - apply (Hterm 9); [split; vm_compute; discriminate|vm_compute; discriminate].
Defined.

(** The ceiling-based demand at an instant is at least the instant times
    the utilization. *)
Lemma demand_sum_utilization (l : list RTTask) (y : Z) :
  Forall positive_task l -> 0 <= y ->
  (inject_Z y * exact_utilization l <= inject_Z (demand_sum y l))%Q.
Proof.
  intros Hpos Hy. unfold exact_utilization.
  induction Hpos as [|t l [HC HT] _ IH]; cbn [fold_right demand_sum].
  - change (inject_Z 0) with 0%Q. rewrite Qmult_0_r. apply Qle_refl.
  - replace (0 <? period t) with true by (symmetry; apply Z.ltb_lt; exact HT).
    set (u := fold_right _ _ l) in *. clearbody u.
    rewrite inject_Z_plus.
    assert (Hterm : (inject_Z y * (inject_Z (executionTime t) / inject_Z (period t))
                     <= inject_Z (Zceil_div y (period t) * executionTime t))%Q).
    { assert (HTq : (0 < inject_Z (period t))%Q)
        by (change 0%Q with (inject_Z 0); now rewrite <- Zlt_Qlt).
      assert (E : (inject_Z y * (inject_Z (executionTime t) / inject_Z (period t))
                   == inject_Z (y * executionTime t) / inject_Z (period t))%Q)
        by (rewrite inject_Z_mult; field; Lqa.lra).
      rewrite E. apply Qle_shift_div_r; [exact HTq|].
      rewrite <- inject_Z_mult, <- Zle_Qle.
      pose proof (Zceil_div_spec y (period t) HT). nia. }
    cbv iota. rewrite Qmult_plus_distr_r.
    eapply Qplus_le_compat; [exact Hterm|exact IH].
Qed.

(** X17. A system of executing tasks whose utilization [sum_j C_j / T_j]
    is 1 or more has no first free slot: every pass of the loop of
    [getFirstFreeSlot] raises the value, so that, with execution times,
    periods and response times that do not exceed
    [Number.MAX_SAFE_INTEGER], nothing that [getFirstFreeSlot] may return
    is an integer of that range. *)
Theorem getFirstFreeSlot_no_slot_when_fully_utilized (l : list RTTask) :
  l <> [] ->
  Forall executing_task l ->
  Forall safe_task l ->
  (forall r, r ∈ getTaskTiming l -> safe_integer r) ->
  (1 <= exact_utilization l)%Q ->
  (forall y, 0 <= y -> y < 1 + demand_sum y l)
  /\ forall fuel m, getFirstFreeSlot fuel l = Some m -> ~ safe_integer m.
Proof.
  intros Hne Hex _ Hsafe HU. pose proof (safe_no_sentinel _ Hsafe) as Hsent.
  assert (Hraise : forall y, 0 <= y -> y < 1 + demand_sum y l).
  { intros y Hy.
    pose proof (demand_sum_utilization l y (executing_positive l Hex) Hy) as Hd.
    assert (Hq : (0 <= inject_Z y)%Q)
      by (change 0%Q with (inject_Z 0); now rewrite <- Zle_Qle).
    assert (Hle : (inject_Z y <= inject_Z (demand_sum y l))%Q).
    { set (u := exact_utilization l) in *. clearbody u.
      set (q := inject_Z y) in *. clearbody q. Lqa.nra. }
    rewrite <- Zle_Qle in Hle. lia. }
  split; [exact Hraise|].
  intros fuel m E _.
  destruct (getFirstFreeSlot_least l Hne Hex Hsent fuel m E) as (x & _ & Hx1 & Hfix & _).
  specialize (Hraise x ltac:(lia)). lia.
Qed.

(** X17 at the system [(1,2,2),(1,2,2)], of utilization 1 and response
    times 1 and 2. *)
Lemma getFirstFreeSlot_no_slot_when_fully_utilized_witness :
  let l := [mkRTTask 1 1 2 2 (1 # 2); mkRTTask 2 1 2 2 (1 # 2)] in
  (forall y, 0 <= y -> y < 1 + demand_sum y l)
  /\ forall fuel m, getFirstFreeSlot fuel l = Some m -> ~ safe_integer m.
Proof.
  intros l. apply (getFirstFreeSlot_no_slot_when_fully_utilized l).
  - discriminate.
  - repeat constructor; simpl; lia.
  - repeat constructor; vm_compute; discriminate.
  - assert (E : getTaskTiming l = [Fin 1; Fin 2]) by (vm_compute; reflexivity).
    rewrite E. intros r Hr.
    repeat (apply elem_of_cons in Hr as [->|Hr];
            [eexists; split; [reflexivity|split; vm_compute; discriminate]|]).
    inversion Hr.
  - vm_compute. discriminate.
Defined.

(** ** Rate-monotonic simulation: overload and priority *)

Lemma rm_task_overrun_self (cell : Z) (st : rm_state) (t : RTTask) :
  0 < period t < executionTime t ->
  overrun_inv cell st t -> overrun_inv (cell + 1) (rm_task cell st t) t.
Proof.
  intros HT. unfold overrun_inv, rm_task, rm_release, rm_select, pending.
  intros (Hp & Hk & Hn & Hsum).
  destruct (cell =? counter (nextStart st) (id t)) eqn:Ecell;
    [apply Z.eqb_eq in Ecell|apply Z.eqb_neq in Ecell];
    cbn [unattendendTasks executionCount nextStart scheduling executionOrder selectedTask];
    destruct (bool_decide (selectedTask st = None)); cbn [andb];
    rewrite ?contains_app, ?Hp; cbn [orb];
    cbn [unattendendTasks executionCount nextStart scheduling executionOrder selectedTask];
    rewrite ?counter_insert, ?decide_True by reflexivity;
    try (destruct (executionTime t <=? _) eqn:EC;
         [apply Z.leb_le in EC|apply Z.leb_gt in EC]);
    cbn [unattendendTasks executionCount nextStart scheduling executionOrder selectedTask];
    rewrite ?contains_difference, ?contains_app, ?Hp, ?counter_insert,
      ?decide_True by reflexivity;
    cbn [andb orb negb]; try lia; (split; [reflexivity|lia]).
Qed.

Lemma rm_task_overrun_other (cell c : Z) (st : rm_state) (t t' : RTTask) :
  id t' <> id t -> overrun_inv c st t -> overrun_inv c (rm_task cell st t') t.
Proof.
  intros Hne. unfold overrun_inv.
  destruct (rm_task_other cell st t t' Hne) as (-> & _ & -> & ->). auto.
Qed.

Lemma rm_loop_overrun (l : list RTTask) (t : RTTask) :
  NoDup (map id l) -> t ∈ l -> 0 < period t < executionTime t ->
  forall (fuel : nat) (st : rm_state) (cell : Z),
    overrun_inv cell st t -> rm_loop fuel l st cell = None.
Proof.
  intros Hnd Ht HT. induction fuel as [|fuel IH]; intros st cell Hinv; [reflexivity|].
  cbn [rm_loop].
  assert (Hpend : (0 <? length (unattendendTasks st))%nat = true).
  { destruct Hinv as (Hp & _). unfold pending, contains in Hp.
    apply bool_decide_eq_true in Hp. apply Nat.ltb_lt.
    destruct (unattendendTasks st); [inversion Hp|simpl; lia]. }
  rewrite Hpend. apply IH. unfold rm_cell.
  apply (rm_fold_one_task (fun s => overrun_inv cell s t)
           (fun s => overrun_inv (cell + 1) s t) cell t); try assumption.
  - intros s t' Hne. now apply rm_task_overrun_other.
  - intros s t' Hne. now apply rm_task_overrun_other.
  - intros s. now apply rm_task_overrun_self.
Qed.

Lemma rm_run_overrun (l : list RTTask) (t : RTTask) :
  NoDup (map id l) -> t ∈ l -> 0 < period t < executionTime t ->
  forall fuel, rm_run fuel l = None.
Proof.
  intros Hnd Ht HT fuel. unfold rm_run.
  apply (rm_loop_overrun l t Hnd Ht HT).
  unfold overrun_inv, pending, rm_init.
  destruct (rm_init_fold l (mkRM (map id l) ∅ ∅ ∅ [] None))
    as (Hu & _ & _ & Hc & _ & Hp).
  cbv zeta in *. rewrite Hu, Hc, Hp by auto. cbn [unattendendTasks].
  unfold contains. rewrite bool_decide_eq_true_2 by now apply id_elem_of_map.
  split; [reflexivity|lia].
Qed.

(** X18. A task whose execution time exceeds its positive period is always
    released again before it completes, so it stays among the unattended
    tasks: on a system with distinct ids that holds such a task the [while]
    loop of [getRMScheduling] has no exit, whatever the number of cells. *)
Theorem getRMScheduling_never_returns_on_overrun (l : list RTTask) (t : RTTask) :
  NoDup (map id l) -> t ∈ l -> 0 < period t < executionTime t ->
  forall fuel, getRMScheduling fuel l = None.
Proof.
  intros Hnd Ht HT fuel. unfold getRMScheduling.
  now rewrite (rm_run_overrun l t Hnd Ht HT).
Qed.

(** X18 at the system [(1,5,5),(3,2,2)], with 1000 cells. *)
Lemma getRMScheduling_never_returns_on_overrun_witness :
  getRMScheduling 1000 [mkRTTask 1 1 5 5 0; mkRTTask 2 3 2 2 0] = None.
Proof.
  apply (getRMScheduling_never_returns_on_overrun
           [mkRTTask 1 1 5 5 0; mkRTTask 2 3 2 2 0] (mkRTTask 2 3 2 2 0)).
  - compute_done.
  - right; left.
  - simpl. lia.
Defined.

Lemma rm_task_selected (cell : Z) (st : rm_state) (t : RTTask) :
  selectedTask (rm_task cell st t)
  = (if bool_decide (selectedTask st = None) && ready cell st t
     then Some t else selectedTask st)
  /\ executionOrder (rm_task cell st t)
     = (if bool_decide (selectedTask st = None) && ready cell st t
        then executionOrder st ++ [id t] else executionOrder st).
Proof.
  unfold rm_task, rm_release, rm_select, ready, pending.
  destruct (cell =? counter (nextStart st) (id t));
    cbn [unattendendTasks executionCount nextStart scheduling executionOrder selectedTask];
    destruct (bool_decide (selectedTask st = None)); cbn [andb];
    rewrite ?contains_app, ?(bool_decide_eq_true_2 (id t = id t)), ?orb_true_r,
      ?orb_false_r by reflexivity;
    try destruct (contains (unattendendTasks st) (id t));
    cbn [unattendendTasks executionCount nextStart scheduling executionOrder selectedTask];
    split; reflexivity.
Qed.

Lemma rm_fold_selected (cell : Z) (st0 : rm_state) :
  forall (l : list RTTask) (st : rm_state),
    NoDup (map id l) ->
    (forall t, t ∈ l -> ready cell st t = ready cell st0 t) ->
    selectedTask (foldl (rm_task cell) st l)
    = match selectedTask st with
      | Some s => Some s
      | None => find (ready cell st0) l
      end
    /\ executionOrder (foldl (rm_task cell) st l)
       = match selectedTask st with
         | Some _ => executionOrder st
         | None =>
             match find (ready cell st0) l with
             | Some s => executionOrder st ++ [id s]
             | None => executionOrder st
             end
         end.
Proof.
  induction l as [|x l IH]; intros st Hnd Hsame.
  - cbn [foldl find]. now destruct (selectedTask st).
  - simpl in Hnd. apply NoDup_cons in Hnd as [Hx Hnd]. cbn [foldl find].
    destruct (rm_task_selected cell st x) as [Hsel Hord].
    assert (Hsame' : forall t, t ∈ l ->
              ready cell (rm_task cell st x) t = ready cell st0 t).
    { intros t Ht. rewrite <- (Hsame t) by now right.
      assert (Hne : id x <> id t).
      { intros E. apply Hx. rewrite E. now apply id_elem_of_map. }
      destruct (rm_task_other cell st t x Hne) as (Hp & _ & _ & Hn).
      unfold ready. now rewrite Hp, Hn. }
    destruct (IH (rm_task cell st x) Hnd Hsame') as [IHsel IHord].
    rewrite IHsel, IHord, Hsel, Hord, <- (Hsame x) by now left.
    destruct (selectedTask st) as [s|]; cbn [andb].
    + rewrite bool_decide_eq_false_2 by discriminate. cbn [andb]. split; reflexivity.
    + rewrite bool_decide_eq_true_2 by reflexivity. cbn [andb].
      destruct (ready cell st x); split; reflexivity.
Qed.

(** X19. The priority of a task is its position in the task list, and
    nothing else: with distinct ids, the task that a cell is given to is
    the first one in the list that is pending when the cell starts or
    released at that cell, and the cell stays empty when there is none.  The
    periods play no part in the choice. *)
Theorem rm_cell_selects_first_ready (l : list RTTask) (cell : Z) (st : rm_state) :
  NoDup (map id l) ->
  selectedTask (rm_cell l cell st) = find (ready cell st) l
  /\ executionOrder (rm_cell l cell st)
     = match find (ready cell st) l with
       | Some s => executionOrder st ++ [id s]
       | None => executionOrder st
       end.
Proof.
  intros Hnd. unfold rm_cell.
  destruct (rm_fold_selected cell st l
              (mkRM (unattendendTasks st) (executionCount st) (nextStart st)
                    (scheduling st) (executionOrder st) None) Hnd) as [Hsel Hord].
  { intros t _. reflexivity. }
  cbn [selectedTask executionOrder] in Hsel, Hord. split; assumption.
Qed.

(** X19 at the first cell of the system [(1,7,7),(1,5,5)]: the first task
    is chosen although its period is the longer one. *)
Lemma rm_cell_selects_first_ready_witness :
  let l := [mkRTTask 1 1 7 7 0; mkRTTask 2 1 5 5 0] in
  find (ready 0 (rm_init l)) l = Some (mkRTTask 1 1 7 7 0)
  /\ selectedTask (rm_cell l 0 (rm_init l)) = find (ready 0 (rm_init l)) l
  /\ executionOrder (rm_cell l 0 (rm_init l))
     = match find (ready 0 (rm_init l)) l with
       | Some s => executionOrder (rm_init l) ++ [id s]
       | None => executionOrder (rm_init l)
       end.
Proof.
  intros l. split; [vm_compute; reflexivity|].
  apply (rm_cell_selects_first_ready l 0 (rm_init l)).
  compute_done.
Defined.

(** ** Liu and Layland test: a utilization that always passes *)

Local Open Scope R_scope.

Lemma exp_double_bound (x b b' : R) :
  exp x <= b -> b * b <= b' -> exp (x + x) <= b'.
Proof.
  intros Hx Hb. rewrite exp_plus. pose proof (exp_pos x) as Hp.
  apply Rle_trans with (b * b); [|exact Hb].
  apply Rmult_le_compat; Lra.lra.
Qed.

Lemma ln2_lower_bound : 685 / 1000 <= ln 2.
Proof.
  set (a := 685 / 64000).
  assert (H0 : exp a <= 101082 / 100000).
  { pose proof (exp_ineq1_le (- a)) as H. rewrite exp_Ropp in H.
    pose proof (exp_pos a) as Hp. unfold a in *.
    apply Rmult_le_reg_r with (/ exp (685 / 64000)); [now apply Rinv_0_lt_compat|].
    rewrite Rinv_r by Lra.lra. Lra.lra. }
  pose proof (exp_double_bound _ _ (102176 / 100000) H0 ltac:(Lra.lra)) as H1.
  pose proof (exp_double_bound _ _ (104400 / 100000) H1 ltac:(Lra.lra)) as H2.
  pose proof (exp_double_bound _ _ (108994 / 100000) H2 ltac:(Lra.lra)) as H3.
  pose proof (exp_double_bound _ _ (118797 / 100000) H3 ltac:(Lra.lra)) as H4.
  pose proof (exp_double_bound _ _ (141128 / 100000) H4 ltac:(Lra.lra)) as H5.
  pose proof (exp_double_bound _ _ 2 H5 ltac:(Lra.lra)) as H6.
  replace (a + a + (a + a) + (a + a + (a + a)) + (a + a + (a + a) + (a + a + (a + a)))
           + (a + a + (a + a) + (a + a + (a + a)) + (a + a + (a + a) + (a + a + (a + a))))
           + (a + a + (a + a) + (a + a + (a + a)) + (a + a + (a + a) + (a + a + (a + a)))
              + (a + a + (a + a) + (a + a + (a + a))
                 + (a + a + (a + a) + (a + a + (a + a))))))
    with (685 / 1000) in H6 by (unfold a; Lra.lra).
  rewrite <- (ln_exp (685 / 1000)).
  destruct (Rle_lt_or_eq_dec _ _ H6) as [Hlt|Heq].
  - left. apply ln_increasing; [apply exp_pos|exact Hlt].
  - right. now rewrite Heq.
Qed.

(** The bound of Liu and Layland never goes below [ln 2]. *)
Lemma liuBound_ge_ln2 (n : nat) : (0 < n)%nat -> ln 2 <= liuBound n.
Proof.
  intros Hn. unfold liuBound, Rpower. pose proof (lt_0_INR n Hn) as HN.
  pose proof (exp_ineq1_le (1 / INR n * ln 2)) as H.
  apply Rle_trans with (INR n * (1 / INR n * ln 2)).
  - right. field. Lra.lra.
  - apply Rmult_le_compat_l; Lra.lra.
Qed.

Lemma math_round_R_69 (x : R) : 685 / 1000 <= x -> 69 / 100 <= math_round_R x 2.
Proof.
  intros Hx. unfold math_round_R.
  replace (10 ^ 2) with 100 by (simpl; Lra.lra).
  destruct (base_Int_part (x * 100 + / 2)) as [_ Hhi].
  assert (Hz : (68 < Int_part (x * 100 + / 2))%Z) by (apply lt_IZR; Lra.lra).
  assert (Hz' : (69 <= Int_part (x * 100 + / 2))%Z) by lia.
  apply IZR_le in Hz'. Lra.lra.
Qed.

Lemma isValidForLiu_below_69 (defaultDecimals : nat) (l : list RTTask) :
  l <> [] ->
  (getFU defaultDecimals l <= 69 # 100)%Q ->
  isValidForLiu defaultDecimals l.
Proof.
  intros Hne HU. unfold isValidForLiu, getLiu, getN.
  apply Qle_Rle in HU.
  assert (E : Q2R (69 # 100) = 69 / 100) by (unfold Q2R; simpl; Lra.lra).
  rewrite E in HU.
  assert (Hn : (0 < length l)%nat) by (destruct l; [congruence|simpl; lia]).
  pose proof (liuBound_ge_ln2 (length l) Hn) as HL.
  pose proof ln2_lower_bound as H2.
  pose proof (math_round_R_69 (liuBound (length l)) ltac:(Lra.lra)) as HR.
  Lra.lra.
Qed.

(** X20. The bound [n * (2^(1/n) - 1)] never goes below [ln 2 > 0.685],
    so its rounding to 2 decimals is 0.69 at least: every system with a
    task whose utilization [getFU] is at most 0.69 passes [isValidForLiu],
    whatever the number of tasks. *)
Theorem isValidForLiu_up_to_69_hundredths (defaultDecimals : nat) (l : list RTTask) :
  l <> [] ->
  (getFU defaultDecimals l <= 69 # 100)%Q ->
  (ln 2 <= liuBound (length l)
   /\ 69 / 100 <= getLiu l
   /\ isValidForLiu defaultDecimals l)%R.
Proof.
  intros Hne HU.
  assert (Hn : (0 < length l)%nat) by (destruct l; [congruence|simpl; lia]).
  pose proof (liuBound_ge_ln2 (length l) Hn) as HL.
  split; [exact HL|]. split.
  - unfold getLiu, getN. apply math_round_R_69.
    pose proof ln2_lower_bound. Lra.lra.
  - now apply isValidForLiu_below_69.
Qed.

(** X20 at the system of the input box, of utilization 0.56. *)
Lemma isValidForLiu_up_to_69_hundredths_witness :
  let l := [new_RTTask 2 1 "1" "5" "5"; new_RTTask 2 2 "1" "7" "7";
            new_RTTask 2 3 "1" "12" "12"; new_RTTask 2 4 "1" "14" "14";
            new_RTTask 2 5 "2" "25" "25"] in
  (ln 2 <= liuBound (length l)
   /\ 69 / 100 <= getLiu l
   /\ isValidForLiu 2 l)%R.
Proof.
  intros l.
  apply (isValidForLiu_up_to_69_hundredths 2 l); [discriminate|].
  vm_compute. discriminate.
Defined.

Local Close Scope R_scope.

(** ** The legacy response-time solver against the capped one *)

(** From a value that the recurrence does not lower, below a value that it
    does not raise, the legacy loop climbs to a fixed point. *)
Lemma legacy_response_loop_up (l : list RTTask) (task : RTTask) (i : nat) (B : Z) :
  Forall positive_task l ->
  executionTime task + demand_sum B (take i l) <= B ->
  forall (n : nat) (x : Z),
    x <= executionTime task + demand_sum x (take i l) -> x <= B -> B - x < Z.of_nat n ->
    exists m, legacy_response_loop n l task i (Fin x) = Some (Fin m)
              /\ x <= m <= B
              /\ m = executionTime task + demand_sum m (take i l).
Proof.
  intros Hpos HB. pose proof (Forall_take _ i _ Hpos) as Hpos'.
  induction n as [|n IH]; intros x Hx HxB Hn; [lia|].
  cbn [legacy_response_loop]. rewrite response_step_Fin by assumption. cbn [jeqb].
  destruct (x =? executionTime task + demand_sum x (take i l)) eqn:E; cbn [negb].
  - apply Z.eqb_eq in E. exists x. split; [now rewrite <- E|]. split; [lia|exact E].
  - apply Z.eqb_neq in E.
    pose proof (demand_sum_mono x B (take i l) Hpos' HxB).
    pose proof (demand_sum_mono x (executionTime task + demand_sum x (take i l))
                  (take i l) Hpos' Hx).
    destruct (IH (executionTime task + demand_sum x (take i l))) as (m & Hm & Hle & Hfix);
      [lia|lia|lia|].
    exists m. split; [assumption|]. split; [lia|exact Hfix].
Qed.

Lemma legacy_response_loop_fuel (l : list RTTask) (task : RTTask) (i : nat) :
  forall fuel fuel' seed m,
    legacy_response_loop fuel l task i seed = Some m -> (fuel <= fuel')%nat ->
    legacy_response_loop fuel' l task i seed = Some m.
Proof.
  induction fuel as [|fuel IH]; intros fuel' seed m H Hle; [discriminate|].
  destruct fuel' as [|fuel']; [lia|].
  cbn [legacy_response_loop] in *. destruct (negb _); [|assumption].
  apply IH; [assumption|lia].
Qed.

(** The legacy loop, seeded with the response time of the task before,
    returns the response time that the capped solver reports. *)
Lemma legacy_response_agrees (l : list RTTask) :
  Forall executing_task l ->
  (forall r, r ∈ getTaskTiming l -> r <> Fin (-1)) ->
  forall i task xp x,
    l !! S i = Some task ->
    getTaskTiming l !! i = Some (Fin xp) ->
    getTaskTiming l !! S i = Some (Fin x) ->
    forall fuel, x - xp < Z.of_nat fuel ->
      legacy_response_loop fuel l task (S i) (Fin xp) = Some (Fin x).
Proof.
  intros Hex Hsent i task xp x Hi Hxp Hx fuel Hfuel.
  pose proof (executing_positive l Hex) as Hpos.
  destruct (lookup_lt_is_Some_2 l i) as [prev Hprev];
    [apply lookup_lt_Some in Hi; lia|].
  destruct (getTaskTiming_monotone l Hpos Hsent i prev Hprev)
    as (xp' & Hxp' & Hxp0 & Hpfix & _).
  rewrite Hxp in Hxp'. injection Hxp' as <-.
  destruct (getTaskTiming_monotone l Hpos Hsent (S i) task Hi)
    as (x' & Hx' & Hx0 & Hfix & Hmax).
  rewrite Hx in Hx'. injection Hx' as <-.
  pose proof (Hmax i xp ltac:(lia) Hxp) as Hle.
  pose proof Hex as Hall. rewrite Forall_forall in Hall.
  destruct (Hall prev) as [HCp HTp]; [apply list_elem_of_lookup; eauto|].
  destruct (Hall task) as [HC HT]; [apply list_elem_of_lookup; eauto|].
  pose proof (demand_sum_nonneg xp (take i l) (Forall_take _ i _ Hpos) Hxp0) as Hd.
  pose proof (demand_sum_take_S l i prev xp Hpos Hprev ltac:(lia)) as Hlast.
  destruct (legacy_response_loop_up l task (S i) x Hpos ltac:(lia) fuel xp
              ltac:(lia) Hle Hfuel) as (m & Hm & Hrange & Hmfix).
  rewrite Hm. do 2 f_equal.
  pose proof (getTaskTiming_least l Hex Hsent (S i) task x Hi Hx m ltac:(lia) ltac:(lia)).
  lia.
Qed.

Lemma legacy_timing_loop_agrees (l : list RTTask) :
  Forall executing_task l ->
  (forall r, r ∈ getTaskTiming l -> r <> Fin (-1)) ->
  forall (fuel : nat),
    (forall i x, getTaskTiming l !! i = Some (Fin x) -> x < Z.of_nat fuel) ->
    forall (rest : list RTTask) (i : nat) (xp : Z) (responseTimes : list jsnum),
      l = take (S i) l ++ rest ->
      responseTimes = take (S i) (getTaskTiming l) ->
      getTaskTiming l !! i = Some (Fin xp) ->
      legacy_timing_loop fuel l rest (S i) (Fin xp) responseTimes
      = Some (getTaskTiming l).
Proof.
  intros Hex Hsent fuel Hfuel. pose proof (executing_positive l Hex) as Hpos.
  destruct (getTaskTiming_chain l) as (Hlen & _).
  induction rest as [|task rest IH]; intros i xp responseTimes Hl Hr Hxp.
  - cbn [legacy_timing_loop]. rewrite Hr. f_equal. apply take_ge.
    rewrite app_nil_r in Hl. rewrite Hlen.
    rewrite Hl at 1. rewrite length_take. lia.
  - cbn [legacy_timing_loop].
    assert (Hi : l !! S i = Some task).
    { rewrite Hl. rewrite lookup_app_r by (rewrite length_take; lia).
      assert (Hlt : (S i <= length l)%nat).
      { apply lookup_lt_Some in Hxp. lia. }
      rewrite length_take. replace (S i - S i `min` length l)%nat with 0%nat by lia.
      reflexivity. }
    destruct (getTaskTiming_monotone l Hpos Hsent (S i) task Hi) as (x & Hx & Hx0 & _).
    destruct (getTaskTiming_monotone l Hpos Hsent i) with (task := default task (l !! i))
      as (xp' & Hxp' & Hxp0 & _).
    { destruct (lookup_lt_is_Some_2 l i) as [prev Hprev];
        [apply lookup_lt_Some in Hi; lia|]. now rewrite Hprev. }
    rewrite Hxp in Hxp'. injection Hxp' as <-.
    rewrite (legacy_response_agrees l Hex Hsent i task xp x Hi Hxp Hx fuel)
      by (specialize (Hfuel _ _ Hx); lia).
    apply IH.
    + rewrite (take_S_r _ _ _ Hi), <- app_assoc. exact Hl.
    + rewrite Hr. symmetry. apply take_S_r. exact Hx.
    + exact Hx.
Qed.

(** X21. The legacy [getTaskTiming], whose loop has no cap and is seeded
    with the previous response time alone, throws a [TypeError] on a system
    without tasks.  On a system of tasks with execution times of 1 at least
    and positive periods for which the capped solver reports no sentinel, it
    returns the same response times as the capped solver, as soon as it is
    allowed more passes than the greatest of them. *)
Theorem legacy_getTaskTiming_agrees (l : list RTTask) :
  (forall fuel, legacy_getTaskTiming fuel [] = Some (inl TypeError))
  /\ (l <> [] ->
      Forall executing_task l ->
      (forall r, r ∈ getTaskTiming l -> r <> Fin (-1)) ->
      forall fuel,
        (forall i x, getTaskTiming l !! i = Some (Fin x) -> x < Z.of_nat fuel) ->
        legacy_getTaskTiming fuel l = Some (inr (getTaskTiming l))).
Proof.
  split; [reflexivity|].
  intros Hne Hex Hsent fuel Hfuel.
  destruct l as [|first rest]; [congruence|]. cbn [legacy_getTaskTiming].
  destruct (getTaskTiming_chain (first :: rest)) as (_ & Hfirst & _).
  specialize (Hfirst first eq_refl).
  rewrite (legacy_timing_loop_agrees (first :: rest) Hex Hsent fuel Hfuel rest 0
             (executionTime first) [Fin (executionTime first)]);
    [reflexivity|reflexivity| |exact Hfirst].
  symmetry. exact (take_S_r _ 0 _ Hfirst).
Qed.

(** X21 at the system of the input box, with 8 passes. *)
Lemma legacy_getTaskTiming_agrees_witness :
  let l := [mkRTTask 1 1 5 5 0; mkRTTask 2 1 7 7 0; mkRTTask 3 1 12 12 0;
            mkRTTask 4 1 14 14 0; mkRTTask 5 2 25 25 0] in
  getTaskTiming l = [Fin 1; Fin 2; Fin 3; Fin 4; Fin 7]
  /\ legacy_getTaskTiming 8 l = Some (inr (getTaskTiming l)).
Proof.
  intros l. assert (E : getTaskTiming l = [Fin 1; Fin 2; Fin 3; Fin 4; Fin 7])
    by (vm_compute; reflexivity).
  split; [exact E|].
  destruct input_box_no_sentinel as [Hex Hsent].
  apply (proj2 (legacy_getTaskTiming_agrees l) ltac:(discriminate) Hex Hsent 8%nat).
  rewrite E. intros i x Hi. apply list_elem_of_lookup_2 in Hi.
  repeat (apply elem_of_cons in Hi as [[= ->]|Hi]; [simpl; lia|]). inversion Hi.
Defined.

(** ** When the cap of 50 passes is out of reach *)







(** ** A task of period 0 *)








(** ** [NaN] is never reported *)

Lemma response_from_seed_not_NaN (l : list RTTask) (task : RTTask) (i : nat)
    (seed : jsnum) :
  response_from_seed l task i seed <> NaN.
Proof.
  unfold response_from_seed.
  destruct (response_loop_result l task i (maxIterations - 1) seed 0 eq_refl)
    as (k & Hk & Hfix).
  destruct (response_loop _ _ _ _ _ _) as [iteration iterationCount]. simpl in *.
  destruct (iterationCount <? maxIterations)%nat eqn:E; [|discriminate].
  apply Nat.ltb_lt in E. specialize (Hfix E). rewrite Hk. intros HN.
  rewrite HN in Hfix. destruct (response_iterate l task i seed k); discriminate.
Qed.

Lemma getTaskTiming_not_NaN (l : list RTTask) (r : jsnum) :
  r ∈ getTaskTiming l -> r <> NaN.
Proof.
  intros Hr. apply list_elem_of_lookup in Hr as [i Hi].
  destruct (getTaskTiming_chain l) as (Hlen & Hfirst & Hnext).
  pose proof (lookup_lt_Some _ _ _ Hi) as Hlt. rewrite Hlen in Hlt.
  destruct (lookup_lt_is_Some_2 l i Hlt) as [task Htask].
  destruct i as [|i].
  - rewrite (Hfirst task Htask) in Hi. injection Hi as <-. discriminate.
  - destruct (lookup_lt_is_Some_2 (getTaskTiming l) i) as [previous Hp]; [lia|].
    rewrite (Hnext i task previous Htask Hp) in Hi. injection Hi as <-.
    apply response_from_seed_not_NaN.
Qed.

(** X24. [NaN] never passes the test [seed == iteration] that ends the
    loops, so it is never reported: no response time of [getTaskTiming] is
    [NaN], whatever the tasks, and no value that [getFirstFreeSlot] returns
    is.  On the system without tasks the seed of [getFirstFreeSlot] is
    [NaN], and the loop returns 1 on its second pass. *)
Theorem NaN_is_never_reported (l : list RTTask) :
  (forall r, r ∈ getTaskTiming l -> r <> NaN)
  /\ (forall fuel m, getFirstFreeSlot fuel l = Some m -> m <> NaN)
  /\ (slot_seed [] = NaN /\ forall fuel, getFirstFreeSlot (S (S fuel)) [] = Some (Fin 1)).
Proof.
  split; [exact (getTaskTiming_not_NaN l)|]. split.
  - intros fuel m H. unfold getFirstFreeSlot in H.
    destruct (slot_loop_spec _ _ _ _ H) as (_ & _ & _ & Hfix & _).
    intros ->. discriminate.
  - split; reflexivity.
Qed.

(** ** Response times along the task list *)

(** X25. With execution times that are not negative, positive periods, and
    execution times, periods and response times that do not exceed
    [Number.MAX_SAFE_INTEGER] (so that no sentinel is among them and the
    arithmetic of the loop is exact), every response time solves the
    recurrence of its task, and the response times never decrease along
    the task list: a task later in the list responds no sooner than any
    task before it. *)
Theorem getTaskTiming_never_decreases (l : list RTTask) :
  Forall positive_task l ->
  Forall safe_task l ->
  (forall r, r ∈ getTaskTiming l -> safe_integer r) ->
  forall i task, l !! i = Some task ->
    exists x,
      getTaskTiming l !! i = Some (Fin x)
      /\ 0 <= x <= max_safe_integer
      /\ x = executionTime task + demand_sum x (take i l)
      /\ forall j y, (j <= i)%nat -> getTaskTiming l !! j = Some (Fin y) -> y <= x.
Proof.
  intros Hpos _ Hsafe i task Hi.
  destruct (getTaskTiming_monotone l Hpos (safe_no_sentinel _ Hsafe) i task Hi)
    as (x & Hx & _ & Hfix & Hmax).
  exists x. split; [exact Hx|]. split.
  - destruct (Hsafe (Fin x)) as (x' & [= <-] & Hrange); [|exact Hrange].
    apply list_elem_of_lookup. eauto.
  - split; [exact Hfix|exact Hmax].
Qed.

(** X25 at the system [(0,5,5),(2,7,7),(0,9,9)], with execution times 0:
    the response times are 0, 2 and 2. *)
Lemma getTaskTiming_never_decreases_witness :
  let l := [mkRTTask 1 0 5 5 0; mkRTTask 2 2 7 7 0; mkRTTask 3 0 9 9 0] in
  getTaskTiming l = [Fin 0; Fin 2; Fin 2]
  /\ exists x,
       getTaskTiming l !! 2%nat = Some (Fin x)
       /\ 0 <= x <= max_safe_integer
       /\ x = 0 + demand_sum x (take 2 l)
       /\ forall j y, (j <= 2)%nat -> getTaskTiming l !! j = Some (Fin y) -> y <= x.
Proof.
  intros l.
  assert (E : getTaskTiming l = [Fin 0; Fin 2; Fin 2]) by (vm_compute; reflexivity).
  split; [exact E|].
  apply (fun Hpos Hsafe Hout =>
           getTaskTiming_never_decreases l Hpos Hsafe Hout 2 (mkRTTask 3 0 9 9 0) eq_refl).
  - repeat constructor; simpl; lia.
  - repeat constructor; vm_compute; discriminate.
  - rewrite E. intros r Hr.
    repeat (apply elem_of_cons in Hr as [->|Hr];
            [eexists; split; [reflexivity|split; vm_compute; discriminate]|]).
    inversion Hr.
Defined.
